(** * Steganography engines: bit marshalling, pixel LSB, JPEG DCT, zero-width text

    A shallow embedding of the TypeScript sources [src/common.ts],
    [src/image.ts] and [src/text.ts].

    Conventions.
    - A [Uint8Array] is a [list Z]; a store into it keeps the value modulo 256
      ([u8]).  An [Int32Array] is a [list Z] whose stores wrap to the signed
      32-bit range ([toInt32]).
    - Array indices, lengths and loop counters are [nat]; the numbers held in
      arrays and the quantities the code subtracts are [Z].
    - A JavaScript string is the list of its UTF-16 code units.
    - [for] loops are written with the combinators [for_loop] and [for_while],
      which run the loop body over the successive values of the counter.
    - A function that may throw returns a [result]; an [async] function is
      modelled by the value its promise settles to.
    - An allocation is taken to succeed.  [extractLSB] allocates as many
      entries as its caller asks for, and [Alloc] has it with the limit of
      the host, above which the allocation is refused.
    - In the marshalling and in the pixel engine the operands of the bit
      operators are bytes and the shifts are below 8, so the 32-bit wrap of
      the JavaScript operators never acts and the operators of [Z] stand for
      them.  The JPEG engine works on 32-bit coefficients and has the wrap
      written out ([js_or], [js_and], [js_not]). *)

From Stdlib Require Import ZArith List Lia Bool ZifyNat Sorted Permutation.
From stdpp Require Import base list numbers gmap.

Local Open Scope Z_scope.

Ltac Zify.zify_post_hook ::= Z.div_mod_to_equations.

(** ** Typed arrays *)

Definition u8 (v : Z) : Z := v mod 256.

(** [a[i]]: a read past the end yields [undefined], which every bit operator
    of the sources coerces to 0. *)
Definition aget (a : list Z) (i : nat) : Z := default 0 (a !! i).

(** [a[i] = v] on a [Uint8Array]: the value is stored modulo 256 and a store
    past the end is ignored. *)
Definition aset (a : list Z) (i : nat) (v : Z) : list Z := <[i := u8 v]> a.

(** [new Uint8Array(n)]. *)
Definition new_Uint8Array (n : nat) : list Z := replicate n 0.

(** Outcome of a function that may throw. *)
Inductive error :=
| InvalidBitDepth
| CapacityExceeded (required available : Z)
| RangeError
| InvalidZwcLength
| PayloadTypeMismatch (got : Z)
| Truncated
| EncryptedDataTooShort
| DecompressionFailed
| InvalidUtf8
| UnknownPayloadType (got : Z)
| NoValidChunks
| FrameOutOfRange
| CoverTooLong
| SecretTooLong
| PayloadTooLarge
| DecodingFailed (cause : error).

Inductive result (A : Type) :=
| Ok (a : A)
| Throw (e : error).
Arguments Ok {A} a.
Arguments Throw {A} e.

(** ** Loops *)

(** [for (let i = i0; i < i0 + n; i++) s = body i s]. *)
Fixpoint for_loop {S : Type} (n i : nat) (body : nat -> S -> S) (s : S) : S :=
  match n with
  | O => s
  | Datatypes.S n' => for_loop n' (Datatypes.S i) body (body i s)
  end.

(** [for (let i = i0; i < i0 + n && cond s; i++) s = body i s]. *)
Fixpoint for_while {S : Type} (n i : nat) (cond : S -> bool)
    (body : nat -> S -> S) (s : S) : S :=
  match n with
  | O => s
  | Datatypes.S n' =>
      if cond s then for_while n' (Datatypes.S i) cond body (body i s) else s
  end.

(** [for (const x of l) { if (brk s) break; s = body x s }]. *)
Fixpoint for_of {A S : Type} (brk : S -> bool) (body : A -> S -> S)
    (l : list A) (s : S) : S :=
  match l with
  | [] => s
  | x :: r => if brk s then s else for_of brk body r (body x s)
  end.

(** The same loop when the body also updates the element it visits in place:
    the list of the updated elements is returned with the final state. *)
Fixpoint for_of_mut {A S : Type} (brk : S -> bool) (body : A -> S -> A * S)
    (l : list A) (s : S) : list A * S :=
  match l with
  | [] => ([], s)
  | x :: r =>
      if brk s then (l, s)
      else
        let '(x', s1) := body x s in
        let '(r', s2) := for_of_mut brk body r s1 in
        (x' :: r', s2)
  end.

Definition bind {A B : Type} (r : result A) (k : A -> result B) : result B :=
  match r with
  | Ok a => k a
  | Throw e => Throw e
  end.

Notation "'let!' x ':=' r 'in' k" := (bind r (fun x => k))
  (at level 10, x name, r at level 100, k at level 200).

(** [DataView.getUint32(off, true)]: a little-endian read, a [RangeError]
    when the four bytes are not all inside the view. *)
Definition getUint32 (view : list Z) (off : nat) : result Z :=
  if (off + 4 <=? length view)%nat
  then Ok (aget view off + 256 * aget view (off + 1)
           + 65536 * aget view (off + 2) + 16777216 * aget view (off + 3))
  else Throw RangeError.

(** The four bytes [DataView.setUint32(off, v, true)] writes. *)
Definition setUint32 (v : Z) : list Z :=
  let w := v mod 4294967296 in
  [w mod 256; (w / 256) mod 256; (w / 65536) mod 256; (w / 16777216) mod 256].

Definition is_byte (v : Z) : Prop := 0 <= v < 256.

Definition is_bit (v : Z) : Prop := v = 0 \/ v = 1.

(** ** Bit and byte marshalling ([src/common.ts]) *)

Module Common.

Definition bytesToBits (bytes : list Z) : list Z :=
  let bits := new_Uint8Array (length bytes * 8) in
  for_loop (length bytes) 0 (fun i bits =>
    let byte := aget bytes i in
    for_loop 8 0 (fun j bits =>
      aset bits (i * 8 + j) (Z.land (Z.shiftr byte (Z.of_nat j)) 1)) bits)
    bits.

(** The inner loop of [bitsToBytes]: the byte assembled from the eight bits
    that start at [i * 8]. *)
Definition byte_from (bits : list Z) (i : nat) : Z :=
  for_loop 8 0 (fun j byte =>
    let bitIndex := (i * 8 + j)%nat in
    if (bitIndex <? length bits)%nat
    then Z.lor byte (Z.shiftl (Z.land (aget bits bitIndex) 1) (Z.of_nat j))
    else byte) 0.

Definition bitsToBytes (bits : list Z) : list Z :=
  let byteCount := (length bits / 8)%nat in
  let bytes := new_Uint8Array byteCount in
  for_loop byteCount 0 (fun i bytes => aset bytes i (byte_from bits i)) bytes.

End Common.

(** ** Pixel LSB engine ([src/image.ts]) *)

Module Image.

Definition invalidBitDepth (bitDepth : Z) : bool :=
  (bitDepth <? 1) || (4 <? bitDepth).

(** [Math.floor((imageData.length / 4) * 3) * bitDepth].  The quotient by 4
    and the product by 3 are exact in double precision, so the floor is the
    floor of the rational [3 * length / 4]. *)
Definition maxBits (imageData : list Z) (bitDepth : Z) : Z :=
  Z.of_nat (length imageData) * 3 / 4 * bitDepth.

(** The inner loop of [embedLSB]: gathers up to [bitDepth] message bits. *)
Definition gatherBits (messageBits : list Z) (bitDepth : Z) (bitIndex : nat)
    : Z * nat :=
  for_while (Z.to_nat bitDepth) 0
    (fun st => (snd st <? length messageBits)%nat)
    (fun j st =>
       let bit := Z.land (aget messageBits (snd st)) 1 in
       (Z.lor (fst st) (Z.shiftl bit (Z.of_nat j)), Datatypes.S (snd st)))
    (0, bitIndex).

(** The outer loop of [embedLSB] from the state [(result, bitIndex)]. *)
Definition embedLoop (messageBits : list Z) (bitDepth : Z) (n : nat)
    (st : list Z * nat) : list Z * nat :=
  let mask := Z.shiftl 255 bitDepth in
  for_while n 0
    (fun st => (snd st <? length messageBits)%nat)
    (fun i st =>
       if (i mod 4 =? 3)%nat then st
       else
         let '(bitsToEmbed, bitIndex) := gatherBits messageBits bitDepth (snd st) in
         (aset (fst st) i (Z.lor (Z.land (aget (fst st) i) mask) bitsToEmbed),
          bitIndex))
    st.

(** [result] starts as the copy [new Uint8Array(imageData)]. *)
Definition embedLSB (imageData messageBits : list Z) (bitDepth : Z)
    : result (list Z) :=
  if invalidBitDepth bitDepth then Throw InvalidBitDepth
  else
    let result := imageData in
    let maxBits := maxBits imageData bitDepth in
    if maxBits <? Z.of_nat (length messageBits)
    then Throw (CapacityExceeded (Z.of_nat (length messageBits)) maxBits)
    else Ok (fst (embedLoop messageBits bitDepth (length imageData) (result, 0%nat))).

(** State of the loops of [extractLSB]. *)
Record extractState := {
  bits : list Z;
  bitIndex : nat;
  bitsSkipped : nat;
  stopped : bool  (* the inner loop has executed [break] *)
}.

Definition extractInner (imageData : list Z) (bitDepth : Z) (bitOffset : nat)
    (actualBitCount : Z) (i : nat) (st : extractState) : extractState :=
  for_while (Z.to_nat bitDepth) 0
    (fun st => negb (stopped st))
    (fun j st =>
       if (bitsSkipped st <? bitOffset)%nat
       then {| bits := bits st; bitIndex := bitIndex st;
               bitsSkipped := Datatypes.S (bitsSkipped st); stopped := false |}
       else if actualBitCount <=? Z.of_nat (bitIndex st)
       then {| bits := bits st; bitIndex := bitIndex st;
               bitsSkipped := bitsSkipped st; stopped := true |}
       else {| bits := aset (bits st) (bitIndex st)
                         (Z.land (Z.shiftr (aget imageData i) (Z.of_nat j)) 1);
               bitIndex := Datatypes.S (bitIndex st);
               bitsSkipped := bitsSkipped st; stopped := false |})
    st.

(** The run of [extractLSB] on a host that grants [new Uint8Array(bitCount)];
    [Alloc.extractLSB] below has the allocation as the host performs it. *)
Definition extractLSB (imageData : list Z) (bitCount : nat) (bitDepth : Z)
    (bitOffset : nat) : result (list Z) :=
  if invalidBitDepth bitDepth then Throw InvalidBitDepth
  else
    let bits0 := new_Uint8Array bitCount in
    let maxBits := maxBits imageData bitDepth in
    let actualBitCount := Z.min (Z.of_nat bitCount) (maxBits - Z.of_nat bitOffset) in
    let final :=
      for_while (length imageData) 0
        (fun st => Z.of_nat (bitIndex st) <? actualBitCount)
        (fun i st =>
           if (i mod 4 =? 3)%nat then st
           else
             let st' := extractInner imageData bitDepth bitOffset actualBitCount i st in
             {| bits := bits st'; bitIndex := bitIndex st';
                bitsSkipped := bitsSkipped st'; stopped := false |})
        {| bits := bits0; bitIndex := 0; bitsSkipped := 0; stopped := false |} in
    Ok (bits final).

(** *** JPEG DCT coefficient engine *)

(** [ToInt32]: the signed 32-bit value of a number, as the bit operators of
    JavaScript and the stores into an [Int32Array] see it. *)
Definition toInt32 (v : Z) : Z := (v + 2147483648) mod 4294967296 - 2147483648.

Definition js_or (a b : Z) : Z := toInt32 (Z.lor (toInt32 a) (toInt32 b)).
Definition js_and (a b : Z) : Z := toInt32 (Z.land (toInt32 a) (toInt32 b)).
Definition js_not (a : Z) : Z := toInt32 (Z.lnot (toInt32 a)).

(** [block[i] = v] on an [Int32Array]. *)
Definition i32set (block : list Z) (i : nat) (v : Z) : list Z :=
  <[i := toInt32 v]> block.

(** One colour component: its identifier and its grid of 8x8 blocks, each an
    [Int32Array] of 64 quantized coefficients.  The other fields of the
    decoder's record (sampling factors, dimensions, quantization tables) are
    not read by the engine. *)
Record JPEGComponentCoefficients := {
  id : Z;
  blocks : list (list (list Z))
}.

Record JPEGQuantizedCoefficients := {
  components : list JPEGComponentCoefficients
}.

(** [coeff !== 0 && coeff !== 1 && coeff !== -1] *)
Definition usable (coeff : Z) : bool :=
  negb (coeff =? 0) && negb (coeff =? 1) && negb (coeff =? -1).

(** The body of the innermost loop of [embedInCoefficients] at index [i],
    an index inside the 64-entry block. *)
Definition embedCoeff (messageBits : list Z) (i : nat) (st : list Z * nat)
    : list Z * nat :=
  let block := fst st in
  let bitIndex := snd st in
  let coeff := aget block i in
  if usable coeff then
    let messageBit := js_and (aget messageBits bitIndex) 1 in
    let coeffLSB := js_and (Z.abs coeff) 1 in
    if negb (coeffLSB =? messageBit) then
      if 0 <? coeff then
        let block1 :=
          i32set block i (if negb (messageBit =? 0) then js_or coeff 1
                          else js_and coeff (js_not 1)) in
        if (aget block1 i =? 0) || (aget block1 i =? 1)
        then (i32set block1 i coeff, bitIndex)
        else (block1, Datatypes.S bitIndex)
      else
        let absCoeff := - coeff in
        let newAbs := if negb (messageBit =? 0) then js_or absCoeff 1
                      else js_and absCoeff (js_not 1) in
        if (newAbs =? 0) || (newAbs =? 1)
        then (block, bitIndex)
        else (i32set block i (- newAbs), Datatypes.S bitIndex)
    else (block, Datatypes.S bitIndex)
  else (block, bitIndex).

Definition exhausted (messageBits : list Z) (bitIndex : nat) : bool :=
  (length messageBits <=? bitIndex)%nat.

(** [for (let i = 1; i < 64 && bitIndex < messageBits.length; i++)] *)
Definition embedBlock (messageBits : list Z) (block : list Z) (bitIndex : nat)
    : list Z * nat :=
  for_while 63 1 (fun st => negb (exhausted messageBits (snd st)))
    (embedCoeff messageBits) (block, bitIndex).

Definition embedRow (messageBits : list Z) (row : list (list Z)) (bitIndex : nat)
    : list (list Z) * nat :=
  for_of_mut (exhausted messageBits) (embedBlock messageBits) row bitIndex.

Definition embedComponent (messageBits : list Z) (useChroma : bool)
    (component : JPEGComponentCoefficients) (bitIndex : nat)
    : JPEGComponentCoefficients * nat :=
  if negb useChroma && negb (id component =? 1) then (component, bitIndex)
  else
    let '(blocks', bitIndex') :=
      for_of_mut (exhausted messageBits) (embedRow messageBits)
        (blocks component) bitIndex in
    ({| id := id component; blocks := blocks' |}, bitIndex').

(** The coefficient object is mutated in place and returned; the value
    returned here is that object after the call.  Blocks are distinct arrays,
    as the JPEG decoder builds them. *)
Definition embedInCoefficients (coefficients : JPEGQuantizedCoefficients)
    (messageBits : list Z) (useChroma : bool) : result JPEGQuantizedCoefficients :=
  let '(components', bitIndex) :=
    for_of_mut (exhausted messageBits) (embedComponent messageBits useChroma)
      (components coefficients) 0%nat in
  if (bitIndex <? length messageBits)%nat
  then Throw (CapacityExceeded (Z.of_nat (length messageBits)) (Z.of_nat bitIndex))
  else Ok {| components := components' |}.

(** The body of the innermost loop of [extractFromCoefficients]. *)
Definition extractCoeff (block : list Z) (i : nat) (st : list Z * nat)
    : list Z * nat :=
  let coeff := aget block i in
  if usable coeff
  then (aset (fst st) (snd st) (js_and (Z.abs coeff) 1), Datatypes.S (snd st))
  else st.

Definition filled (bitCount : nat) (st : list Z * nat) : bool :=
  (bitCount <=? snd st)%nat.

Definition extractBlock (bitCount : nat) (block : list Z) (st : list Z * nat)
    : list Z * nat :=
  for_while 63 1 (fun st => negb (filled bitCount st)) (extractCoeff block) st.

Definition extractRow (bitCount : nat) (row : list (list Z)) (st : list Z * nat)
    : list Z * nat :=
  for_of (filled bitCount) (extractBlock bitCount) row st.

Definition extractComponent (bitCount : nat) (useChroma : bool)
    (component : JPEGComponentCoefficients) (st : list Z * nat) : list Z * nat :=
  if negb useChroma && negb (id component =? 1) then st
  else for_of (filled bitCount) (extractRow bitCount) (blocks component) st.

Definition extractFromCoefficients (coefficients : JPEGQuantizedCoefficients)
    (bitCount : nat) (useChroma : bool) : list Z :=
  let bits := new_Uint8Array bitCount in
  fst (for_of (filled bitCount) (extractComponent bitCount useChroma)
         (components coefficients) (bits, 0%nat)).

(** *** Multi-frame split mode: the decoder *)

(** A frame of a multi-frame image; only its RGBA buffer is read here. *)
Record ImageFrame := { data : list Z }.

Record chunk := { index : Z; chunkData : list Z }.

(** The chunk header read from the first 96 embedded bits of a frame:
    [(chunkIndex, totalChunks, chunkSize)]. *)
Definition readChunkHeader (frame : ImageFrame) (bitDepth : Z)
    : result (Z * Z * Z) :=
  let! headerBits := extractLSB (data frame) 96 bitDepth 0 in
  let headerBytes := Common.bitsToBytes headerBits in
  let! chunkIndex := getUint32 headerBytes 0 in
  let! chunks := getUint32 headerBytes 4 in
  let! chunkSize := getUint32 headerBytes 8 in
  Ok (chunkIndex, chunks, chunkSize).

(** The test of the probing loop:
    [chunkIndex < chunks && chunks > 0 && chunks < 10000 && chunkSize > 0
     && chunkSize < 1000000]. *)
Definition plausibleHeader (chunkIndex chunks chunkSize : Z) : bool :=
  (chunkIndex <? chunks) && (0 <? chunks) && (chunks <? 10000)
  && (0 <? chunkSize) && (chunkSize <? 1000000).

(** The probing loop over the first five frames: [(isSplitMode, totalChunks)]. *)
Definition detectSplitMode (frames : list ImageFrame) (bitDepth : Z) : bool * Z :=
  for_while (Nat.min 5 (length frames)) 0
    (fun st => negb (fst st))
    (fun i st =>
       match frames !! i with
       | None => st
       | Some frame =>
           if (length (data frame) <? 12)%nat then st
           else
             match readChunkHeader frame bitDepth with
             | Ok (chunkIndex, chunks, chunkSize) =>
                 if plausibleHeader chunkIndex chunks chunkSize
                 then (true, chunks) else st
             | Throw _ => st
             end
       end)
    (false, 0).

(** The test of the collecting loop, negated:
    [chunkIndex >= totalChunks || chunkSize === 0 || chunkSize > 1000000]
    makes the loop skip the frame. *)
Definition rejectedHeader (chunkIndex totalChunks chunkSize : Z) : bool :=
  (totalChunks <=? chunkIndex) || (chunkSize =? 0) || (1000000 <? chunkSize).

(** The body of the collecting loop for one frame. *)
Definition collectFrame (bitDepth : Z) (frame : ImageFrame) (chunks : list chunk)
    : list chunk :=
  if (length (data frame) <? 12)%nat then chunks
  else
    match
      (let! header := readChunkHeader frame bitDepth in
       let '(chunkIndex, totalChunks, chunkSize) := header in
       if rejectedHeader chunkIndex totalChunks chunkSize then Ok chunks
       else
         let! chunkDataBits :=
           extractLSB (data frame) (Z.to_nat chunkSize * 8) bitDepth 96 in
         let chunkData := Common.bitsToBytes chunkDataBits in
         if (length chunkData =? Z.to_nat chunkSize)%nat
         then Ok (chunks ++ [{| index := chunkIndex; chunkData := chunkData |}])
         else Ok chunks)
    with
    | Ok chunks' => chunks'
    | Throw _ => chunks
    end.

Definition collectChunks (frames : list ImageFrame) (bitDepth : Z) : list chunk :=
  foldl (fun chunks frame => collectFrame bitDepth frame chunks) [] frames.

(** [chunks.sort((a, b) => a.index - b.index)]: the sort of an array is
    stable, so the result is the one a stable insertion sort gives. *)
Fixpoint insertChunk (c : chunk) (sorted : list chunk) : list chunk :=
  match sorted with
  | [] => [c]
  | x :: r => if index x <? index c then x :: insertChunk c r else c :: x :: r
  end.

Definition sortChunks (chunks : list chunk) : list chunk :=
  foldr insertChunk [] chunks.

(** The buffer [combined] that both decoders build from the sorted chunks. *)
Definition combineChunks (chunks : list chunk) : list Z :=
  foldl (fun combined c => combined ++ chunkData c) [] chunks.

Definition extractDataFromImageFrames (multiFrameData : list ImageFrame)
    (dataLength : nat) (bitDepth : Z) (frameIndex : nat) : result (list Z) :=
  let '(isSplitMode, totalChunks) := detectSplitMode multiFrameData bitDepth in
  if isSplitMode && (0 <? totalChunks) then
    let chunks := sortChunks (collectChunks multiFrameData bitDepth) in
    if (length chunks =? 0)%nat then Throw NoValidChunks
    else Ok (combineChunks chunks)
  else
    match multiFrameData !! frameIndex with
    | None => Throw FrameOutOfRange
    | Some frame =>
        let bitCount := (dataLength * 8)%nat in
        let! extractedBits := extractLSB (data frame) bitCount bitDepth 0 in
        Ok (Common.bitsToBytes extractedBits)
    end.

(** [utf8_decode] stands for [new TextDecoder("utf-8", {fatal: true}).decode],
    which throws on malformed input. *)
Definition extractTextFromImageFrames (utf8_decode : list Z -> option (list Z))
    (multiFrameData : list ImageFrame) (bitDepth : Z) (frameIndex : nat)
    : result (list Z) :=
  let decode bytes :=
    match utf8_decode bytes with
    | Some s => Ok s
    | None => Throw InvalidUtf8
    end in
  let '(isSplitMode, totalChunks) := detectSplitMode multiFrameData bitDepth in
  if isSplitMode && (0 <? totalChunks) then
    let chunks := sortChunks (collectChunks multiFrameData bitDepth) in
    if (length chunks =? 0)%nat then Throw NoValidChunks
    else
      let combined := combineChunks chunks in
      let! messageLength := getUint32 combined 0 in
      let messageBytes := take (Z.to_nat messageLength) (drop 4 combined) in
      decode messageBytes
  else
    match multiFrameData !! frameIndex with
    | None => Throw FrameOutOfRange
    | Some frame =>
        let! headerBits := extractLSB (data frame) 32 bitDepth 0 in
        let headerBytes := Common.bitsToBytes headerBits in
        let! messageLength := getUint32 headerBytes 0 in
        let! messageBits :=
          extractLSB (data frame) (Z.to_nat messageLength * 8) bitDepth 32 in
        decode (Common.bitsToBytes messageBits)
    end.

End Image.

(** ** Zero-width character text engine ([src/text.ts]) *)

Module Text.

Definition ZWC_MAP : list Z := [0x200b; 0x200c; 0x200d; 0xfeff; 0x2060; 0x2061].

Definition START_SENTINEL : list Z := [0x200b; 0x200c; 0x200b].
Definition END_SENTINEL : list Z := [0x200c; 0x200b; 0x200c].

Definition PAYLOAD_TYPE_TEXT : Z := 1.
Definition PAYLOAD_TYPE_BINARY : Z := 2.

Definition MAX_SECRET_LENGTH : Z := 50000.
Definition MAX_COVER_LENGTH : Z := 100000.

(** Membership in the character class of [ZWC_PATTERN], which is also the
    set built from [ZWC_MAP]. *)
Definition isZWC (c : Z) : bool := existsb (Z.eqb c) ZWC_MAP.

(** *** String primitives of the host language *)

Fixpoint startsWith (s pat : list Z) : bool :=
  match pat, s with
  | [], _ => true
  | _ :: _, [] => false
  | p :: pat', c :: s' => (p =? c) && startsWith s' pat'
  end.

(** [s.indexOf(pat)], with [None] for -1. *)
Fixpoint indexOf (s pat : list Z) : option nat :=
  if startsWith s pat then Some 0%nat
  else
    match s with
    | [] => None
    | _ :: s' => option_map Datatypes.S (indexOf s' pat)
    end.

(** [s.replace(pat, "")] for a string pattern: the first occurrence goes. *)
Definition removeFirst (s pat : list Z) : list Z :=
  match indexOf s pat with
  | None => s
  | Some i => take i s ++ drop (i + length pat) s
  end.

(** [s.replace(ZWC_PATTERN, "")]: the pattern is global and matches every
    run of zero-width characters. *)
Definition removeZWC (s : list Z) : list Z :=
  List.filter (fun c => negb (isZWC c)) s.

(** [s.substring(a, b)] for [a <= b]. *)
Definition substring (s : list Z) (a b : nat) : list Z :=
  take (b - a) (drop a s).

(** White space and line terminators of ECMAScript, as [trim] strips them. *)
Definition isWhiteSpace (c : Z) : bool :=
  existsb (Z.eqb c)
    [0x09; 0x0a; 0x0b; 0x0c; 0x0d; 0x20; 0xa0; 0x1680; 0x2028; 0x2029;
     0x202f; 0x205f; 0x3000; 0xfeff]
  || ((0x2000 <=? c) && (c <=? 0x200a)).

Fixpoint trimStart (s : list Z) : list Z :=
  match s with
  | [] => []
  | c :: r => if isWhiteSpace c then trimStart r else s
  end.

Definition trimEnd (s : list Z) : list Z := rev (trimStart (rev s)).

Definition trim (s : list Z) : list Z := trimEnd (trimStart s).

(** *** External collaborators

    The text encoder and decoder, the deflate streams, the key derivation and
    the AES-CTR cipher of the host.  [utf8_decode] and [decompress] fail with
    [None] where the host throws. *)
Record Primitives := {
  utf8_encode : list Z -> list Z;
  utf8_decode : list Z -> option (list Z);
  compress : list Z -> list Z;
  decompress : list Z -> option (list Z);
  deriveKey : list Z -> list Z -> list Z;
  aes_ctr_encrypt : list Z -> list Z -> list Z -> list Z;
  aes_ctr_decrypt : list Z -> list Z -> list Z -> list Z
}.

(** The two draws [encrypt] makes from [crypto.getRandomValues]. *)
Record Entropy := { salt : list Z; counter : list Z }.

(** [if (password)]: a password that is given and not empty. *)
Definition given (password : option (list Z)) : option (list Z) :=
  match password with
  | Some (c :: p) => Some (c :: p)
  | _ => None
  end.

Section Engine.
Variable P : Primitives.

(** The result buffer receives the salt at 0, the counter at 16 and the
    ciphertext at 32; both draws are 16 bytes long. *)
Definition encrypt (data_ password : list Z) (rnd : Entropy) : list Z :=
  let key := deriveKey P password (salt rnd) in
  let encrypted := aes_ctr_encrypt P key (counter rnd) data_ in
  salt rnd ++ counter rnd ++ encrypted.

Definition decrypt (data_ password : list Z) : result (list Z) :=
  if (length data_ <? 33)%nat then Throw EncryptedDataTooShort
  else
    let salt := take 16 data_ in
    let counter := take 16 (drop 16 data_) in
    let ciphertext := drop 32 data_ in
    let key := deriveKey P password salt in
    Ok (aes_ctr_decrypt P key counter ciphertext).

(** The four base-6 digits of a byte, most significant first. *)
Definition byteDigits (byte : Z) : list Z :=
  fst (for_loop 4 0 (fun _ st => (snd st mod 6 :: fst st, snd st / 6)) ([], byte)).

Definition bytesToZWC (bytes : list Z) : list Z :=
  foldl (fun result byte =>
           result ++ map (fun d => aget ZWC_MAP (Z.to_nat d)) (byteDigits byte))
    [] bytes.

(** [reverseMap[char]], defined when [char in reverseMap]. *)
Definition reverseMap (char : Z) : option Z :=
  (fix find (l : list Z) (k : Z) : option Z :=
     match l with
     | [] => None
     | c :: r => if c =? char then Some k else find r (k + 1)
     end) ZWC_MAP 0.

(** The loop iterates over code points; a zero-width character is a single
    code unit and no surrogate is one, so the code units are filtered. *)
Definition zwcDigits (zwcString : list Z) : list Z :=
  foldl (fun digits char =>
           match reverseMap char with
           | Some d => digits ++ [d]
           | None => digits
           end) [] zwcString.

Definition zwcToBytes (zwcString : list Z) : result (list Z) :=
  let digits := zwcDigits zwcString in
  if negb (length digits mod 4 =? 0)%nat then Throw InvalidZwcLength
  else
    let bytes :=
      for_loop (length digits / 4) 0 (fun k bytes =>
        let i := (4 * k)%nat in
        bytes ++ [aget digits i * 216 + aget digits (i + 1) * 36
                  + aget digits (i + 2) * 6 + aget digits (i + 3)]) [] in
    Ok (map u8 bytes).

Definition isBreak (char : Z) : bool :=
  existsb (Z.eqb char) [0x0a; 0x20; 0x2e; 0x2c; 0x3b; 0x3a; 0x21; 0x3f; 0x09].

Definition insertionPoints (coverText : list Z) : list nat :=
  for_loop (length coverText) 0 (fun i points =>
    if isBreak (aget coverText i) then points ++ [Datatypes.S i] else points) [].

(** State of the main loop of [distributeZWC].  In the function,
    [Math.ceil(zwcChars.length / insertionPoints.length)] is the ceiling of
    the exact quotient: the quotient of two string lengths, once rounded,
    stays in the same unit interval. *)
Record distState := { dResult : list Z; zwcIndex : nat; lastPos : nat }.

Definition distributeZWC (coverText zwcPayload : list Z) : list Z :=
  let points := insertionPoints coverText in
  if (length points =? 0)%nat
  then coverText ++ START_SENTINEL ++ zwcPayload ++ END_SENTINEL
  else
    let zwcChars := zwcPayload in
    let chunksPerPoint :=
      ((length zwcChars + length points - 1) / length points)%nat in
    let final :=
      for_while (length points) 0
        (fun st => (zwcIndex st <? length zwcChars)%nat)
        (fun i st =>
           let point := nth i points 0%nat in
           let result1 := dResult st ++ substring coverText (lastPos st) point in
           let chunkSize := Nat.min chunksPerPoint (length zwcChars - zwcIndex st) in
           let '(result2, zwcIndex2) :=
             for_while chunkSize 0
               (fun p => (snd p <? length zwcChars)%nat)
               (fun _ p => (fst p ++ [aget zwcChars (snd p)], Datatypes.S (snd p)))
               (result1, zwcIndex st) in
           {| dResult := result2; zwcIndex := zwcIndex2; lastPos := point |})
        {| dResult := []; zwcIndex := 0; lastPos := 0 |} in
    let result := dResult final ++ drop (lastPos final) coverText in
    START_SENTINEL ++ result ++ END_SENTINEL.

(** The framed payload both encoders build:
    [[1 byte: type][4 bytes: length][data]]. *)
Definition frame (payloadType : Z) (data_ : list Z) : list Z :=
  map u8 ([payloadType] ++ setUint32 (Z.of_nat (length data_)) ++ data_).

Definition encodeText (coverText secretMessage : list Z)
    (password : option (list Z)) (distribute : bool) (rnd : Entropy) : list Z :=
  let data0 := utf8_encode P secretMessage in
  let data1 := compress P data0 in
  let data2 :=
    match given password with
    | Some pw => encrypt data1 pw rnd
    | None => data1
    end in
  let header := frame PAYLOAD_TYPE_TEXT data2 in
  let zwcPayload := bytesToZWC header in
  if distribute then distributeZWC coverText zwcPayload
  else coverText ++ START_SENTINEL ++ zwcPayload ++ END_SENTINEL.

Definition encodeBinary (coverText binaryData : list Z)
    (password : option (list Z)) (distribute : bool) (rnd : Entropy) : list Z :=
  let data1 := compress P binaryData in
  let data2 :=
    match given password with
    | Some pw => encrypt data1 pw rnd
    | None => data1
    end in
  let header := frame PAYLOAD_TYPE_BINARY data2 in
  let zwcPayload := bytesToZWC header in
  if distribute then distributeZWC coverText zwcPayload
  else coverText ++ START_SENTINEL ++ zwcPayload ++ END_SENTINEL.

Definition extractZWCChars (str : list Z) : list Z :=
  foldl (fun result char => if isZWC char then result ++ [char] else result) [] str.

(** [try { ... } catch (error) { throw new Error("Decoding failed: ...") }] *)
Definition tryDecoding {A : Type} (r : result A) : result A :=
  match r with
  | Ok a => Ok a
  | Throw e => Throw (DecodingFailed e)
  end.

Definition orThrow {A : Type} (o : option A) (e : error) : result A :=
  match o with
  | Some a => Ok a
  | None => Throw e
  end.

(** The visible text on the path where a START sentinel was found. *)
Definition visibleOf (stegaText : list Z) : list Z :=
  trim (removeZWC (removeFirst (removeFirst stegaText START_SENTINEL) END_SENTINEL)).

Record TextResult := { visibleText : list Z; secretMessage : option (list Z) }.

Definition decodeText (stegaText : list Z) (password : option (list Z))
    : result TextResult :=
  match indexOf stegaText START_SENTINEL with
  | None => Ok {| visibleText := removeZWC stegaText; secretMessage := None |}
  | Some startIdx =>
      let afterStart := drop (startIdx + length START_SENTINEL) stegaText in
      let allZWC := extractZWCChars afterStart in
      let visibleText := visibleOf stegaText in
      if (length allZWC <? 20)%nat
      then Ok {| visibleText := visibleText; secretMessage := None |}
      else tryDecoding (
        let headerZWC := substring allZWC 0 20 in
        let! headerBytes := zwcToBytes headerZWC in
        let payloadType := aget headerBytes 0 in
        let! dataLength := getUint32 headerBytes 1 in
        if negb (payloadType =? PAYLOAD_TYPE_TEXT)
        then Throw (PayloadTypeMismatch payloadType)
        else
          let dataZWCLength := dataLength * 4 in
          let totalZWCNeeded := 20 + dataZWCLength in
          if Z.of_nat (length allZWC) <? totalZWCNeeded then Throw Truncated
          else
            let dataZWC := substring allZWC 20 (Z.to_nat totalZWCNeeded) in
            let! data1 := zwcToBytes dataZWC in
            let! data2 :=
              match given password with
              | Some pw => decrypt data1 pw
              | None => Ok data1
              end in
            let! data3 := orThrow (decompress P data2) DecompressionFailed in
            let! secretMessage := orThrow (utf8_decode P data3) InvalidUtf8 in
            Ok {| visibleText := visibleText; secretMessage := Some secretMessage |})
  end.

Record BinaryResult := { bVisibleText : list Z; bBinaryData : option (list Z) }.

Definition decodeBinary (stegaText : list Z) (password : option (list Z))
    : result BinaryResult :=
  match indexOf stegaText START_SENTINEL with
  | None => Ok {| bVisibleText := removeZWC stegaText; bBinaryData := None |}
  | Some startIdx =>
      let afterStart := drop (startIdx + length START_SENTINEL) stegaText in
      let allZWC := extractZWCChars afterStart in
      let visibleText := visibleOf stegaText in
      if (length allZWC <? 20)%nat
      then Ok {| bVisibleText := visibleText; bBinaryData := None |}
      else tryDecoding (
        let headerZWC := substring allZWC 0 20 in
        let! headerBytes := zwcToBytes headerZWC in
        let payloadType := aget headerBytes 0 in
        let! dataLength := getUint32 headerBytes 1 in
        if negb (payloadType =? PAYLOAD_TYPE_BINARY)
        then Throw (PayloadTypeMismatch payloadType)
        else
          let dataZWCLength := dataLength * 4 in
          let totalZWCNeeded := 20 + dataZWCLength in
          if Z.of_nat (length allZWC) <? totalZWCNeeded then Throw Truncated
          else
            let dataZWC := substring allZWC 20 (Z.to_nat totalZWCNeeded) in
            let! data1 := zwcToBytes dataZWC in
            let! data2 :=
              match given password with
              | Some pw => decrypt data1 pw
              | None => Ok data1
              end in
            let! data3 := orThrow (decompress P data2) DecompressionFailed in
            Ok {| bVisibleText := visibleText; bBinaryData := Some data3 |})
  end.

Inductive payloadKind := KText | KBinary.

Record AutoResult := {
  aVisibleText : list Z;
  aPayloadType : option payloadKind;
  aTextData : option (list Z);
  aBinaryData : option (list Z)
}.

Definition noPayload (visible : list Z) : AutoResult :=
  {| aVisibleText := visible; aPayloadType := None;
     aTextData := None; aBinaryData := None |}.

Definition decode (stegaText : list Z) (password : option (list Z))
    : result AutoResult :=
  match indexOf stegaText START_SENTINEL with
  | None => Ok (noPayload (removeZWC stegaText))
  | Some startIdx =>
      let afterStart := drop (startIdx + length START_SENTINEL) stegaText in
      let allZWC := extractZWCChars afterStart in
      let visibleText := visibleOf stegaText in
      if (length allZWC <? 20)%nat
      then Ok (noPayload visibleText)
      else tryDecoding (
        let headerZWC := substring allZWC 0 20 in
        let! headerBytes := zwcToBytes headerZWC in
        let payloadType := aget headerBytes 0 in
        let! dataLength := getUint32 headerBytes 1 in
        let dataZWCLength := dataLength * 4 in
        let totalZWCNeeded := 20 + dataZWCLength in
        if Z.of_nat (length allZWC) <? totalZWCNeeded then Throw Truncated
        else
          let dataZWC := substring allZWC 20 (Z.to_nat totalZWCNeeded) in
          let! data1 := zwcToBytes dataZWC in
          let! data2 :=
            match given password with
            | Some pw => decrypt data1 pw
            | None => Ok data1
            end in
          let! data3 := orThrow (decompress P data2) DecompressionFailed in
          if payloadType =? PAYLOAD_TYPE_TEXT then
            let! textData := orThrow (utf8_decode P data3) InvalidUtf8 in
            Ok {| aVisibleText := visibleText; aPayloadType := Some KText;
                  aTextData := Some textData; aBinaryData := None |}
          else if payloadType =? PAYLOAD_TYPE_BINARY then
            Ok {| aVisibleText := visibleText; aPayloadType := Some KBinary;
                  aTextData := None; aBinaryData := Some data3 |}
          else Throw (UnknownPayloadType payloadType))
  end.

Definition stripZWC (text : list Z) : list Z := removeZWC text.

End Engine.

(** [calculateTextCapacity], from the revision of [text.ts] that takes
    [EncodeOptions].  [Math.floor(coverText.length * 0.1)] is written as the
    quotient by 10; the maximum taken next makes its exact value irrelevant,
    since a tenth of a length never exceeds the length. *)
Definition calculateTextCapacity (coverText : list Z) : Z :=
  let estimatedZWC := Z.of_nat (length coverText) / 10 in
  let availableZWC := Z.max estimatedZWC (Z.of_nat (length coverText)) in
  let payloadZWC := Z.max 0 (availableZWC - 26) in
  let payloadBytes := payloadZWC / 4 in
  payloadBytes.

(** *** [encodeText] of the revision that takes [EncodeOptions]

    The later revision of [text.ts] checks the sizes first and then runs the
    pipeline of [encodeText] above.  [Math.ceil(data.length * 0.6)] is
    written as the ceiling of the rational [3 * length / 5]. *)
Record EncodeOptions := {
  maxPayloadBytes : option Z;
  maxSecretLength : option Z;
  maxCoverLength : option Z;
  strictCapacity : option bool
}.

(** [options?.field ?? fallback] *)
Definition optionOr {A : Type} (options : option EncodeOptions)
    (field : EncodeOptions -> option A) (fallback : A) : A :=
  match options with
  | Some o => default fallback (field o)
  | None => fallback
  end.

Module Guarded.

Definition encodeText (P : Primitives) (coverText secretMessage : list Z)
    (password : option (list Z)) (distribute : bool)
    (options : option EncodeOptions) (rnd : Entropy) : result (list Z) :=
  let maxSecretLength := optionOr options maxSecretLength MAX_SECRET_LENGTH in
  let maxCoverLength := optionOr options maxCoverLength MAX_COVER_LENGTH in
  if maxCoverLength <? Z.of_nat (length coverText) then Throw CoverTooLong
  else
    let data0 := utf8_encode P secretMessage in
    if maxSecretLength <? Z.of_nat (length data0) then Throw SecretTooLong
    else
      let calculatedCapacity := calculateTextCapacity coverText in
      let capacity := optionOr options maxPayloadBytes calculatedCapacity in
      let strictMode := optionOr options strictCapacity true in
      let estimatedCompressed := (3 * Z.of_nat (length data0) + 4) / 5 in
      let estimatedEncrypted :=
        match given password with
        | Some _ => estimatedCompressed + 32
        | None => estimatedCompressed
        end in
      if (capacity <? estimatedEncrypted) && strictMode then Throw PayloadTooLarge
      else
        let data1 := compress P data0 in
        let data2 :=
          match given password with
          | Some pw => encrypt P data1 pw rnd
          | None => data1
          end in
        if (capacity <? Z.of_nat (length data2)) && strictMode
        then Throw PayloadTooLarge
        else
          let header := frame PAYLOAD_TYPE_TEXT data2 in
          let zwcPayload := bytesToZWC header in
          if distribute then Ok (distributeZWC coverText zwcPayload)
          else Ok (coverText ++ START_SENTINEL ++ zwcPayload ++ END_SENTINEL).

End Guarded.

End Text.

(** ** The pixel LSB embedder over a store of typed arrays

    [embedLSB] once more, with the arrays held in a store and passed by
    reference, as the caller sees them: [new Uint8Array(imageData)] allocates
    a fresh array, and every [result[i] = v] is a write into the store. *)

Module Heap.

Abbreviation store := (gmap nat (list Z)).

Definition contents (h : store) (l : nat) : list Z := default [] (h !! l).

Definition load (h : store) (l : nat) (i : nat) : Z := aget (contents h l) i.

Definition write (h : store) (l : nat) (i : nat) (v : Z) : store :=
  alter (fun a => aset a i v) l h.

(** [new Uint8Array(source)]: a copy at a location not yet in use. *)
Definition alloc (h : store) (source : list Z) : store * nat :=
  let l := fresh (dom h) in (<[l := source]> h, l).

Definition gatherBits (messageBits : nat) (bitDepth : Z)
    (st : store * nat) : Z * nat :=
  let h := fst st in
  for_while (Z.to_nat bitDepth) 0
    (fun p => (snd p <? length (contents h messageBits))%nat)
    (fun j p =>
       let bit := Z.land (load h messageBits (snd p)) 1 in
       (Z.lor (fst p) (Z.shiftl bit (Z.of_nat j)), Datatypes.S (snd p)))
    (0, snd st).

Definition embedLSB (h : store) (imageData messageBits : nat) (bitDepth : Z)
    : store * result nat :=
  if Image.invalidBitDepth bitDepth then (h, Throw InvalidBitDepth)
  else
    let '(h1, result) := alloc h (contents h imageData) in
    let maxBits := Image.maxBits (contents h1 imageData) bitDepth in
    if maxBits <? Z.of_nat (length (contents h1 messageBits))
    then (h1, Throw (CapacityExceeded
                       (Z.of_nat (length (contents h1 messageBits))) maxBits))
    else
      let mask := Z.shiftl 255 bitDepth in
      let final :=
        for_while (length (contents h1 imageData)) 0
          (fun st => (snd st <? length (contents (fst st) messageBits))%nat)
          (fun i st =>
             if (i mod 4 =? 3)%nat then st
             else
               let '(bitsToEmbed, bitIndex) := gatherBits messageBits bitDepth st in
               (write (fst st) result i
                  (Z.lor (Z.land (load (fst st) result i) mask) bitsToEmbed),
                bitIndex))
          (h1, 0%nat) in
      (fst final, Ok result).

End Heap.

(** ** The extractor with the allocation of its result

    [extractLSB] allocates [new Uint8Array(bitCount)] after the test of the
    depth and before it clamps the count to the capacity of the image, and
    that allocation can be refused with a RangeError: ToIndex refuses a
    length above [2 ^ 53 - 1] on every host, and a host refuses a length it
    cannot allocate.  [limit] is the largest length the host grants. *)

Module Alloc.

Definition MAX_SAFE_INTEGER : Z := 2 ^ 53 - 1.

(** [new Uint8Array(n)] where [n] is a number of the caller. *)
Definition new_Uint8Array (limit : Z) (n : nat) : result (list Z) :=
  if Z.min limit MAX_SAFE_INTEGER <? Z.of_nat n then Throw RangeError
  else Ok (replicate n 0).

Definition extractLSB (limit : Z) (imageData : list Z) (bitCount : nat)
    (bitDepth : Z) (bitOffset : nat) : result (list Z) :=
  if Image.invalidBitDepth bitDepth then Throw InvalidBitDepth
  else
    let! bits0 := new_Uint8Array limit bitCount in
    let maxBits := Image.maxBits imageData bitDepth in
    let actualBitCount := Z.min (Z.of_nat bitCount) (maxBits - Z.of_nat bitOffset) in
    let final :=
      for_while (length imageData) 0
        (fun st => Z.of_nat (Image.bitIndex st) <? actualBitCount)
        (fun i st =>
           if (i mod 4 =? 3)%nat then st
           else
             let st' :=
               Image.extractInner imageData bitDepth bitOffset actualBitCount i st in
             {| Image.bits := Image.bits st'; Image.bitIndex := Image.bitIndex st';
                Image.bitsSkipped := Image.bitsSkipped st';
                Image.stopped := false |})
        {| Image.bits := bits0; Image.bitIndex := 0; Image.bitsSkipped := 0;
           Image.stopped := false |} in
    Ok (Image.bits final).

End Alloc.

(** ** Helpers around the engines

    The helpers throw errors of their own besides those of the engines they
    call. *)
Inductive fault :=
| Engine (e : error)
| NotIntegers
| NotPositive
| DimensionTooLarge
| TooManyPixels
| MessageTooLong (length maximum : Z)
| MessageTooLarge (required capacity : Z).

Inductive outcome (A : Type) :=
| Returns (a : A)
| Fails (f : fault).
Arguments Returns {A} a.
Arguments Fails {A} f.

(** A call of an engine from a helper. *)
Definition engine {A : Type} (r : result A) : outcome A :=
  match r with
  | Ok a => Returns a
  | Throw e => Fails (Engine e)
  end.

(** A number as the validators receive it: an integer, or a value that
    [Number.isInteger] rejects (a fraction, [NaN], an infinity). *)
Inductive number :=
| Integer (z : Z)
| NonInteger.

(** The value of a number that has passed [Number.isInteger]. *)
Definition valueOf (n : number) : Z :=
  match n with
  | Integer z => z
  | NonInteger => 0
  end.

(** *** The rest of [src/common.ts] *)

Module Util.

(** [utf8_encode] stands for [new TextEncoder().encode].  With an empty key
    [i % 0] is [NaN] and the read of the key yields [undefined], which [^]
    takes as 0; [Nat.modulo] by 0 and [aget] past the end give the same. *)
Definition xorEncrypt (utf8_encode : list Z -> list Z) (data_ password : list Z)
    : list Z :=
  if (length password =? 0)%nat then data_
  else
    let passwordBytes := utf8_encode password in
    let result := new_Uint8Array (length data_) in
    for_loop (length data_) 0 (fun i result =>
      aset result i
        (Z.lxor (aget data_ i) (aget passwordBytes (i mod length passwordBytes))))
      result.

Definition xorDecrypt (utf8_encode : list Z -> list Z) (data_ password : list Z)
    : list Z :=
  xorEncrypt utf8_encode data_ password.

Definition MAX_EMBED_FILE_SIZE : Z := 10 * 1024 * 1024.
Definition MAX_MESSAGE_LENGTH : Z := 10 * 1024 * 1024.
Definition MAX_IMAGE_DIMENSION : Z := 10000.
Definition MAX_FILENAME_LENGTH : nat := 255.

Definition validateImageDimensions (width height : number) : outcome unit :=
  match width, height with
  | Integer width, Integer height =>
      if (width <=? 0) || (height <=? 0) then Fails NotPositive
      else if (MAX_IMAGE_DIMENSION <? width) || (MAX_IMAGE_DIMENSION <? height)
      then Fails DimensionTooLarge
      else
        let pixelCount := width * height in
        let maxPixels := MAX_IMAGE_DIMENSION * MAX_IMAGE_DIMENSION in
        if maxPixels <? pixelCount then Fails TooManyPixels
        else Returns tt
  | _, _ => Fails NotIntegers
  end.

(** The characters the first replacement removes: slash, backslash, question
    mark, percent, asterisk, colon, bar, double quote, less-than and
    greater-than. *)
Definition forbidden (c : Z) : bool :=
  existsb (Z.eqb c) [0x2f; 0x5c; 0x3f; 0x25; 0x2a; 0x3a; 0x7c; 0x22; 0x3c; 0x3e].

(** The second replacement: the dots the name starts with are removed. *)
Fixpoint dropDots (s : list Z) : list Z :=
  match s with
  | [] => []
  | c :: r => if c =? 0x2e then dropDots r else s
  end.

(** [s.lastIndexOf] of a character, with [None] for -1. *)
Definition lastIndexOf (s : list Z) (c : Z) : option nat :=
  for_loop (length s) 0 (fun i found => if aget s i =? c then Some i else found)
    None.

(** The default name: the four letters of [file]. *)
Definition file : list Z := [0x66; 0x69; 0x6c; 0x65].

(** [name.substring(0, MAX_FILENAME_LENGTH - extension.length)] takes a
    negative end as 0, which the truncated subtraction gives as well. *)
Definition sanitizeFilename (filename : list Z) : list Z :=
  if (length filename =? 0)%nat then file
  else
    let sanitized :=
      Text.trim (dropDots (List.filter (fun c => negb (forbidden c)) filename)) in
    if (length sanitized =? 0)%nat then file
    else if (MAX_FILENAME_LENGTH <? length sanitized)%nat then
      match lastIndexOf sanitized 0x2e with
      | Some (Datatypes.S e) =>
          let ext := Datatypes.S e in
          let name := Text.substring sanitized 0 ext in
          let extension := drop ext sanitized in
          Text.substring name 0 (MAX_FILENAME_LENGTH - length extension) ++ extension
      | _ => Text.substring sanitized 0 MAX_FILENAME_LENGTH
      end
    else sanitized.

End Util.

(** *** Helpers of the pixel engine ([src/image.ts]) *)

Module Pixels.

Record ImageEncodeOptions := {
  maxPayloadBytes : option Z;
  maxMessageLength : option Z;
  strictCapacity : option bool
}.

(** [options?.field ?? fallback] *)
Definition optionOr {A : Type} (options : option ImageEncodeOptions)
    (field : ImageEncodeOptions -> option A) (fallback : A) : A :=
  match options with
  | Some o => default fallback (field o)
  | None => fallback
  end.

(** [Math.floor((rgbChannels * bitDepth) / 8)] with
    [rgbChannels = (imageData.length / 4) * 3]: the quotients by 4 and by 8
    are exact in double precision, so this is the floor of the rational
    [3 * length * bitDepth / 32]. *)
Definition capacityBytes (imageData : list Z) (bitDepth : Z) : Z :=
  Z.of_nat (length imageData) * 3 * bitDepth / 32.

(** [Math.floor((width * height * 3 * bitDepth) / 8)] behind the check of
    the dimensions, which lets only integers through. *)
Definition calculateBitCapacity (width height : number) (bitDepth : Z)
    : outcome Z :=
  match Util.validateImageDimensions width height with
  | Fails f => Fails f
  | Returns _ => Returns (valueOf width * valueOf height * 3 * bitDepth / 8)
  end.

(** [utf8_encode] stands for [new TextEncoder().encode]. *)
Definition embedTextInImage (utf8_encode : list Z -> list Z)
    (imageData message : list Z) (bitDepth : Z)
    (options : option ImageEncodeOptions) : outcome (list Z) :=
  let messageBytes := utf8_encode message in
  let maxMessageLength :=
    optionOr options maxMessageLength Util.MAX_MESSAGE_LENGTH in
  if maxMessageLength <? Z.of_nat (length messageBytes)
  then Fails (MessageTooLong (Z.of_nat (length messageBytes)) maxMessageLength)
  else
    let capacityBytes := capacityBytes imageData bitDepth in
    let maxCapacity := optionOr options maxPayloadBytes capacityBytes in
    let strictMode := optionOr options strictCapacity true in
    let requiredBytes := Z.of_nat (length messageBytes) + 4 in
    if (maxCapacity <? requiredBytes) && strictMode
    then Fails (MessageTooLarge requiredBytes maxCapacity)
    else
      let header := setUint32 (Z.of_nat (length messageBytes)) in
      let dataWithHeader := header ++ messageBytes in
      let messageBits := Common.bytesToBits dataWithHeader in
      engine (Image.embedLSB imageData messageBits bitDepth).

(** [utf8_decode] stands for [new TextDecoder("utf-8", {fatal: true}).decode],
    which throws on malformed input. *)
Definition extractTextFromImage (utf8_decode : list Z -> option (list Z))
    (imageData : list Z) (bitDepth : Z) : result (list Z) :=
  let! headerBits := Image.extractLSB imageData 32 bitDepth 0 in
  let headerBytes := Common.bitsToBytes headerBits in
  let! messageLength := getUint32 headerBytes 0 in
  let! messageBits :=
    Image.extractLSB imageData (Z.to_nat (messageLength * 8)) bitDepth 32 in
  let messageBytes := Common.bitsToBytes messageBits in
  match utf8_decode messageBytes with
  | Some text => Ok text
  | None => Throw InvalidUtf8
  end.

Definition embedDataInImage (imageData data_ : list Z) (bitDepth : Z)
    (options : option ImageEncodeOptions) : outcome (list Z) :=
  let maxMessageLength :=
    optionOr options maxMessageLength Util.MAX_MESSAGE_LENGTH in
  if maxMessageLength <? Z.of_nat (length data_)
  then Fails (MessageTooLong (Z.of_nat (length data_)) maxMessageLength)
  else
    let capacityBytes := capacityBytes imageData bitDepth in
    let maxCapacity := optionOr options maxPayloadBytes capacityBytes in
    let strictMode := optionOr options strictCapacity true in
    if (maxCapacity <? Z.of_nat (length data_)) && strictMode
    then Fails (MessageTooLarge (Z.of_nat (length data_)) maxCapacity)
    else
      let dataBits := Common.bytesToBits data_ in
      engine (Image.embedLSB imageData dataBits bitDepth).

Definition extractDataFromImage (imageData : list Z) (dataLength : nat)
    (bitDepth : Z) : result (list Z) :=
  let bitCount := (dataLength * 8)%nat in
  let! extractedBits := Image.extractLSB imageData bitCount bitDepth 0 in
  Ok (Common.bitsToBytes extractedBits).

(** The counters the loop of [generateLSBStats] keeps for one channel. *)
Record channelCount := { nOnes : nat; nZeros : nat; nChanged : nat }.

(** One channel of the result: [changed] is an optional field, set only when
    an original was given. *)
Record channelStats := { ones : nat; zeros : nat; changed : option nat }.

Record LSBStats := {
  red : channelStats;
  green : channelStats;
  blue : channelStats;
  total : channelStats
}.

(** One colour channel of one pixel in the loop of [generateLSBStats]:
    [originalData && i < originalData.length] guards the comparison. *)
Definition countChannel (imageData : list Z) (originalData : option (list Z))
    (i k : nat) (st : channelCount) : channelCount :=
  let lsb := Z.land (aget imageData (i + k)) 1 in
  let differs :=
    match originalData with
    | Some original =>
        (i <? length original)%nat
        && negb (lsb =? Z.land (aget original (i + k)) 1)
    | None => false
    end in
  {| nOnes := if negb (lsb =? 0) then Datatypes.S (nOnes st) else nOnes st;
     nZeros := if negb (lsb =? 0) then nZeros st else Datatypes.S (nZeros st);
     nChanged := if differs then Datatypes.S (nChanged st) else nChanged st |}.

(** [for (let i = 0; i < imageData.length; i += 4)]: one turn per started
    pixel.  The result is built without [changed] fields, and
    [if (originalData)] then sets the four of them. *)
Definition generateLSBStats (imageData : list Z) (originalData : option (list Z))
    : LSBStats :=
  let zero := {| nOnes := 0; nZeros := 0; nChanged := 0 |} in
  let '(r, g, b) :=
    for_loop ((length imageData + 3) / 4) 0 (fun p '(r, g, b) =>
      let i := (4 * p)%nat in
      (countChannel imageData originalData i 0 r,
       countChannel imageData originalData i 1 g,
       countChannel imageData originalData i 2 b))
      (zero, zero, zero) in
  let given := fun (count : nat) =>
    match originalData with
    | Some _ => Some count
    | None => None
    end in
  {| red := {| ones := nOnes r; zeros := nZeros r;
               changed := given (nChanged r) |};
     green := {| ones := nOnes g; zeros := nZeros g;
                 changed := given (nChanged g) |};
     blue := {| ones := nOnes b; zeros := nZeros b;
                changed := given (nChanged b) |};
     total := {| ones := nOnes r + nOnes g + nOnes b;
                 zeros := nZeros r + nZeros g + nZeros b;
                 changed := given (nChanged r + nChanged g + nChanged b)%nat |} |}.

(** The embedded-file header: [[Magic(1), NameLen(1), Name(N), FileSize(4)]]. *)
Definition prepareFileHeader (utf8_encode : list Z -> list Z)
    (fileName : list Z) (fileSize : Z) : list Z :=
  let fileNameBytes := utf8_encode fileName in
  [0x55; u8 (Z.of_nat (length fileNameBytes))]
  ++ fileNameBytes ++ setUint32 fileSize.

Record FileHeader := {
  fileName : list Z;
  fileSize : Z;
  payloadOffset : nat
}.

(** [view.getUint32(off, true)] where the four bytes are known to be inside
    the array. *)
Definition uint32At (view : list Z) (off : nat) : Z :=
  aget view off + 256 * aget view (off + 1)
  + 65536 * aget view (off + 2) + 16777216 * aget view (off + 3).

(** [utf8_decode_lossy] stands for
    [new TextDecoder("utf-8", {fatal: false}).decode], which never throws. *)
Definition parseFileHeader (utf8_decode_lossy : list Z -> list Z)
    (bytes : list Z) : option FileHeader :=
  if (length bytes <? 2)%nat || negb (aget bytes 0 =? 0x55) then None
  else
    let nameLen := Z.to_nat (aget bytes 1) in
    if (Util.MAX_FILENAME_LENGTH <? nameLen)%nat
       || (length bytes <? 2 + nameLen + 4)%nat
    then None
    else
      let fileNameBytes := Text.substring bytes 2 (2 + nameLen) in
      let fileName := utf8_decode_lossy fileNameBytes in
      if (length fileName =? 0)%nat then None
      else
        let fileSize := uint32At bytes (2 + nameLen) in
        if (Util.MAX_EMBED_FILE_SIZE <? fileSize) || (fileSize <=? 0) then None
        else
          let payloadOffset := (2 + nameLen + 4)%nat in
          if Z.of_nat (length bytes) <? Z.of_nat payloadOffset + fileSize
          then None
          else Some {| fileName := Util.sanitizeFilename fileName;
                       fileSize := fileSize;
                       payloadOffset := payloadOffset |}.

End Pixels.

(** *** Helpers of the JPEG engine ([src/image.ts]) *)

Module Jpeg.

(** The innermost loop of the two counting functions, [i] from 1 to 63. *)
Definition countBlock {S : Type} (count : Z -> S -> S) (block : list Z) (s : S) : S :=
  for_loop 63 1 (fun i s =>
    let coeff := aget block i in
    if Image.usable coeff then count coeff s else s) s.

Definition calculateJpegCoefficientCapacity
    (coefficients : Image.JPEGQuantizedCoefficients) (useChroma : bool) : nat :=
  let bitCount :=
    foldl (fun bitCount component =>
             if negb useChroma && negb (Image.id component =? 1) then bitCount
             else
               foldl (fun bitCount row =>
                        foldl (fun bitCount block =>
                                 countBlock (fun _ n => Datatypes.S n) block bitCount)
                          bitCount row)
                 bitCount (Image.blocks component))
      0%nat (Image.components coefficients) in
  (bitCount / 8)%nat.

Record groupStats := { gOnes : nat; gZeros : nat; gTotal : nat }.

Record JpegStats := {
  luminance : groupStats;
  chroma : groupStats;
  totalOnes : nat;
  totalZeros : nat;
  totalUsable : nat
}.

Definition tally (coeff : Z) (g : groupStats) : groupStats :=
  let lsb := Image.js_and (Z.abs coeff) 1 in
  {| gOnes := if negb (lsb =? 0) then Datatypes.S (gOnes g) else gOnes g;
     gZeros := if negb (lsb =? 0) then gZeros g else Datatypes.S (gZeros g);
     gTotal := Datatypes.S (gTotal g) |}.

Definition generateJpegCoefficientStats
    (coefficients : Image.JPEGQuantizedCoefficients) : JpegStats :=
  let zero := {| gOnes := 0; gZeros := 0; gTotal := 0 |} in
  let '(lum, chr) :=
    foldl (fun stats component =>
             let isLuminance := Image.id component =? 1 in
             foldl (fun stats row =>
                      foldl (fun stats block =>
                               countBlock
                                 (fun coeff '(lum, chr) =>
                                    if isLuminance then (tally coeff lum, chr)
                                    else (lum, tally coeff chr))
                                 block stats)
                        stats row)
               stats (Image.blocks component))
      (zero, zero) (Image.components coefficients) in
  {| luminance := lum; chroma := chr;
     totalOnes := gOnes lum + gOnes chr;
     totalZeros := gZeros lum + gZeros chr;
     totalUsable := gTotal lum + gTotal chr |}.

Definition embedDataInJpegCoefficients
    (coefficients : Image.JPEGQuantizedCoefficients) (data_ : list Z)
    (useChroma : bool) : result Image.JPEGQuantizedCoefficients :=
  let dataBits := Common.bytesToBits data_ in
  Image.embedInCoefficients coefficients dataBits useChroma.

Definition extractDataFromJpegCoefficients
    (coefficients : Image.JPEGQuantizedCoefficients) (maxBytes : nat)
    (useChroma : bool) : list Z :=
  let maxBits := (maxBytes * 8)%nat in
  let extractedBits := Image.extractFromCoefficients coefficients maxBits useChroma in
  Common.bitsToBytes extractedBits.

End Jpeg.

(** *** Inspection of a text ([src/text.ts]) *)

Module Inspect.

(** The counting loop returns [true] at the sixteenth zero-width character. *)
Definition hasHiddenData (text : list Z) : bool :=
  match Text.indexOf text Text.START_SENTINEL with
  | None => false
  | Some startIdx =>
      let afterStart := drop (startIdx + length Text.START_SENTINEL) text in
      fst (for_of (fun st : bool * nat => fst st)
             (fun char st =>
                if Text.isZWC char
                then let zwcCount := Datatypes.S (snd st) in
                     ((16 <=? zwcCount)%nat, zwcCount)
                else st)
             afterStart (false, 0%nat))
  end.

(** The counters of [analyzeZWC], in the order of [ZWC_MAP]:
    ZWSP, ZWNJ, ZWJ, BOM, WJ, FUN. *)
Record ZWCStats := {
  sHasHiddenData : bool;
  visibleLength : nat;
  zwcCount : nat;
  estimatedPayloadBytes : Z;
  breakdown : list nat
}.

(** The [switch] of the counting loop: the counter of [char], if it has one. *)
Definition breakdownIndex (char : Z) : option nat :=
  option_map Z.to_nat (Text.reverseMap char).

Definition analyzeZWC (text : list Z) : ZWCStats :=
  let hasHidden := hasHiddenData text in
  let visible := Text.stripZWC text in
  let '(breakdown, zwcCount) :=
    foldl (fun st char =>
             match breakdownIndex char with
             | Some k => (alter Datatypes.S k (fst st), Datatypes.S (snd st))
             | None => st
             end)
      (replicate 6 0%nat, 0%nat) text in
  let payloadZWC := Z.max 0 (Z.of_nat zwcCount - 6) in
  let estimatedPayloadBytes := payloadZWC / 4 in
  {| sHasHiddenData := hasHidden;
     visibleLength := length visible;
     zwcCount := zwcCount;
     estimatedPayloadBytes := estimatedPayloadBytes;
     breakdown := breakdown |}.

End Inspect.

(** * Properties *)

(** ** Loop rules *)

Section LoopRules.
Context {S : Type}.

Lemma for_loop_inv (P : nat -> S -> Prop) (body : nat -> S -> S) :
  forall (n i : nat) (s : S),
    P i s ->
    (forall k t, (i <= k < i + n)%nat -> P k t -> P (Datatypes.S k) (body k t)) ->
    P (i + n)%nat (for_loop n i body s).
Proof.
  induction n as [|n IH]; intros i s H0 Hstep; simpl.
  - replace (i + 0)%nat with i by lia. exact H0.
  - replace (i + Datatypes.S n)%nat with (Datatypes.S i + n)%nat by lia.
    apply IH.
    + apply Hstep; [lia | exact H0].
    + intros k t Hk. apply Hstep. lia.
Qed.

Lemma for_loop_ext (f g : nat -> S -> S) :
  forall (n i : nat) (s : S),
    (forall k t, (i <= k < i + n)%nat -> f k t = g k t) ->
    for_loop n i f s = for_loop n i g s.
Proof.
  induction n as [|n IH]; intros i s H; simpl; [reflexivity|].
  rewrite (H i s) by lia. apply IH. intros k t Hk. apply H. lia.
Qed.

Lemma for_while_S (cond : S -> bool) (body : nat -> S -> S) (n i : nat) (s : S) :
  for_while (Datatypes.S n) i cond body s
  = if cond s then for_while n (Datatypes.S i) cond body (body i s) else s.
Proof. reflexivity. Qed.

(** A property kept by every iteration holds when a guarded loop ends. *)
Lemma for_while_inv (Q : S -> Prop) (cond : S -> bool) (body : nat -> S -> S) :
  forall (n i : nat) (s : S),
    Q s ->
    (forall k t, (i <= k < i + n)%nat -> cond t = true -> Q t -> Q (body k t)) ->
    Q (for_while n i cond body s).
Proof.
  induction n as [|n IH]; intros i s H0 Hstep; simpl; [exact H0|].
  destruct (cond s) eqn:Hc; [|exact H0].
  apply IH.
  - apply Hstep; [lia | exact Hc | exact H0].
  - intros k t Hk. apply Hstep. lia.
Qed.

(** The same with the counter: the loop ends at some [k], either the bound
    or the first counter at which the guard fails. *)
Lemma for_while_inv_idx (P : nat -> S -> Prop) (cond : S -> bool)
    (body : nat -> S -> S) :
  forall (n i : nat) (s : S),
    P i s ->
    (forall k t, (i <= k < i + n)%nat -> cond t = true -> P k t ->
                 P (Datatypes.S k) (body k t)) ->
    exists k, (i <= k <= i + n)%nat /\ P k (for_while n i cond body s) /\
              ((k < i + n)%nat -> cond (for_while n i cond body s) = false).
Proof.
  induction n as [|n IH]; intros i s H0 Hstep; simpl.
  - exists i. split; [lia|]. split; [exact H0|]. lia.
  - destruct (cond s) eqn:Hc.
    + destruct (IH (Datatypes.S i) (body i s)) as (k & Hk & HP & Hstop).
      * apply Hstep; [lia | exact Hc | exact H0].
      * intros k t Hk. apply Hstep. lia.
      * exists k. split; [lia|]. split; [exact HP|].
        intros Hlt. apply Hstop. lia.
    + exists i. split; [lia|]. split; [exact H0|]. intros _. exact Hc.
Qed.

Lemma for_while_ext (cond cond' : S -> bool) (f g : nat -> S -> S) :
  forall (n i : nat) (s : S),
    (forall t, cond t = cond' t) ->
    (forall k t, (i <= k < i + n)%nat -> f k t = g k t) ->
    for_while n i cond f s = for_while n i cond' g s.
Proof.
  induction n as [|n IH]; intros i s Hc H; simpl; [reflexivity|].
  rewrite <- Hc. destruct (cond s); [|reflexivity].
  rewrite (H i s) by lia. apply IH; [exact Hc|].
  intros k t Hk. apply H. lia.
Qed.

End LoopRules.

(** ** Reads and stores of typed arrays *)

Lemma aget_lookup (a : list Z) (i : nat) (v : Z) :
  a !! i = Some v -> aget a i = v.
Proof. unfold aget. intros ->. reflexivity. Qed.

Lemma lookup_aget (a : list Z) (i : nat) :
  (i < length a)%nat -> a !! i = Some (aget a i).
Proof.
  intros H. unfold aget.
  destruct (lookup_lt_is_Some_2 a i H) as [v ->]. reflexivity.
Qed.

Lemma aget_ge (a : list Z) (i : nat) :
  (length a <= i)%nat -> aget a i = 0.
Proof. intros H. unfold aget. rewrite lookup_ge_None_2 by lia. reflexivity. Qed.

Lemma length_aset (a : list Z) (i : nat) (v : Z) :
  length (aset a i v) = length a.
Proof. apply length_insert. Qed.

Lemma aget_aset_eq (a : list Z) (i : nat) (v : Z) :
  (i < length a)%nat -> aget (aset a i v) i = u8 v.
Proof.
  intros H. unfold aget, aset. rewrite list_lookup_insert_eq by exact H.
  reflexivity.
Qed.

Lemma aget_aset_ne (a : list Z) (i j : nat) (v : Z) :
  i <> j -> aget (aset a i v) j = aget a j.
Proof.
  intros H. unfold aget, aset. rewrite list_lookup_insert_ne by exact H.
  reflexivity.
Qed.

Lemma aget_new (n i : nat) : aget (new_Uint8Array n) i = 0.
Proof.
  unfold aget, new_Uint8Array. destruct (replicate n 0 !! i) eqn:E; [|reflexivity].
  apply lookup_replicate in E. simpl. tauto.
Qed.

Lemma length_new (n : nat) : length (new_Uint8Array n) = n.
Proof. apply length_replicate. Qed.

Lemma array_ext (a b : list Z) :
  length a = length b ->
  (forall i, (i < length a)%nat -> aget a i = aget b i) ->
  a = b.
Proof.
  intros Hlen H. apply list_eq. intros i.
  destruct (Nat.lt_ge_cases i (length a)) as [Hi|Hi].
  - rewrite (lookup_aget a i Hi), (lookup_aget b i) by lia.
    f_equal. apply H. exact Hi.
  - rewrite !lookup_ge_None_2 by lia. reflexivity.
Qed.

Lemma aget_Forall (Q : Z -> Prop) (a : list Z) (i : nat) :
  Forall Q a -> (i < length a)%nat -> Q (aget a i).
Proof.
  intros H Hi. rewrite Forall_lookup in H.
  apply (H i). apply lookup_aget. exact Hi.
Qed.

Lemma u8_byte (v : Z) : is_byte v -> u8 v = v.
Proof. unfold is_byte, u8. intros H. apply Z.mod_small. exact H. Qed.

Lemma u8_is_byte (v : Z) : is_byte (u8 v).
Proof. unfold is_byte, u8. apply Z.mod_pos_bound. lia. Qed.

Lemma land_1_cases (v : Z) : Z.land v 1 = 0 \/ Z.land v 1 = 1.
Proof.
  pose proof (Z.land_ones v 1 ltac:(lia)) as H.
  change (Z.ones 1) with 1 in H. change (2 ^ 1) with 2 in H. lia.
Qed.

Lemma u8_land_1 (v : Z) : u8 (Z.land v 1) = Z.land v 1.
Proof. apply u8_byte. unfold is_byte. destruct (land_1_cases v); lia. Qed.

(** A property of every byte value, checked by running it on all 256. *)
Lemma byte_cases (p : Z -> bool) :
  forallb (fun n => p (Z.of_nat n)) (seq 0 256) = true ->
  forall v, is_byte v -> p v = true.
Proof.
  intros H v Hv. rewrite forallb_forall in H.
  specialize (H (Z.to_nat v)).
  rewrite Z2Nat.id in H by (unfold is_byte in Hv; lia).
  apply H. apply in_seq. unfold is_byte in Hv. lia.
Qed.

(** ** Bit and byte marshalling *)

(** The bit the encoder writes at position [k] of the stream. *)
Definition bit_at (bytes : list Z) (k : nat) : Z :=
  Z.land (Z.shiftr (aget bytes (k / 8)) (Z.of_nat (k mod 8))) 1.

Lemma bytesToBits_spec (bytes : list Z) :
  length (Common.bytesToBits bytes) = (length bytes * 8)%nat /\
  forall k, (k < length bytes * 8)%nat ->
            aget (Common.bytesToBits bytes) k = bit_at bytes k.
Proof.
  unfold Common.bytesToBits.
  set (n := length bytes).
  pose (P := fun (i : nat) (bits : list Z) =>
               length bits = (n * 8)%nat /\
               forall k, (k < i * 8)%nat -> aget bits k = bit_at bytes k).
  assert (HP : P (0 + n)%nat
                 (for_loop n 0 (fun i bits =>
                    let byte := aget bytes i in
                    for_loop 8 0 (fun j bits =>
                      aset bits (i * 8 + j)
                        (Z.land (Z.shiftr byte (Z.of_nat j)) 1)) bits)
                    (new_Uint8Array (n * 8)))).
  { apply (for_loop_inv P).
    - split; [apply length_new | intros k Hk; lia].
    - intros i bits Hi [Hlen Hbits]. cbv zeta.
      pose (Q := fun (j : nat) (bits : list Z) =>
                   length bits = (n * 8)%nat /\
                   forall k, (k < i * 8 + j)%nat -> aget bits k = bit_at bytes k).
      assert (HQ : Q (0 + 8)%nat
                     (for_loop 8 0 (fun j bits =>
                        aset bits (i * 8 + j)
                          (Z.land (Z.shiftr (aget bytes i) (Z.of_nat j)) 1)) bits)).
      { apply (for_loop_inv Q).
        - split; [exact Hlen|]. intros k Hk. apply Hbits. lia.
        - intros j b Hj [Hl Hb]. split.
          + rewrite length_aset. exact Hl.
          + intros k Hk.
            destruct (Nat.eq_dec k (i * 8 + j)%nat) as [->|Hne].
            * rewrite aget_aset_eq by lia. rewrite u8_land_1.
              unfold bit_at.
              replace ((i * 8 + j) / 8)%nat with i by lia.
              replace ((i * 8 + j) mod 8)%nat with j by lia.
              reflexivity.
            * rewrite aget_aset_ne by lia. apply Hb. lia. }
      destruct HQ as [Hl Hb]. split; [exact Hl|].
      intros k Hk. apply Hb. lia. }
  destruct HP as [Hl Hb]. split; [exact Hl|].
  intros k Hk. apply Hb. lia.
Qed.

Lemma bitsToBytes_spec (bits : list Z) :
  length (Common.bitsToBytes bits) = (length bits / 8)%nat /\
  forall i, (i < length bits / 8)%nat ->
            aget (Common.bitsToBytes bits) i = u8 (Common.byte_from bits i).
Proof.
  unfold Common.bitsToBytes.
  set (n := (length bits / 8)%nat).
  pose (P := fun (i : nat) (bytes : list Z) =>
               length bytes = n /\
               forall k, (k < i)%nat -> aget bytes k = u8 (Common.byte_from bits k)).
  assert (HP : P (0 + n)%nat
                 (for_loop n 0 (fun i bytes => aset bytes i (Common.byte_from bits i))
                    (new_Uint8Array n))).
  { apply (for_loop_inv P).
    - split; [apply length_new | intros k Hk; lia].
    - intros i bytes Hi [Hl Hb]. split.
      + rewrite length_aset. exact Hl.
      + intros k Hk. destruct (Nat.eq_dec k i) as [->|Hne].
        * rewrite aget_aset_eq by lia. reflexivity.
        * rewrite aget_aset_ne by lia. apply Hb. lia. }
  destruct HP as [Hl Hb]. split; [exact Hl|].
  intros i Hi. apply Hb. lia.
Qed.

(** Eight bits taken least significant first put a byte back together. *)
Definition reassemble (v : Z) : Z :=
  for_loop 8 0 (fun j byte =>
    Z.lor byte (Z.shiftl (Z.land (Z.land (Z.shiftr v (Z.of_nat j)) 1) 1) (Z.of_nat j))) 0.

Lemma reassemble_byte (v : Z) : is_byte v -> reassemble v = v.
Proof.
  intros Hv. apply Z.eqb_eq.
  apply (byte_cases (fun v => reassemble v =? v)); [|exact Hv].
  vm_compute. reflexivity.
Qed.

Lemma byte_from_bytesToBits (bytes : list Z) (i : nat) :
  (i < length bytes)%nat ->
  Common.byte_from (Common.bytesToBits bytes) i = reassemble (aget bytes i).
Proof.
  intros Hi. destruct (bytesToBits_spec bytes) as [Hl Hb].
  unfold Common.byte_from, reassemble.
  apply for_loop_ext. intros j byte Hj. cbv zeta.
  rewrite Hl.
  replace (i * 8 + j <? length bytes * 8)%nat with true
    by (symmetry; apply Nat.ltb_lt; lia).
  rewrite Hb by lia. unfold bit_at.
  replace ((i * 8 + j) / 8)%nat with i by lia.
  replace ((i * 8 + j) mod 8)%nat with j by lia.
  reflexivity.
Qed.

(** C7.  For every byte sequence [x], [bitsToBytes (bytesToBits x) = x];
    [bytesToBits] emits the eight bits of each byte least significant first:
    the bit at position [8 i + j] of the stream is bit [j] of byte [i]. *)
Theorem bitsToBytes_bytesToBits (x : list Z) :
  Forall is_byte x ->
  Common.bitsToBytes (Common.bytesToBits x) = x /\
  forall i j, (i < length x)%nat -> (j < 8)%nat ->
    aget (Common.bytesToBits x) (i * 8 + j) =
    Z.land (Z.shiftr (aget x i) (Z.of_nat j)) 1.
Proof.
  intros Hx. destruct (bytesToBits_spec x) as [Hl Hb].
  destruct (bitsToBytes_spec (Common.bytesToBits x)) as [Hl' Hb'].
  rewrite Hl in Hl', Hb'.
  replace (length x * 8 / 8)%nat with (length x) in Hl', Hb' by lia.
  split.
  - apply array_ext; [exact Hl'|].
    rewrite Hl'. intros i Hi. rewrite Hb' by exact Hi.
    rewrite byte_from_bytesToBits by exact Hi.
    rewrite reassemble_byte by (apply aget_Forall; assumption).
    apply u8_byte. apply aget_Forall; assumption.
  - intros i j Hi Hj. rewrite Hb by lia. unfold bit_at.
    replace ((i * 8 + j) / 8)%nat with i by lia.
    replace ((i * 8 + j) mod 8)%nat with j by lia.
    reflexivity.
Qed.

Lemma bitsToBytes_bytesToBits_witness :
  Forall is_byte [0; 1; 127; 128; 255] /\
  Common.bitsToBytes (Common.bytesToBits [0; 1; 127; 128; 255]) = [0; 1; 127; 128; 255].
Proof.
  assert (H : Forall is_byte [0; 1; 127; 128; 255])
    by (repeat constructor; unfold is_byte; lia).
  split; [exact H|].
  exact (proj1 (bitsToBytes_bytesToBits [0; 1; 127; 128; 255] H)).
Defined.

(** ** Pixel LSB engine: capacity and frame *)

(** Number of channel bytes (indices that are not an alpha byte) before
    index [i]. *)
Definition rank (i : nat) : nat := (i - i / 4)%nat.

(** The bytes the embedding loop writes: a channel byte reached while message
    bits remain. *)
Definition visited (messageBits : list Z) (bitDepth : Z) (i : nat) : Prop :=
  (i mod 4 <> 3)%nat /\ (rank i * Z.to_nat bitDepth < length messageBits)%nat.

Lemma rank_alpha (i : nat) : (i mod 4 = 3)%nat -> rank (Datatypes.S i) = rank i.
Proof. unfold rank. intros H. lia. Qed.

Lemma rank_channel (i : nat) :
  (i mod 4 <> 3)%nat -> rank (Datatypes.S i) = Datatypes.S (rank i).
Proof. unfold rank. intros H. lia. Qed.

Lemma gatherBits_index (messageBits : list Z) (bitDepth : Z) (k : nat) :
  (k <= length messageBits)%nat ->
  snd (Image.gatherBits messageBits bitDepth k)
  = Nat.min (length messageBits) (k + Z.to_nat bitDepth).
Proof.
  intros Hk. unfold Image.gatherBits.
  set (n := Z.to_nat bitDepth).
  match goal with
  | |- snd (for_while n 0 ?c ?f ?s) = _ =>
      destruct (for_while_inv_idx
                  (fun j (st : Z * nat) =>
                     snd st = (k + j)%nat /\ (k + j <= length messageBits)%nat)
                  c f n 0%nat s) as (j & Hj & [He Hle] & Hstop)
  end.
  - simpl. lia.
  - intros j st Hj Hc [He Hle]. simpl in *.
    apply Nat.ltb_lt in Hc. lia.
  - destruct (Nat.eq_dec j n) as [->|Hne]; [lia|].
    assert (Hlt : (j < 0 + n)%nat) by lia.
    specialize (Hstop Hlt). apply Nat.ltb_ge in Hstop. lia.
Qed.

Lemma embedLoop_frame (imageData messageBits : list Z) (bitDepth : Z) :
  let out := fst (Image.embedLoop messageBits bitDepth (length imageData)
                    (imageData, 0%nat)) in
  length out = length imageData /\
  forall k, ~ visited messageBits bitDepth k -> out !! k = imageData !! k.
Proof.
  cbv zeta. unfold Image.embedLoop.
  set (D := Z.to_nat bitDepth).
  match goal with
  | |- context [for_while ?n 0 ?c ?f ?s] =>
      destruct (for_while_inv_idx
                  (fun i (st : list Z * nat) =>
                     length (fst st) = length imageData /\
                     snd st = Nat.min (length messageBits) (rank i * D) /\
                     forall k, ~ visited messageBits bitDepth k ->
                               fst st !! k = imageData !! k)
                  c f n 0%nat s) as (i & _ & (Hl & _ & Hf) & _)
  end.
  - simpl. split; [reflexivity|]. split; [|reflexivity].
    unfold rank. simpl. lia.
  - intros i st Hi Hc (Hl & Hb & Hf).
    apply Nat.ltb_lt in Hc.
    assert (Hr : (rank i * D < length messageBits)%nat) by lia.
    destruct (i mod 4 =? 3)%nat eqn:Ha.
    + apply Nat.eqb_eq in Ha. rewrite (rank_alpha i Ha).
      split; [exact Hl|]. split; [exact Hb | exact Hf].
    + apply Nat.eqb_neq in Ha. rewrite (rank_channel i Ha).
      pose proof (gatherBits_index messageBits bitDepth (snd st)) as Hg.
      destruct (Image.gatherBits messageBits bitDepth (snd st)) as [e bi].
      simpl in Hg |- *. split; [rewrite length_aset; exact Hl|]. split.
      * rewrite Hg by lia. fold D. lia.
      * intros k Hk. unfold aset.
        rewrite list_lookup_insert_ne; [apply Hf; exact Hk|].
        intros ->. apply Hk. split; [exact Ha | exact Hr].
  - split; [exact Hl | exact Hf].
Qed.

Lemma embedLSB_Ok_inv (imageData messageBits : list Z) (bitDepth : Z) (out : list Z) :
  Image.embedLSB imageData messageBits bitDepth = Ok out ->
  1 <= bitDepth <= 4 /\
  Z.of_nat (length messageBits) <= Image.maxBits imageData bitDepth /\
  out = fst (Image.embedLoop messageBits bitDepth (length imageData)
               (imageData, 0%nat)).
Proof.
  unfold Image.embedLSB, Image.invalidBitDepth. intros H.
  destruct (bitDepth <? 1) eqn:H1; [discriminate|].
  destruct (4 <? bitDepth) eqn:H4; [discriminate|]. simpl in H.
  destruct (Image.maxBits imageData bitDepth <? Z.of_nat (length messageBits)) eqn:Hm;
    [discriminate|].
  injection H as <-. split; [lia|]. split; [lia | reflexivity].
Qed.

Lemma whole_pixels (n : nat) :
  (n mod 4 = 0)%nat -> Z.of_nat n * 3 / 4 = Z.of_nat n / 4 * 3.
Proof.
  intros Hm. assert (Z.of_nat n mod 4 = 0) by lia. lia.
Qed.

(** The capacity test of [embedLSB] on any buffer: with a depth in 1..4 the
    call throws the capacity error exactly when the message is longer than
    [maxBits = floor (3 |I| / 4) * d], and returns otherwise. *)
Lemma embedLSB_maxBits_test (I b : list Z) (d : Z) :
  1 <= d <= 4 ->
  (Image.embedLSB I b d
   = Throw (CapacityExceeded (Z.of_nat (length b)) (Image.maxBits I d))
   <-> Image.maxBits I d < Z.of_nat (length b)) /\
  (Z.of_nat (length b) <= Image.maxBits I d
   <-> exists out, Image.embedLSB I b d = Ok out).
Proof.
  intros Hd. unfold Image.embedLSB, Image.invalidBitDepth.
  replace (d <? 1) with false by (symmetry; apply Z.ltb_ge; lia).
  replace (4 <? d) with false by (symmetry; apply Z.ltb_ge; lia).
  cbn [orb]. cbv zeta.
  destruct (Image.maxBits I d <? Z.of_nat (length b)) eqn:Hb.
  - apply Z.ltb_lt in Hb. split; [tauto|].
    split; [lia|]. intros [out H]. discriminate.
  - apply Z.ltb_ge in Hb. split.
    + split; [discriminate | lia].
    + split; [eauto | lia].
Qed.

(** On a buffer of whole RGBA pixels [maxBits] is three channels per pixel,
    [d] bits each. *)
Lemma maxBits_pixels (I : list Z) (d : Z) :
  (length I mod 4 = 0)%nat ->
  Image.maxBits I d = Z.of_nat (length I) / 4 * 3 * d.
Proof.
  intros Hm. unfold Image.maxBits. f_equal. apply whole_pixels. exact Hm.
Qed.

(** A buffer that is not made of whole pixels is tested against the wider
    bound [floor (3 |I| / 4) * d]: six bytes accept four bits at depth 1,
    one more than [floor (6 / 4) * 3 * 1]. *)
Lemma embedLSB_ragged_buffer :
  Image.embedLSB [0; 0; 0; 0; 0; 0] [1; 1; 1; 1] 1 = Ok [1; 1; 1; 0; 1; 0] /\
  Z.of_nat (length [0; 0; 0; 0; 0; 0]) / 4 * 3 * 1
  < Z.of_nat (length [1; 1; 1; 1]).
Proof. split; [reflexivity | vm_compute; reflexivity]. Qed.

(** C4.  Whenever [embedLSB] succeeds, the output has the length of the input
    and agrees with it at every index [i] with [i mod 4 = 3]: the alpha
    channel is never modified. *)
Theorem embedLSB_alpha (imageData messageBits : list Z) (bitDepth : Z) (out : list Z) :
  Image.embedLSB imageData messageBits bitDepth = Ok out ->
  length out = length imageData /\
  forall i, (i mod 4 = 3)%nat -> out !! i = imageData !! i.
Proof.
  intros H. apply embedLSB_Ok_inv in H. destruct H as (_ & _ & ->).
  destruct (embedLoop_frame imageData messageBits bitDepth) as [Hl Hf].
  split; [exact Hl|]. intros i Hi. apply Hf.
  unfold visited. intros [Hne _]. contradiction.
Qed.

Lemma embedLSB_alpha_witness :
  Image.embedLSB [255; 255; 255; 255; 255; 255; 255; 255] [0; 0; 0; 0; 0; 0] 1
  = Ok [254; 254; 254; 255; 254; 254; 254; 255] /\
  [254; 254; 254; 255; 254; 254; 254; 255] !! 7%nat
  = [255; 255; 255; 255; 255; 255; 255; 255] !! 7%nat.
Proof.
  assert (H : Image.embedLSB [255; 255; 255; 255; 255; 255; 255; 255]
                [0; 0; 0; 0; 0; 0] 1
              = Ok [254; 254; 254; 255; 254; 254; 254; 255]) by reflexivity.
  split; [exact H|].
  exact (proj2 (embedLSB_alpha _ _ _ _ H) 7%nat eq_refl).
Defined.

(** ** Pixel LSB engine over the store *)

Section LoopSimulation.
Context {S T : Type} (R : S -> T -> Prop).

Lemma for_while_sim (c1 : S -> bool) (f1 : nat -> S -> S)
    (c2 : T -> bool) (f2 : nat -> T -> T) :
  (forall s t, R s t -> c1 s = c2 t) ->
  (forall k s t, R s t -> c1 s = true -> R (f1 k s) (f2 k t)) ->
  forall (n i : nat) (s : S) (t : T),
    R s t -> R (for_while n i c1 f1 s) (for_while n i c2 f2 t).
Proof.
  intros Hc Hf. induction n as [|n IH]; intros i s t HR; simpl; [exact HR|].
  rewrite <- (Hc s t HR). destruct (c1 s) eqn:E; [|exact HR].
  apply IH. apply Hf; assumption.
Qed.

End LoopSimulation.

Lemma contents_insert_eq (h : Heap.store) (l : nat) (a : list Z) :
  Heap.contents (<[l := a]> h) l = a.
Proof. unfold Heap.contents. rewrite lookup_insert_eq. reflexivity. Qed.

Lemma contents_insert_ne (h : Heap.store) (l l' : nat) (a : list Z) :
  l <> l' -> Heap.contents (<[l := a]> h) l' = Heap.contents h l'.
Proof. intros H. unfold Heap.contents. rewrite lookup_insert_ne by exact H. reflexivity. Qed.

Lemma contents_Some (h : Heap.store) (l : nat) (a : list Z) :
  h !! l = Some a -> Heap.contents h l = a.
Proof. unfold Heap.contents. intros ->. reflexivity. Qed.

Lemma fresh_not_in (h : Heap.store) : h !! fresh (dom h) = None.
Proof. apply not_elem_of_dom. apply is_fresh. Qed.

(** The store version computes what the value version computes: the result
    lands in a location that was not in use, and nothing else is written. *)
Lemma heap_embedLSB_refines (h : Heap.store) (li lb : nat) (img msg : list Z) (d : Z) :
  h !! li = Some img -> h !! lb = Some msg ->
  let lr := fresh (dom h) in
  Heap.embedLSB h li lb d =
  match Image.embedLSB img msg d with
  | Ok out => (<[lr := out]> h, Ok lr)
  | Throw InvalidBitDepth => (h, Throw InvalidBitDepth)
  | Throw e => (<[lr := img]> h, Throw e)
  end.
Proof.
  intros Hi Hb lr.
  assert (Hli : lr <> li) by (intros E; pose proof (fresh_not_in h) as F; fold lr in F; congruence).
  assert (Hlb : lr <> lb) by (intros E; pose proof (fresh_not_in h) as F; fold lr in F; congruence).
  unfold Heap.embedLSB, Image.embedLSB, Heap.alloc.
  destruct (Image.invalidBitDepth d); [reflexivity|].
  fold lr. rewrite (contents_Some h li img Hi).
  rewrite !contents_insert_ne by assumption.
  rewrite (contents_Some h li img Hi), (contents_Some h lb msg Hb).
  destruct (Image.maxBits img d <? Z.of_nat (length msg)); [reflexivity|].
  unfold Image.embedLoop.
  match goal with
  | |- (fst (for_while ?nn 0 ?c1 ?f1 ?s0), _)
       = (<[lr := fst (for_while ?nn 0 ?c2 ?f2 ?t0)]> h, _) =>
      pose (R := fun (x : Heap.store * nat) (y : list Z * nat) =>
                   fst x = <[lr := fst y]> h /\ snd x = snd y);
      assert (Hsim : R (for_while nn 0 c1 f1 s0) (for_while nn 0 c2 f2 t0));
        [apply (for_while_sim R c1 f1 c2 f2); subst R; cbv beta
        | destruct Hsim as [E _]; rewrite E; reflexivity]
  end.
  - intros [hs bi] [res bi'] [E1 E2]. simpl in *. subst.
    rewrite contents_insert_ne by assumption.
    rewrite (contents_Some h lb msg Hb). reflexivity.
  - intros k [hs bi] [res bi'] [E1 E2] _. simpl in E1, E2. subst.
    cbv beta. destruct (k mod 4 =? 3)%nat; [split; reflexivity|].
    assert (Hg : Heap.gatherBits lb d (<[lr := res]> h, bi') = Image.gatherBits msg d bi').
    { unfold Heap.gatherBits, Image.gatherBits. simpl.
      apply for_while_ext.
      - intros p. rewrite contents_insert_ne by assumption.
        rewrite (contents_Some h lb msg Hb). reflexivity.
      - intros j p _. unfold Heap.load.
        rewrite contents_insert_ne by assumption.
        rewrite (contents_Some h lb msg Hb). reflexivity. }
    cbn [fst snd]. rewrite Hg.
    destruct (Image.gatherBits msg d bi') as [e bi2]. cbn [fst snd].
    split; [|reflexivity].
    unfold Heap.write, Heap.load. rewrite alter_insert_eq.
    rewrite contents_insert_eq. reflexivity.
  - split; reflexivity.
Qed.

(** C8.  [embedLSB] never mutates its input.  Over any store holding the
    image buffer and the bit stream, and for every depth: every array that
    was in the store before the call, the caller's input among them, is
    unchanged after it; a returned array lives at a location that was not in
    use; every byte of it that the embedding did not visit equals the
    corresponding input byte; and an array is returned whenever the depth is
    in 1..4 and the bit stream fits. *)
Theorem embedLSB_input_intact (h : Heap.store) (imageData messageBits : nat)
    (img msg : list Z) (bitDepth : Z) :
  h !! imageData = Some img ->
  h !! messageBits = Some msg ->
  let h' := fst (Heap.embedLSB h imageData messageBits bitDepth) in
  (forall l a, h !! l = Some a -> h' !! l = Some a) /\
  h' !! imageData = Some img /\
  (forall result, snd (Heap.embedLSB h imageData messageBits bitDepth) = Ok result ->
     h !! result = None /\
     exists out, h' !! result = Some out /\
       length out = length img /\
       forall i, ~ visited msg bitDepth i -> out !! i = img !! i) /\
  (1 <= bitDepth <= 4 ->
   Z.of_nat (length msg) <= Image.maxBits img bitDepth ->
   exists result, snd (Heap.embedLSB h imageData messageBits bitDepth) = Ok result).
Proof.
  intros Hi Hb h'. subst h'.
  rewrite (heap_embedLSB_refines h imageData messageBits img msg bitDepth Hi Hb).
  set (lr := fresh (dom h)).
  assert (Hfresh : h !! lr = None) by apply fresh_not_in.
  assert (Hkeep : forall (x : list Z) l a,
             h !! l = Some a -> <[lr := x]> h !! l = Some a).
  { intros x l a Hl. rewrite lookup_insert_ne; [exact Hl|]. congruence. }
  assert (Hfit : 1 <= bitDepth <= 4 ->
                 Z.of_nat (length msg) <= Image.maxBits img bitDepth ->
                 exists out, Image.embedLSB img msg bitDepth = Ok out).
  { intros Hd Hm. unfold Image.embedLSB, Image.invalidBitDepth.
    replace (bitDepth <? 1) with false by (symmetry; apply Z.ltb_ge; lia).
    replace (4 <? bitDepth) with false by (symmetry; apply Z.ltb_ge; lia).
    cbn [orb]. cbv zeta.
    replace (Image.maxBits img bitDepth <? Z.of_nat (length msg)) with false
      by (symmetry; apply Z.ltb_ge; lia).
    eauto. }
  destruct (Image.embedLSB img msg bitDepth) as [out|e] eqn:E.
  - simpl. split; [apply Hkeep|]. split; [apply Hkeep; exact Hi|].
    split; [|intros _ _; exists lr; reflexivity].
    intros result H. injection H as <-. split; [exact Hfresh|].
    exists out. rewrite lookup_insert_eq. split; [reflexivity|].
    apply embedLSB_Ok_inv in E. destruct E as (_ & _ & ->).
    apply embedLoop_frame.
  - assert (Hno : 1 <= bitDepth <= 4 ->
                  Z.of_nat (length msg) <= Image.maxBits img bitDepth -> False).
    { intros Hd Hm. destruct (Hfit Hd Hm) as [out Hout]. discriminate. }
    destruct e; simpl;
      (split; [first [apply Hkeep | tauto]
              | split; [first [apply Hkeep; exact Hi | exact Hi]
                       | split; [intros result H; discriminate
                                | intros Hd Hm; exfalso; exact (Hno Hd Hm)]]]).
Qed.

Lemma embedLSB_input_intact_witness :
  fst (Heap.embedLSB {[ 0%nat := [255; 255; 255; 255]; 1%nat := [0; 1] ]} 0 1 1)
    !! 0%nat = Some [255; 255; 255; 255].
Proof.
  exact (proj1 (proj2
           (embedLSB_input_intact
              {[ 0%nat := [255; 255; 255; 255]; 1%nat := [0; 1] ]} 0 1
              [255; 255; 255; 255] [0; 1] 1 eq_refl eq_refl))).
Defined.

(** ** Pixel LSB engine: extraction is total *)

(** What the loops of [extractLSB] keep: the array has its initial length,
    the write position never passes the number of bits to deliver, and
    nothing is written at or after the write position. *)
Definition extractInv (bitCount : nat) (actualBitCount : Z)
    (st : Image.extractState) : Prop :=
  length (Image.bits st) = bitCount /\
  Z.of_nat (Image.bitIndex st) <= Z.max 0 actualBitCount /\
  forall k, (Image.bitIndex st <= k)%nat -> aget (Image.bits st) k = 0.

Lemma extractInner_inv (imageData : list Z) (bitDepth : Z) (bitOffset : nat)
    (bitCount : nat) (actualBitCount : Z) (i : nat) (st : Image.extractState) :
  extractInv bitCount actualBitCount st ->
  extractInv bitCount actualBitCount
    (Image.extractInner imageData bitDepth bitOffset actualBitCount i st).
Proof.
  intros H. unfold Image.extractInner.
  apply for_while_inv; [exact H|].
  intros j t _ _ (Hl & Hb & Hz).
  destruct (Image.bitsSkipped t <? bitOffset)%nat.
  { split; [exact Hl|]. split; [exact Hb | exact Hz]. }
  destruct (actualBitCount <=? Z.of_nat (Image.bitIndex t)) eqn:E.
  { split; [exact Hl|]. split; [exact Hb | exact Hz]. }
  apply Z.leb_gt in E. unfold extractInv. simpl.
  split; [rewrite length_aset; exact Hl|]. split; [lia|].
  intros k Hk. rewrite aget_aset_ne by lia. apply Hz. lia.
Qed.

(** For a depth in 1..4 the extractor returns the array of a final state that
    satisfies the invariant of its loops. *)
Lemma extractLSB_Ok (imageData : list Z) (bitCount : nat) (bitDepth : Z)
    (bitOffset : nat) :
  1 <= bitDepth <= 4 ->
  exists st,
    Image.extractLSB imageData bitCount bitDepth bitOffset = Ok (Image.bits st) /\
    extractInv bitCount
      (Z.min (Z.of_nat bitCount)
         (Image.maxBits imageData bitDepth - Z.of_nat bitOffset)) st.
Proof.
  intros Hd. unfold Image.extractLSB, Image.invalidBitDepth.
  replace (bitDepth <? 1) with false by (symmetry; apply Z.ltb_ge; lia).
  replace (4 <? bitDepth) with false by (symmetry; apply Z.ltb_ge; lia).
  cbn [orb]. cbv zeta. eexists. split; [reflexivity|].
  set (A := Z.min (Z.of_nat bitCount)
              (Image.maxBits imageData bitDepth - Z.of_nat bitOffset)).
  apply for_while_inv.
  - split; [apply length_new|]. split; [simpl; lia|].
    intros k _. apply aget_new.
  - intros i st _ _ H. destruct (i mod 4 =? 3)%nat; [exact H|].
    apply (extractInner_inv imageData bitDepth bitOffset bitCount A i) in H.
    destruct H as (Hl & Hb & Hz). split; [exact Hl|]. split; [exact Hb | exact Hz].
Qed.

(** On a host that grants the allocation, for every depth in 1..4 and every
    [bitCount] and [bitOffset], the run returns an array of exactly
    [bitCount] entries, and every entry at or beyond [maxBits - bitOffset] is
    zero. *)
Lemma extractLSB_granted (imageData : list Z) (bitCount : nat) (bitDepth : Z)
    (bitOffset : nat) :
  1 <= bitDepth <= 4 ->
  exists bits,
    Image.extractLSB imageData bitCount bitDepth bitOffset = Ok bits /\
    length bits = bitCount /\
    forall k, Image.maxBits imageData bitDepth - Z.of_nat bitOffset <= Z.of_nat k ->
              aget bits k = 0.
Proof.
  intros Hd.
  destruct (extractLSB_Ok imageData bitCount bitDepth bitOffset Hd)
    as (st & Hok & Hl & Hb & Hz).
  exists (Image.bits st). split; [exact Hok|]. split; [exact Hl|].
  intros k Hk. apply Hz.
  assert (Hmin : Z.min (Z.of_nat bitCount)
                   (Image.maxBits imageData bitDepth - Z.of_nat bitOffset)
                 <= Z.of_nat k) by lia.
  lia.
Qed.

(** Once the array is granted the function is the run of [Image.extractLSB]. *)
Lemma alloc_granted (limit : Z) (imageData : list Z) (bitCount : nat)
    (bitDepth : Z) (bitOffset : nat) :
  Z.of_nat bitCount <= Z.min limit Alloc.MAX_SAFE_INTEGER ->
  Alloc.extractLSB limit imageData bitCount bitDepth bitOffset
  = Image.extractLSB imageData bitCount bitDepth bitOffset.
Proof.
  intros H. unfold Alloc.extractLSB, Image.extractLSB, Alloc.new_Uint8Array.
  replace (Z.min limit Alloc.MAX_SAFE_INTEGER <? Z.of_nat bitCount) with false
    by (symmetry; apply Z.ltb_ge; exact H).
  reflexivity.
Qed.

(** A count above the limit is refused, whatever the image holds. *)
Lemma alloc_refused (limit : Z) (imageData : list Z) (bitCount : nat)
    (bitDepth : Z) (bitOffset : nat) :
  1 <= bitDepth <= 4 ->
  Z.min limit Alloc.MAX_SAFE_INTEGER < Z.of_nat bitCount ->
  Alloc.extractLSB limit imageData bitCount bitDepth bitOffset = Throw RangeError.
Proof.
  intros Hd H. unfold Alloc.extractLSB, Image.invalidBitDepth, Alloc.new_Uint8Array.
  replace (bitDepth <? 1) with false by (symmetry; apply Z.ltb_ge; lia).
  replace (4 <? bitDepth) with false by (symmetry; apply Z.ltb_ge; lia).
  replace (Z.min limit Alloc.MAX_SAFE_INTEGER <? Z.of_nat bitCount) with true
    by (symmetry; apply Z.ltb_lt; exact H).
  reflexivity.
Qed.

(** C9 (as amended).  For every depth in 1..4, every [bitOffset] and every
    [bitCount] the host can allocate an array for (at most its limit, and at
    most [2 ^ 53 - 1] on any host), [extractLSB] returns, without throwing,
    an array of exactly [bitCount] entries, also when [bitCount + bitOffset]
    exceeds the capacity of the image, and every entry at or beyond
    [maxBits - bitOffset] is zero.  For a larger [bitCount] the allocation,
    which comes before the clamp, throws a RangeError. *)
Theorem extractLSB_allocated (limit : Z) (imageData : list Z) (bitCount : nat)
    (bitDepth : Z) (bitOffset : nat) :
  1 <= bitDepth <= 4 ->
  (Z.of_nat bitCount <= Z.min limit Alloc.MAX_SAFE_INTEGER ->
   exists bits,
     Alloc.extractLSB limit imageData bitCount bitDepth bitOffset = Ok bits /\
     length bits = bitCount /\
     forall k, Image.maxBits imageData bitDepth - Z.of_nat bitOffset <= Z.of_nat k ->
               aget bits k = 0) /\
  (Z.min limit Alloc.MAX_SAFE_INTEGER < Z.of_nat bitCount ->
   Alloc.extractLSB limit imageData bitCount bitDepth bitOffset = Throw RangeError).
Proof.
  intros Hd. split.
  - intros H. rewrite (alloc_granted limit imageData bitCount bitDepth bitOffset H).
    apply extractLSB_granted. exact Hd.
  - apply alloc_refused. exact Hd.
Qed.

Lemma extractLSB_allocated_witness :
  1 <= 1 <= 4 /\
  Z.of_nat 9 <= Z.min (2 ^ 32 - 1) Alloc.MAX_SAFE_INTEGER /\
  exists bits,
    Alloc.extractLSB (2 ^ 32 - 1) [255; 254; 255; 0; 254; 255; 254; 0] 9 1 2
    = Ok bits /\
    length bits = 9%nat /\
    forall k, Image.maxBits [255; 254; 255; 0; 254; 255; 254; 0] 1 - Z.of_nat 2
              <= Z.of_nat k -> aget bits k = 0.
Proof.
  split; [lia|]. split; [vm_compute; discriminate|].
  apply (proj1 (extractLSB_allocated (2 ^ 32 - 1)
                  [255; 254; 255; 0; 254; 255; 254; 0] 9 1 2 ltac:(lia))).
  vm_compute. discriminate.
Defined.

(** The claim as stated, for every non-negative [bitCount], fails: at
    [bitCount = 2 ^ 53] the call throws on the host with the largest limit
    there can be, and at [2 ^ 35] on a host whose arrays hold up to
    [2 ^ 32 - 1] entries, although the image has room for 3 bits only. *)
Lemma extractLSB_allocation_refused :
  1 <= 1 <= 4 /\
  Alloc.extractLSB Alloc.MAX_SAFE_INTEGER [255; 255; 255; 255]
    (Z.to_nat (2 ^ 53)) 1 0 = Throw RangeError /\
  Alloc.extractLSB (2 ^ 32 - 1) [255; 255; 255; 255]
    (Z.to_nat (2 ^ 35)) 1 0 = Throw RangeError.
Proof.
  split; [lia|]. split.
  - apply alloc_refused; [lia|]. unfold Alloc.MAX_SAFE_INTEGER. lia.
  - apply alloc_refused; [lia|]. unfold Alloc.MAX_SAFE_INTEGER. lia.
Qed.

(** ** Text capacity *)

(** C6 (as amended).  For every cover text [c], [calculateTextCapacity c] is
    [max 0 (max (floor (0.1 |c|)) |c| - 26)] divided by 4, that is
    [max 0 (|c| - 26) / 4]: zero for a cover shorter than 26 units and
    [floor ((|c| - 26) / 4)] from 26 units on. *)
Theorem calculateTextCapacity_value (c : list Z) :
  let n := Z.of_nat (length c) in
  Text.calculateTextCapacity c = Z.max 0 (Z.max (n / 10) n - 26) / 4 /\
  Text.calculateTextCapacity c = Z.max 0 (n - 26) / 4 /\
  Text.calculateTextCapacity c = (if n <? 26 then 0 else (n - 26) / 4).
Proof.
  intros n. unfold Text.calculateTextCapacity. fold n.
  assert (Hn : 0 <= n) by (unfold n; lia).
  assert (Hmax : Z.max (n / 10) n = n) by lia.
  split; [reflexivity|]. rewrite Hmax. split; [reflexivity|].
  destruct (n <? 26) eqn:E.
  - apply Z.ltb_lt in E. replace (Z.max 0 (n - 26)) with 0 by lia. reflexivity.
  - apply Z.ltb_ge in E. replace (Z.max 0 (n - 26)) with (n - 26) by lia.
    reflexivity.
Qed.

(** The formula of C6 without the clamp at zero gives a negative number on a
    one-character cover, whichever way the quotient is rounded; the code
    returns 0. *)
Lemma calculateTextCapacity_short_cover :
  Text.calculateTextCapacity [97] = 0 /\
  (Z.max (Z.of_nat (length [97]) / 10) (Z.of_nat (length [97])) - 26) / 4 = -7 /\
  Z.quot (Z.max (Z.of_nat (length [97]) / 10) (Z.of_nat (length [97])) - 26) 4 = -6.
Proof. repeat split. Qed.

(** ** Zero-width text engine: strings *)

Lemma foldl_snoc_flat_map {A B : Type} (f : A -> list B) (l : list A) (acc : list B) :
  foldl (fun acc x => acc ++ f x) acc l = acc ++ flat_map f l.
Proof.
  revert acc. induction l as [|x l IH]; intros acc; simpl.
  - rewrite app_nil_r. reflexivity.
  - rewrite IH, <- app_assoc. reflexivity.
Qed.

Lemma flat_map_filter {A : Type} (p : A -> bool) (l : list A) :
  flat_map (fun x => if p x then [x] else []) l = List.filter p l.
Proof.
  induction l as [|x l IH]; simpl; [reflexivity|].
  rewrite IH. destruct (p x); reflexivity.
Qed.

Lemma foldl_ext {A B : Type} (f g : B -> A -> B) (l : list A) (acc : B) :
  (forall b a, f b a = g b a) -> foldl f acc l = foldl g acc l.
Proof.
  intros H. revert acc. induction l as [|x l IH]; intros acc; simpl; [reflexivity|].
  rewrite H. apply IH.
Qed.

Lemma extractZWCChars_filter (str : list Z) :
  Text.extractZWCChars str = List.filter Text.isZWC str.
Proof.
  unfold Text.extractZWCChars.
  rewrite <- flat_map_filter, <- (app_nil_l (flat_map _ str)).
  rewrite <- foldl_snoc_flat_map. apply foldl_ext.
  intros b a. destruct (Text.isZWC a); [reflexivity | rewrite app_nil_r; reflexivity].
Qed.

(** [pat] occurs in [s]. *)
Definition occurs (pat s : list Z) : Prop :=
  exists pre post, s = pre ++ pat ++ post.

Lemma startsWith_spec (s pat : list Z) :
  Text.startsWith s pat = true <-> exists post, s = pat ++ post.
Proof.
  revert s. induction pat as [|p pat IH]; intros s; simpl.
  - split; [intros _; exists s; reflexivity | destruct s; reflexivity].
  - destruct s as [|c s]; simpl.
    + split; [discriminate | intros [post H]; discriminate].
    + rewrite andb_true_iff, Z.eqb_eq, IH. split.
      * intros [-> [post ->]]. exists post. reflexivity.
      * intros [post H]. injection H as -> ->. split; [reflexivity|].
        exists post. reflexivity.
Qed.

Lemma indexOf_eq (s pat : list Z) :
  Text.indexOf s pat =
  if Text.startsWith s pat then Some 0%nat
  else match s with
       | [] => None
       | _ :: s' => option_map Datatypes.S (Text.indexOf s' pat)
       end.
Proof. destruct s; reflexivity. Qed.

Lemma indexOf_None (s pat : list Z) :
  Text.indexOf s pat = None <-> ~ occurs pat s.
Proof.
  induction s as [|c s IH]; rewrite indexOf_eq.
  - destruct (Text.startsWith [] pat) eqn:E.
    + split; [discriminate|]. intros H. exfalso. apply H.
      apply startsWith_spec in E. destruct E as [post E].
      exists [], post. exact E.
    + split; [|reflexivity]. intros _ (pre & post & H).
      assert (Text.startsWith [] pat = true); [|congruence].
      apply startsWith_spec.
      destruct pre; [exists post; exact H | discriminate].
  - destruct (Text.startsWith (c :: s) pat) eqn:E.
    + split; [discriminate|]. intros H. exfalso. apply H.
      apply startsWith_spec in E. destruct E as [post E].
      exists [], post. exact E.
    + destruct (Text.indexOf s pat) as [i|] eqn:Ei; simpl.
      * split; [discriminate|]. intros H. exfalso.
        assert (Hs : ~ occurs pat s) by
          (intros (pre & post & Hs); apply H; exists (c :: pre), post;
           rewrite Hs; reflexivity).
        apply IH in Hs. discriminate.
      * split; [|reflexivity]. intros _ (pre & post & H).
        destruct pre as [|x pre].
        -- assert (Text.startsWith (c :: s) pat = true); [|congruence].
           apply startsWith_spec. exists post. exact H.
        -- injection H as -> ->.
           assert (Hs : ~ occurs pat (pre ++ pat ++ post)) by (apply IH; reflexivity).
           apply Hs. exists pre, post. reflexivity.
Qed.

Lemma indexOf_Some (s pat : list Z) (i : nat) :
  Text.indexOf s pat = Some i ->
  s = take i s ++ pat ++ drop (i + length pat) s.
Proof.
  revert i. induction s as [|c s IH]; intros i; rewrite indexOf_eq.
  - destruct (Text.startsWith [] pat) eqn:E; [|discriminate].
    intros H. injection H as <-. apply startsWith_spec in E.
    destruct E as [post E]. destruct pat; [reflexivity | discriminate].
  - destruct (Text.startsWith (c :: s) pat) eqn:E.
    + intros H. injection H as <-. apply startsWith_spec in E.
      destruct E as [post E]. rewrite E at 1. simpl. rewrite E.
      rewrite drop_app_length. reflexivity.
    + destruct (Text.indexOf s pat) as [j|] eqn:Ej; simpl; [|discriminate].
      intros H. injection H as <-. simpl. f_equal. apply IH. reflexivity.
Qed.

(** The first occurrence is found where it is, when nothing before it can
    start the pattern. *)
Lemma indexOf_app (pre pat post : list Z) (p0 : Z) (pat' : list Z) :
  pat = p0 :: pat' ->
  Forall (fun c => c <> p0) pre ->
  Text.indexOf (pre ++ pat ++ post) pat = Some (length pre).
Proof.
  intros -> Hpre. induction pre as [|c pre IH]; rewrite indexOf_eq.
  - assert (E : Text.startsWith ([] ++ (p0 :: pat') ++ post) (p0 :: pat') = true)
      by (apply startsWith_spec; exists post; reflexivity).
    rewrite E. reflexivity.
  - inversion Hpre as [|? ? Hc Hrest]; subst.
    assert (E : Text.startsWith ((c :: pre) ++ (p0 :: pat') ++ post) (p0 :: pat') = false).
    { simpl. replace (p0 =? c) with false by (symmetry; apply Z.eqb_neq; congruence).
      reflexivity. }
    rewrite E.
    change (option_map Datatypes.S
              (Text.indexOf (pre ++ (p0 :: pat') ++ post) (p0 :: pat'))
            = Some (length (c :: pre))).
    rewrite IH by exact Hrest. reflexivity.
Qed.

Lemma removeZWC_app (a b : list Z) :
  Text.removeZWC (a ++ b) = Text.removeZWC a ++ Text.removeZWC b.
Proof. apply List.filter_app. Qed.

Lemma removeZWC_all (z : list Z) :
  Forall (fun c => Text.isZWC c = true) z -> Text.removeZWC z = [].
Proof.
  induction 1 as [|c z Hc _ IH]; [reflexivity|].
  unfold Text.removeZWC in *. simpl. rewrite Hc. simpl. exact IH.
Qed.

Lemma removeZWC_none (c : list Z) :
  Forall (fun x => Text.isZWC x = false) c -> Text.removeZWC c = c.
Proof.
  induction 1 as [|x c Hx _ IH]; [reflexivity|].
  unfold Text.removeZWC in *. simpl. rewrite Hx. simpl. f_equal. exact IH.
Qed.

(** Removing an occurrence of a run of zero-width characters does not change
    what is left once all of them are removed. *)
Lemma removeZWC_removeFirst (s pat : list Z) :
  Forall (fun c => Text.isZWC c = true) pat ->
  Text.removeZWC (Text.removeFirst s pat) = Text.removeZWC s.
Proof.
  intros Hpat. unfold Text.removeFirst.
  destruct (Text.indexOf s pat) as [i|] eqn:E; [|reflexivity].
  apply indexOf_Some in E. rewrite E at 3.
  rewrite !removeZWC_app, (removeZWC_all pat Hpat). reflexivity.
Qed.

Lemma sentinels_zwc :
  Forall (fun c => Text.isZWC c = true) Text.START_SENTINEL /\
  Forall (fun c => Text.isZWC c = true) Text.END_SENTINEL.
Proof. split; repeat constructor. Qed.

Lemma visibleOf_spec (stegaText : list Z) :
  Text.visibleOf stegaText = Text.trim (Text.removeZWC stegaText).
Proof.
  unfold Text.visibleOf.
  rewrite !removeZWC_removeFirst by apply sentinels_zwc. reflexivity.
Qed.

(** ** Decoding a text without a START sentinel *)

Ltac invert_ok :=
  repeat match goal with
  | H : Text.tryDecoding ?x = Ok _ |- _ =>
      destruct x eqn:?; simpl in H; [|discriminate]
  | H : bind ?x _ = Ok _ |- _ =>
      destruct x eqn:?; simpl in H; [|discriminate]
  | H : (if ?b then _ else _) = Ok _ |- _ =>
      destruct b eqn:?; try discriminate
  | H : Ok _ = Ok _ |- _ => injection H as H
  end.

Lemma decodeText_visible (P : Text.Primitives) (stegaText : list Z)
    (password : option (list Z)) (r : Text.TextResult) :
  Text.decodeText P stegaText password = Ok r ->
  Text.visibleText r =
  match Text.indexOf stegaText Text.START_SENTINEL with
  | None => Text.removeZWC stegaText
  | Some _ => Text.visibleOf stegaText
  end.
Proof.
  unfold Text.decodeText. intros H.
  destruct (Text.indexOf stegaText Text.START_SENTINEL) as [i|].
  - cbv zeta in H. invert_ok; subst; reflexivity.
  - injection H as <-. reflexivity.
Qed.

Lemma decodeBinary_visible (P : Text.Primitives) (stegaText : list Z)
    (password : option (list Z)) (r : Text.BinaryResult) :
  Text.decodeBinary P stegaText password = Ok r ->
  Text.bVisibleText r =
  match Text.indexOf stegaText Text.START_SENTINEL with
  | None => Text.removeZWC stegaText
  | Some _ => Text.visibleOf stegaText
  end.
Proof.
  unfold Text.decodeBinary. intros H.
  destruct (Text.indexOf stegaText Text.START_SENTINEL) as [i|].
  - cbv zeta in H. invert_ok; subst; reflexivity.
  - injection H as <-. reflexivity.
Qed.

Lemma decode_visible (P : Text.Primitives) (stegaText : list Z)
    (password : option (list Z)) (r : Text.AutoResult) :
  Text.decode P stegaText password = Ok r ->
  Text.aVisibleText r =
  match Text.indexOf stegaText Text.START_SENTINEL with
  | None => Text.removeZWC stegaText
  | Some _ => Text.visibleOf stegaText
  end.
Proof.
  unfold Text.decode. intros H.
  destruct (Text.indexOf stegaText Text.START_SENTINEL) as [i|].
  - cbv zeta in H. invert_ok; subst; reflexivity.
  - injection H as <-. reflexivity.
Qed.

(** C10.  When the input contains no START sentinel, [decodeText],
    [decodeBinary] and [decode] return a null payload and a visible text that
    is the input with every zero-width character removed, not trimmed.  When
    it does contain one, every result they return carries the trimmed text:
    the trim belongs to that path only. *)
Theorem decode_without_start (P : Text.Primitives) (stegaText : list Z)
    (password : option (list Z)) :
  (~ occurs Text.START_SENTINEL stegaText ->
   Text.decodeText P stegaText password
   = Ok {| Text.visibleText := Text.removeZWC stegaText;
           Text.secretMessage := None |} /\
   Text.decodeBinary P stegaText password
   = Ok {| Text.bVisibleText := Text.removeZWC stegaText;
           Text.bBinaryData := None |} /\
   Text.decode P stegaText password
   = Ok {| Text.aVisibleText := Text.removeZWC stegaText;
           Text.aPayloadType := None;
           Text.aTextData := None; Text.aBinaryData := None |}) /\
  (occurs Text.START_SENTINEL stegaText ->
   (forall r, Text.decodeText P stegaText password = Ok r ->
              Text.visibleText r = Text.trim (Text.removeZWC stegaText)) /\
   (forall r, Text.decodeBinary P stegaText password = Ok r ->
              Text.bVisibleText r = Text.trim (Text.removeZWC stegaText)) /\
   (forall r, Text.decode P stegaText password = Ok r ->
              Text.aVisibleText r = Text.trim (Text.removeZWC stegaText))).
Proof.
  split.
  - intros H. apply indexOf_None in H.
    unfold Text.decodeText, Text.decodeBinary, Text.decode. rewrite H.
    repeat split.
  - intros H.
    destruct (Text.indexOf stegaText Text.START_SENTINEL) as [i|] eqn:E;
      [|apply indexOf_None in E; contradiction].
    repeat split; intros r Hr.
    + apply decodeText_visible in Hr. rewrite E, visibleOf_spec in Hr. exact Hr.
    + apply decodeBinary_visible in Hr. rewrite E, visibleOf_spec in Hr. exact Hr.
    + apply decode_visible in Hr. rewrite E, visibleOf_spec in Hr. exact Hr.
Qed.

(** ** Zero-width text engine: the base-6 codec *)

Lemma flat_map_cons {A B : Type} (f : A -> list B) (x : A) (l : list A) :
  flat_map f (x :: l) = f x ++ flat_map f l.
Proof. reflexivity. Qed.

(** The four zero-width characters that stand for one byte. *)
Definition zwcOfByte (byte : Z) : list Z :=
  map (fun d => aget Text.ZWC_MAP (Z.to_nat d)) (Text.byteDigits byte).

(** The digit a character contributes to the decoder, if any. *)
Definition digitOf (char : Z) : list Z :=
  match Text.reverseMap char with
  | Some d => [d]
  | None => []
  end.

Lemma bytesToZWC_flat_map (bytes : list Z) :
  Text.bytesToZWC bytes = flat_map zwcOfByte bytes.
Proof. unfold Text.bytesToZWC. apply (foldl_snoc_flat_map zwcOfByte bytes []). Qed.

Lemma zwcDigits_flat_map (s : list Z) :
  Text.zwcDigits s = flat_map digitOf s.
Proof.
  unfold Text.zwcDigits.
  rewrite <- (app_nil_l (flat_map digitOf s)), <- foldl_snoc_flat_map.
  apply foldl_ext. intros b a. unfold digitOf.
  destruct (Text.reverseMap a); [reflexivity | rewrite app_nil_r; reflexivity].
Qed.

Definition list_eqb (a b : list Z) : bool :=
  if decide (a = b) then true else false.

Lemma list_eqb_eq (a b : list Z) : list_eqb a b = true -> a = b.
Proof. unfold list_eqb. destruct (decide (a = b)); [tauto | discriminate]. Qed.

Lemma length_zwcOfByte (v : Z) : length (zwcOfByte v) = 4%nat.
Proof. reflexivity. Qed.

Lemma length_byteDigits (v : Z) : length (Text.byteDigits v) = 4%nat.
Proof. reflexivity. Qed.

Lemma zwcOfByte_zwc (v : Z) :
  is_byte v -> Forall (fun c => Text.isZWC c = true) (zwcOfByte v).
Proof.
  intros Hv. apply List.Forall_forall. apply List.forallb_forall.
  apply (byte_cases (fun v => forallb Text.isZWC (zwcOfByte v))); [|exact Hv].
  vm_compute. reflexivity.
Qed.

Lemma digits_zwcOfByte (v : Z) :
  is_byte v -> flat_map digitOf (zwcOfByte v) = Text.byteDigits v.
Proof.
  intros Hv. apply list_eqb_eq.
  apply (byte_cases (fun v => list_eqb (flat_map digitOf (zwcOfByte v))
                                (Text.byteDigits v))); [|exact Hv].
  vm_compute. reflexivity.
Qed.

Lemma value_byteDigits (v : Z) :
  is_byte v ->
  aget (Text.byteDigits v) 0 * 216 + aget (Text.byteDigits v) 1 * 36
  + aget (Text.byteDigits v) 2 * 6 + aget (Text.byteDigits v) 3 = v.
Proof.
  intros Hv. apply Z.eqb_eq.
  apply (byte_cases (fun v =>
           aget (Text.byteDigits v) 0 * 216 + aget (Text.byteDigits v) 1 * 36
           + aget (Text.byteDigits v) 2 * 6 + aget (Text.byteDigits v) 3 =? v));
    [|exact Hv].
  vm_compute. reflexivity.
Qed.

Section Groups.
Variable f : Z -> list Z.
Hypothesis f_length : forall v, length (f v) = 4%nat.

Lemma length_flat_map4 (l : list Z) : length (flat_map f l) = (4 * length l)%nat.
Proof.
  induction l as [|x l IH]; [reflexivity|].
  rewrite !flat_map_cons. rewrite length_app, f_length, IH. simpl length. lia.
Qed.

Lemma aget_flat_map4 (l : list Z) (k j : nat) :
  (k < length l)%nat -> (j < 4)%nat ->
  aget (flat_map f l) (4 * k + j) = aget (f (aget l k)) j.
Proof.
  revert k. induction l as [|x l IH]; intros k Hk Hj; [simpl in Hk; lia|].
  rewrite !flat_map_cons. unfold aget at 1. destruct k as [|k].
  - rewrite lookup_app_l by (rewrite f_length; lia). reflexivity.
  - rewrite lookup_app_r by (rewrite f_length; lia). rewrite f_length.
    replace (4 * Datatypes.S k + j - 4)%nat with (4 * k + j)%nat by lia.
    simpl in Hk. apply (IH k); lia.
Qed.

Lemma take_flat_map4 (l rest : list Z) (k : nat) :
  (k <= length l)%nat ->
  take (4 * k) (flat_map f l ++ rest) = flat_map f (take k l).
Proof.
  revert k. induction l as [|x l IH]; intros k Hk.
  - simpl in Hk. replace k with 0%nat by lia. reflexivity.
  - destruct k as [|k]; [reflexivity|].
    rewrite !flat_map_cons. rewrite <- app_assoc.
    replace (4 * Datatypes.S k)%nat with (length (f x) + 4 * k)%nat
      by (rewrite f_length; lia).
    rewrite take_app_add. simpl take. rewrite !flat_map_cons. f_equal.
    apply IH. simpl in Hk. lia.
Qed.

Lemma drop_flat_map4 (l rest : list Z) (k : nat) :
  (k <= length l)%nat ->
  drop (4 * k) (flat_map f l ++ rest) = flat_map f (drop k l) ++ rest.
Proof.
  revert k. induction l as [|x l IH]; intros k Hk.
  - simpl in Hk. replace k with 0%nat by lia. reflexivity.
  - destruct k as [|k]; [reflexivity|].
    rewrite !flat_map_cons. rewrite <- app_assoc.
    replace (4 * Datatypes.S k)%nat with (length (f x) + 4 * k)%nat
      by (rewrite f_length; lia).
    rewrite drop_app_add. simpl drop. apply IH. simpl in Hk. lia.
Qed.

End Groups.

Lemma bytesToZWC_zwc (bytes : list Z) :
  Forall is_byte bytes ->
  Forall (fun c => Text.isZWC c = true) (flat_map zwcOfByte bytes).
Proof.
  induction 1 as [|v l Hv _ IH]; [constructor|].
  rewrite !flat_map_cons. apply Forall_app. split; [apply zwcOfByte_zwc; exact Hv | exact IH].
Qed.

Lemma digits_bytesToZWC (bytes : list Z) :
  Forall is_byte bytes ->
  flat_map digitOf (flat_map zwcOfByte bytes) = flat_map Text.byteDigits bytes.
Proof.
  induction 1 as [|v l Hv _ IH]; [reflexivity|].
  rewrite !flat_map_cons. rewrite flat_map_app, IH, digits_zwcOfByte by exact Hv.
  reflexivity.
Qed.

(** The decoder gives back the bytes the encoder was given. *)
Lemma zwcToBytes_bytesToZWC (bytes : list Z) :
  Forall is_byte bytes ->
  Text.zwcToBytes (flat_map zwcOfByte bytes) = Ok bytes.
Proof.
  intros Hb. unfold Text.zwcToBytes.
  rewrite zwcDigits_flat_map, digits_bytesToZWC by exact Hb.
  rewrite (length_flat_map4 Text.byteDigits length_byteDigits).
  replace (4 * length bytes mod 4 =? 0)%nat with true
    by (symmetry; apply Nat.eqb_eq; lia).
  replace (4 * length bytes / 4)%nat with (length bytes) by lia.
  cbn [negb]. f_equal.
  match goal with
  | |- map u8 (for_loop ?n 0 ?body ?s) = _ =>
      assert (H : for_loop n 0 body s = take (0 + n) bytes)
  end.
  { apply (for_loop_inv (fun k acc => acc = take k bytes)); [reflexivity|].
    intros k acc Hk ->. cbv zeta.
    replace (4 * k)%nat with (4 * k + 0)%nat at 1 by lia.
    rewrite !(aget_flat_map4 Text.byteDigits length_byteDigits) by lia.
    rewrite value_byteDigits by (apply aget_Forall; [exact Hb | lia]).
    symmetry. apply take_S_r. apply lookup_aget. lia. }
  rewrite H. simpl "+"%nat. rewrite firstn_all.
  clear H. induction Hb as [|v l Hv _ IH]; [reflexivity|].
  simpl. rewrite u8_byte by exact Hv. f_equal. exact IH.
Qed.


(** ** Zero-width text engine: encoding then decoding *)

(** A cover text without any zero-width character. *)
Definition noZWC (c : list Z) : Prop := Forall (fun x => Text.isZWC x = false) c.

(** What the engine relies on from its host: buffers hold bytes, deflate is
    lossless and never yields an empty stream, and AES-CTR keeps the length
    and is undone with the same key and counter. *)
Record HostLaws (P : Text.Primitives) : Prop := {
  utf8_encode_bytes : forall s, Forall is_byte (Text.utf8_encode P s);
  compress_bytes :
    forall d, Forall is_byte d -> Forall is_byte (Text.compress P d);
  compress_nonempty : forall d, Text.compress P d <> [];
  decompress_compress :
    forall d, Forall is_byte d -> Text.decompress P (Text.compress P d) = Some d;
  encrypt_bytes :
    forall k c d, Forall is_byte d -> Forall is_byte (Text.aes_ctr_encrypt P k c d);
  encrypt_length :
    forall k c d, length (Text.aes_ctr_encrypt P k c d) = length d;
  decrypt_encrypt :
    forall k c d, Forall is_byte d ->
      Text.aes_ctr_decrypt P k c (Text.aes_ctr_encrypt P k c d) = d
}.

(** The two draws of the random source are sixteen bytes each. *)
Definition drawn (rnd : Text.Entropy) : Prop :=
  length (Text.salt rnd) = 16%nat /\ length (Text.counter rnd) = 16%nat /\
  Forall is_byte (Text.salt rnd) /\ Forall is_byte (Text.counter rnd).

(** [stega] carries the framed bytes [header] over the visible text [c]: a
    START sentinel is found, the zero-width characters after it are those of
    [header] and of the END sentinel, and [c] is what is left without them. *)
Definition carries (stega c header : list Z) : Prop :=
  exists i,
    Text.indexOf stega Text.START_SENTINEL = Some i /\
    List.filter Text.isZWC (drop (i + 3) stega)
    = flat_map zwcOfByte header ++ Text.END_SENTINEL /\
    Text.removeZWC stega = c.

Lemma filter_all (z : list Z) :
  Forall (fun c => Text.isZWC c = true) z -> List.filter Text.isZWC z = z.
Proof.
  induction 1 as [|c z Hc _ IH]; [reflexivity|].
  simpl. rewrite Hc. f_equal. exact IH.
Qed.

Lemma appended_carries (c header : list Z) :
  noZWC c -> Forall is_byte header ->
  carries (c ++ Text.START_SENTINEL ++ Text.bytesToZWC header ++ Text.END_SENTINEL)
    c header.
Proof.
  intros Hc Hh. rewrite bytesToZWC_flat_map.
  pose proof (bytesToZWC_zwc header Hh) as Hz.
  destruct sentinels_zwc as [Hs He].
  exists (length c). split; [|split].
  - apply (indexOf_app c Text.START_SENTINEL _ 0x200b [0x200c; 0x200b]);
      [reflexivity|].
    eapply Forall_impl; [exact Hc|]. intros x Hx ->. discriminate.
  - rewrite drop_app_add. change 3%nat with (length Text.START_SENTINEL).
    rewrite drop_app_length. apply filter_all.
    apply Forall_app. split; assumption.
  - rewrite removeZWC_app, (removeZWC_none c Hc).
    rewrite removeZWC_all; [apply app_nil_r|].
    repeat (apply Forall_app; split); assumption.
Qed.

Lemma setUint32_bytes (v : Z) : Forall is_byte (setUint32 v).
Proof. unfold setUint32, is_byte. repeat constructor; lia. Qed.

Lemma getUint32_setUint32 (t v : Z) :
  0 <= v < 4294967296 -> getUint32 (t :: setUint32 v) 1 = Ok v.
Proof.
  intros Hv. unfold getUint32, setUint32. simpl length. cbn [Nat.leb Nat.add].
  f_equal. unfold aget. simpl. rewrite (Z.mod_small v) by lia. lia.
Qed.

Lemma map_u8_bytes (l : list Z) : Forall is_byte l -> map u8 l = l.
Proof.
  induction 1 as [|x l Hx _ IH]; [reflexivity|].
  simpl. rewrite u8_byte by exact Hx. f_equal. exact IH.
Qed.

Lemma frame_bytes (t : Z) (data_ : list Z) :
  is_byte t -> Forall is_byte data_ ->
  Text.frame t data_ = t :: setUint32 (Z.of_nat (length data_)) ++ data_.
Proof.
  intros Ht Hd. unfold Text.frame.
  assert (Hall : Forall is_byte ([t] ++ setUint32 (Z.of_nat (length data_)) ++ data_)).
  { apply Forall_app. split; [constructor; [exact Ht | constructor]|].
    apply Forall_app. split; [apply setUint32_bytes | exact Hd]. }
  exact (map_u8_bytes _ Hall).
Qed.

(** The decoder's reading of the zero-width characters of a framed payload. *)
Lemma read_frame (t : Z) (data_ : list Z) :
  is_byte t -> Forall is_byte data_ ->
  Z.of_nat (length data_) < 4294967296 ->
  let n := Z.of_nat (length data_) in
  let allZWC := flat_map zwcOfByte (Text.frame t data_) ++ Text.END_SENTINEL in
  length allZWC = (4 * (5 + length data_) + 3)%nat /\
  Text.zwcToBytes (Text.substring allZWC 0 20) = Ok (t :: setUint32 n) /\
  Text.zwcToBytes (Text.substring allZWC 20 (Z.to_nat (20 + n * 4))) = Ok data_.
Proof.
  intros Ht Hd Hn n allZWC. subst allZWC.
  rewrite (frame_bytes t data_ Ht Hd). fold n.
  set (hdr := t :: setUint32 n).
  change (t :: setUint32 n ++ data_) with (hdr ++ data_).
  assert (Hhdr : Forall is_byte hdr)
    by (constructor; [exact Ht | apply setUint32_bytes]).
  assert (Hlen : length (hdr ++ data_) = (5 + length data_)%nat)
    by (rewrite length_app; reflexivity).
  split; [|split].
  - rewrite length_app, (length_flat_map4 zwcOfByte length_zwcOfByte), Hlen.
    reflexivity.
  - unfold Text.substring. rewrite drop_0. change (20 - 0)%nat with (4 * 5)%nat.
    rewrite (take_flat_map4 zwcOfByte length_zwcOfByte) by lia.
    rewrite (take_app_length' hdr data_ 5) by reflexivity.
    apply zwcToBytes_bytesToZWC. exact Hhdr.
  - unfold Text.substring.
    replace (Z.to_nat (20 + n * 4) - 20)%nat with (4 * length data_)%nat by lia.
    change 20%nat with (4 * 5)%nat.
    rewrite (drop_flat_map4 zwcOfByte length_zwcOfByte) by lia.
    rewrite (drop_app_length' hdr data_ 5) by reflexivity.
    rewrite (take_flat_map4 zwcOfByte length_zwcOfByte) by lia.
    rewrite firstn_all. apply zwcToBytes_bytesToZWC. exact Hd.
Qed.

Lemma decrypt_encrypt_blob (P : Text.Primitives) (d pw : list Z) (rnd : Text.Entropy) :
  HostLaws P -> drawn rnd -> Forall is_byte d -> d <> [] ->
  Text.decrypt P (Text.encrypt P d pw rnd) pw = Ok d.
Proof.
  intros HP (Hs & Hc & _ & _) Hd Hne. unfold Text.decrypt, Text.encrypt.
  set (key := Text.deriveKey P pw (Text.salt rnd)).
  set (enc := Text.aes_ctr_encrypt P key (Text.counter rnd) d).
  assert (Hlen : length enc = length d) by apply (encrypt_length P HP).
  assert (Hpos : (0 < length d)%nat) by (destruct d; [congruence | simpl; lia]).
  replace (length (Text.salt rnd ++ Text.counter rnd ++ enc) <? 33)%nat with false
    by (symmetry; apply Nat.ltb_ge; rewrite !length_app; lia).
  rewrite (take_app_length' (Text.salt rnd) _ 16) by (symmetry; exact Hs).
  rewrite (drop_app_length' (Text.salt rnd) _ 16) by (symmetry; exact Hs).
  rewrite (take_app_length' (Text.counter rnd) _ 16) by (symmetry; exact Hc).
  change 32%nat with (16 + 16)%nat.
  rewrite (drop_app_add' (Text.salt rnd) _ 16 16) by (symmetry; exact Hs).
  rewrite (drop_app_length' (Text.counter rnd) _ 16) by (symmetry; exact Hc).
  fold key. subst enc. rewrite (decrypt_encrypt P HP) by exact Hd. reflexivity.
Qed.

(** ** Zero-width text engine: the distributed placement *)

Definition ascending (points : list nat) : Prop :=
  forall a b, (a <= b)%nat -> (b < length points)%nat ->
              (nth a points 0 <= nth b points 0)%nat.

Lemma insertionPoints_ascending (coverText : list Z) :
  ascending (Text.insertionPoints coverText).
Proof.
  unfold Text.insertionPoints.
  match goal with
  | |- ascending (for_loop ?n 0 ?f ?s) =>
      assert (H : (fun (i : nat) (points : list nat) =>
                     ascending points /\
                     forall a, (a < length points)%nat -> (nth a points 0 <= i)%nat)
                    (0 + n)%nat (for_loop n 0 f s))
  end.
  { apply for_loop_inv.
    - split; [intros a b _ Hb; simpl in Hb; lia | intros a Ha; simpl in Ha; lia].
    - intros i points _ [Hasc Hle].
      destruct (Text.isBreak (aget coverText i)).
      + split.
        * intros a b Hab Hb. rewrite length_app in Hb. simpl in Hb.
          destruct (Nat.eq_dec b (length points)) as [->|Hne].
          -- rewrite nth_middle.
             destruct (Nat.eq_dec a (length points)) as [->|Hna];
               [rewrite nth_middle; lia|].
             rewrite app_nth1 by lia. specialize (Hle a ltac:(lia)). lia.
          -- rewrite !app_nth1 by lia. apply Hasc; lia.
        * intros a Ha. rewrite length_app in Ha. simpl in Ha.
          destruct (Nat.eq_dec a (length points)) as [->|Hna];
            [rewrite nth_middle; lia|].
          rewrite app_nth1 by lia. specialize (Hle a ltac:(lia)). lia.
      + split; [exact Hasc|]. intros a Ha. specialize (Hle a Ha). lia. }
  exact (proj1 H).
Qed.

(** The inner loop of [distributeZWC] appends the next [chunkSize]
    characters of the payload. *)
Lemma distribute_chunk (zwcChars : list Z) (chunkSize : nat) :
  forall (result : list Z) (zwcIndex : nat),
    (zwcIndex + chunkSize <= length zwcChars)%nat ->
    for_while chunkSize 0
      (fun p => (snd p <? length zwcChars)%nat)
      (fun _ p => (fst p ++ [aget zwcChars (snd p)], Datatypes.S (snd p)))
      (result, zwcIndex)
    = (result ++ take chunkSize (drop zwcIndex zwcChars), (zwcIndex + chunkSize)%nat).
Proof.
  assert (G : forall n i (result : list Z) (zwcIndex : nat),
             (zwcIndex + n <= length zwcChars)%nat ->
             for_while n i
               (fun p => (snd p <? length zwcChars)%nat)
               (fun _ p => (fst p ++ [aget zwcChars (snd p)], Datatypes.S (snd p)))
               (result, zwcIndex)
             = (result ++ take n (drop zwcIndex zwcChars), (zwcIndex + n)%nat)).
  { induction n as [|n IH]; intros i result zwcIndex Hle.
    - simpl. rewrite app_nil_r. f_equal. lia.
    - rewrite for_while_S. cbn [fst snd].
      replace (zwcIndex <? length zwcChars)%nat with true
        by (symmetry; apply Nat.ltb_lt; lia).
      rewrite IH by lia.
      rewrite (drop_S zwcChars (aget zwcChars zwcIndex) zwcIndex)
        by (apply lookup_aget; lia).
      simpl take. rewrite <- app_assoc. simpl. f_equal. lia. }
  intros result zwcIndex. apply G.
Qed.

Lemma substring_noZWC (c : list Z) (a b : nat) :
  noZWC c -> noZWC (Text.substring c a b).
Proof.
  intros H. unfold Text.substring, noZWC.
  apply Forall_take, Forall_drop. exact H.
Qed.

Lemma filter_noZWC (c : list Z) : noZWC c -> List.filter Text.isZWC c = [].
Proof.
  induction 1 as [|x c Hx _ IH]; [reflexivity|].
  simpl. rewrite Hx. exact IH.
Qed.

(** In the distributed placement the zero-width characters of the result are
    the payload, in order, and the other characters are the cover. *)
Lemma distributeZWC_split (coverText zwcPayload : list Z) :
  noZWC coverText ->
  Forall (fun c => Text.isZWC c = true) zwcPayload ->
  Text.insertionPoints coverText <> [] ->
  exists result,
    Text.distributeZWC coverText zwcPayload
    = Text.START_SENTINEL ++ result ++ Text.END_SENTINEL /\
    List.filter Text.isZWC result = zwcPayload /\
    Text.removeZWC result = coverText.
Proof.
  intros Hc Hz Hpts. unfold Text.distributeZWC.
  pose proof (insertionPoints_ascending coverText) as Hasc.
  set (points := Text.insertionPoints coverText) in *.
  destruct (length points =? 0)%nat eqn:E0.
  { apply Nat.eqb_eq in E0. destruct points; [congruence | discriminate]. }
  apply Nat.eqb_neq in E0.
  set (cpp := ((length zwcPayload + length points - 1) / length points)%nat).
  assert (Hcpp : (length zwcPayload <= length points * cpp)%nat)
    by (unfold cpp; lia).
  eexists. split; [reflexivity|].
  match goal with
  | |- context [for_while ?n 0 ?c ?f ?s] =>
      destruct (for_while_inv_idx
                  (fun i (st : Text.distState) =>
                     List.filter Text.isZWC (Text.dResult st)
                     = take (Text.zwcIndex st) zwcPayload /\
                     Text.removeZWC (Text.dResult st)
                     = take (Text.lastPos st) coverText /\
                     Text.zwcIndex st = Nat.min (length zwcPayload) (i * cpp) /\
                     forall j, (i <= j < length points)%nat ->
                               (Text.lastPos st <= nth j points 0)%nat)
                  c f n 0%nat s) as (k & Hk & (Hf & Hr & Hi & _) & Hstop);
        [ | | set (final := for_while n 0 c f s) in * ]
  end.
  - simpl. repeat split; try reflexivity; intros; lia.
  - intros i st Hi Hcond (Hf & Hr & Hidx & Hlast). apply Nat.ltb_lt in Hcond.
    cbv zeta.
    set (point := nth i points 0%nat).
    assert (Hlp : (Text.lastPos st <= point)%nat) by (apply Hlast; lia).
    rewrite distribute_chunk by lia.
    cbn [Text.dResult Text.zwcIndex Text.lastPos].
    pose proof (substring_noZWC coverText (Text.lastPos st) point Hc) as Hsub.
    assert (Hchunk : Forall (fun c => Text.isZWC c = true)
                       (take (Nat.min cpp (length zwcPayload - Text.zwcIndex st))
                          (drop (Text.zwcIndex st) zwcPayload)))
      by (apply Forall_take, Forall_drop; exact Hz).
    split; [|split; [|split]].
    + rewrite !List.filter_app, Hf, (filter_noZWC _ Hsub), app_nil_r.
      rewrite (filter_all _ Hchunk). apply take_take_drop.
    + rewrite !removeZWC_app, Hr, (removeZWC_none _ Hsub), (removeZWC_all _ Hchunk).
      rewrite app_nil_r. unfold Text.substring. rewrite take_take_drop.
      f_equal. lia.
    + rewrite Hidx. lia.
    + intros j Hj. apply Hasc; lia.
  - assert (Hall : Text.zwcIndex final = length zwcPayload).
    { destruct (Nat.eq_dec k (length points)) as [->|Hne]; [lia|].
      assert (Hlt : (k < 0 + length points)%nat) by lia.
      specialize (Hstop Hlt). apply Nat.ltb_ge in Hstop. lia. }
    split.
    + rewrite List.filter_app, Hf, Hall, firstn_all.
      rewrite filter_noZWC; [apply app_nil_r|].
      apply Forall_drop. exact Hc.
    + rewrite removeZWC_app, Hr.
      rewrite (removeZWC_none (drop (Text.lastPos final) coverText))
        by (apply Forall_drop; exact Hc).
      apply take_drop.
Qed.

Lemma distributed_carries (c header : list Z) :
  noZWC c -> Forall is_byte header ->
  carries (Text.distributeZWC c (Text.bytesToZWC header)) c header.
Proof.
  intros Hc Hh.
  destruct (Text.insertionPoints c) as [|p0 ps] eqn:Ep.
  - unfold Text.distributeZWC. rewrite Ep. simpl Nat.eqb. cbv iota.
    apply appended_carries; assumption.
  - rewrite bytesToZWC_flat_map.
    pose proof (bytesToZWC_zwc header Hh) as Hz.
    destruct (distributeZWC_split c (flat_map zwcOfByte header) Hc Hz)
      as (result & -> & Hf & Hr); [rewrite Ep; discriminate|].
    destruct sentinels_zwc as [Hs He].
    exists 0%nat. split; [|split].
    + apply (indexOf_app [] Text.START_SENTINEL _ 0x200b [0x200c; 0x200b]);
        [reflexivity | constructor].
    + change (0 + 3)%nat with (length Text.START_SENTINEL).
      rewrite drop_app_length, List.filter_app, Hf, (filter_all _ He). reflexivity.
    + rewrite !removeZWC_app, Hr, (removeZWC_all _ Hs), (removeZWC_all _ He).
      apply app_nil_r.
Qed.

(** ** Zero-width text engine: the round trip *)

Lemma decodeText_carries (P : Text.Primitives) (stega c data_ z u s : list Z)
    (password : option (list Z)) :
  carries stega c (Text.frame Text.PAYLOAD_TYPE_TEXT data_) ->
  Forall is_byte data_ ->
  Z.of_nat (length data_) < 4294967296 ->
  match Text.given password with
  | Some pw => Text.decrypt P data_ pw
  | None => Ok data_
  end = Ok z ->
  Text.decompress P z = Some u ->
  Text.utf8_decode P u = Some s ->
  Text.decodeText P stega password
  = Ok {| Text.visibleText := Text.trim c; Text.secretMessage := Some s |}.
Proof.
  intros (i & Hi & Hf & Hv) Hd Hn Hz Hu Hs.
  destruct (read_frame Text.PAYLOAD_TYPE_TEXT data_) as (Hl & H1 & H2);
    [unfold is_byte, Text.PAYLOAD_TYPE_TEXT; lia | exact Hd | exact Hn |].
  unfold Text.decodeText. rewrite Hi. cbv zeta.
  rewrite extractZWCChars_filter.
  change (length Text.START_SENTINEL) with 3%nat. rewrite Hf.
  rewrite visibleOf_spec, Hv.
  match goal with
  | |- context [(length ?a <? 20)%nat] =>
      replace (length a <? 20)%nat with false
        by (symmetry; apply Nat.ltb_ge; rewrite Hl; lia)
  end.
  rewrite H1. cbn [bind].
  rewrite getUint32_setUint32 by lia. cbn [bind].
  change (aget (Text.PAYLOAD_TYPE_TEXT :: _) 0) with Text.PAYLOAD_TYPE_TEXT.
  rewrite Z.eqb_refl. cbn [negb].
  match goal with
  | |- context [Z.of_nat (length ?a) <? ?b] =>
      replace (Z.of_nat (length a) <? b) with false
        by (symmetry; apply Z.ltb_ge; rewrite Hl; lia)
  end.
  rewrite H2. cbn [bind]. rewrite Hz. cbn [bind].
  rewrite Hu. cbn [Text.orThrow bind]. rewrite Hs. reflexivity.
Qed.

(** The bytes [encodeText] frames: the compressed secret, encrypted when a
    password is given. *)
Definition payloadOf (P : Text.Primitives) (s : list Z)
    (password : option (list Z)) (rnd : Text.Entropy) : list Z :=
  match Text.given password with
  | Some pw => Text.encrypt P (Text.compress P (Text.utf8_encode P s)) pw rnd
  | None => Text.compress P (Text.utf8_encode P s)
  end.

Lemma payloadOf_recovered (P : Text.Primitives) (s : list Z)
    (password : option (list Z)) (rnd : Text.Entropy) :
  HostLaws P -> drawn rnd ->
  Forall is_byte (payloadOf P s password rnd) /\
  Z.of_nat (length (payloadOf P s password rnd))
  <= Z.of_nat (length (Text.compress P (Text.utf8_encode P s))) + 32 /\
  match Text.given password with
  | Some pw => Text.decrypt P (payloadOf P s password rnd) pw
  | None => Ok (payloadOf P s password rnd)
  end = Ok (Text.compress P (Text.utf8_encode P s)).
Proof.
  intros HP Hr. unfold payloadOf.
  assert (Hz : Forall is_byte (Text.compress P (Text.utf8_encode P s)))
    by (apply (compress_bytes P HP), (utf8_encode_bytes P HP)).
  destruct (Text.given password) as [pw|].
  - split; [|split].
    + destruct Hr as (_ & _ & Hs & Hc). unfold Text.encrypt.
      apply Forall_app. split; [exact Hs|]. apply Forall_app. split; [exact Hc|].
      apply (encrypt_bytes P HP). exact Hz.
    + destruct Hr as (Hs & Hc & _ & _). unfold Text.encrypt.
      rewrite !length_app, (encrypt_length P HP). lia.
    + apply decrypt_encrypt_blob; [exact HP | exact Hr | exact Hz|].
      apply (compress_nonempty P HP).
  - split; [exact Hz|]. split; [lia | reflexivity].
Qed.

Lemma guarded_encodeText_Ok (P : Text.Primitives) (c s : list Z)
    (password : option (list Z)) (distribute : bool)
    (options : option Text.EncodeOptions) (rnd : Text.Entropy) (stega : list Z) :
  Text.Guarded.encodeText P c s password distribute options rnd = Ok stega ->
  stega = Text.encodeText P c s password distribute rnd.
Proof.
  unfold Text.Guarded.encodeText, Text.encodeText. intros H.
  repeat match type of H with
         | (if ?b then _ else _) = Ok _ => destruct b; try discriminate
         end;
    injection H as <-; reflexivity.
Qed.

Lemma guarded_default_bound (P : Text.Primitives) (c s : list Z)
    (password : option (list Z)) (distribute : bool) (rnd : Text.Entropy)
    (stega : list Z) :
  Text.Guarded.encodeText P c s password distribute None rnd = Ok stega ->
  Z.of_nat (length (payloadOf P s password rnd)) < 4294967296.
Proof.
  unfold Text.Guarded.encodeText, Text.optionOr. fold (payloadOf P s password rnd).
  intros H.
  destruct (Text.MAX_COVER_LENGTH <? Z.of_nat (length c)) eqn:Ec; [discriminate|].
  destruct (Text.MAX_SECRET_LENGTH <? Z.of_nat (length (Text.utf8_encode P s)));
    [discriminate|].
  match type of H with
  | (if ?b then _ else _) = _ => destruct b; [discriminate|]
  end.
  destruct (Text.calculateTextCapacity c
            <? Z.of_nat (length (payloadOf P s password rnd))) eqn:Ep;
    [discriminate|].
  apply Z.ltb_ge in Ec, Ep.
  unfold Text.calculateTextCapacity, Text.MAX_COVER_LENGTH in *. lia.
Qed.

Lemma encodeText_carries (P : Text.Primitives) (c s : list Z)
    (p : option (list Z)) (distribute : bool) (rnd : Text.Entropy) :
  noZWC c -> Forall is_byte (payloadOf P s p rnd) ->
  carries (Text.encodeText P c s p distribute rnd) c
    (Text.frame Text.PAYLOAD_TYPE_TEXT (payloadOf P s p rnd)).
Proof.
  intros Hc Hb. unfold Text.encodeText. fold (payloadOf P s p rnd).
  assert (Hh : Forall is_byte (Text.frame Text.PAYLOAD_TYPE_TEXT (payloadOf P s p rnd))).
  { rewrite frame_bytes by (unfold is_byte, Text.PAYLOAD_TYPE_TEXT; first [lia | exact Hb]).
    constructor; [unfold is_byte, Text.PAYLOAD_TYPE_TEXT; lia|].
    apply Forall_app. split; [apply setUint32_bytes | exact Hb]. }
  destruct distribute; [apply distributed_carries | apply appended_carries];
    assumption.
Qed.

Lemma encode_then_decode (P : Text.Primitives) (c s : list Z)
    (p : option (list Z)) (distribute : bool) (rnd : Text.Entropy) :
  HostLaws P -> drawn rnd -> noZWC c ->
  Text.utf8_decode P (Text.utf8_encode P s) = Some s ->
  Z.of_nat (length (payloadOf P s p rnd)) < 4294967296 ->
  Text.decodeText P (Text.encodeText P c s p distribute rnd) p
  = Ok {| Text.visibleText := Text.trim c; Text.secretMessage := Some s |}.
Proof.
  intros HP Hr Hc Hs Hn.
  destruct (payloadOf_recovered P s p rnd HP Hr) as (Hb & _ & Hz).
  apply (decodeText_carries P _ c (payloadOf P s p rnd)
           (Text.compress P (Text.utf8_encode P s)) (Text.utf8_encode P s) s p).
  - apply encodeText_carries; assumption.
  - exact Hb.
  - exact Hn.
  - exact Hz.
  - apply (decompress_compress P HP), (utf8_encode_bytes P HP).
  - exact Hs.
Qed.

(** C1 (as amended).  For every cover text [c] that holds no zero-width
    character, every secret [s] that the host's UTF-8 codec gives back
    unchanged, every optional password [p] and either placement:
    [decodeText (encodeText c s p) p] returns [secretMessage = s] and
    [visibleText = c.trim()], provided the framed payload is shorter than
    2^32 bytes.  That proviso holds for every text the size-checking revision
    of [encodeText] returns under its default maxima and capacity. *)
Theorem decodeText_encodeText (P : Text.Primitives) (c s : list Z)
    (p : option (list Z)) (distribute : bool) (rnd : Text.Entropy) :
  HostLaws P ->
  drawn rnd ->
  noZWC c ->
  Text.utf8_decode P (Text.utf8_encode P s) = Some s ->
  (Z.of_nat (length (Text.compress P (Text.utf8_encode P s))) + 32 < 4294967296 ->
   Text.decodeText P (Text.encodeText P c s p distribute rnd) p
   = Ok {| Text.visibleText := Text.trim c; Text.secretMessage := Some s |}) /\
  (forall stega,
     Text.Guarded.encodeText P c s p distribute None rnd = Ok stega ->
     Text.decodeText P stega p
     = Ok {| Text.visibleText := Text.trim c; Text.secretMessage := Some s |}) /\
  (forall options stega,
     Z.of_nat (length (Text.compress P (Text.utf8_encode P s))) + 32 < 4294967296 ->
     Text.Guarded.encodeText P c s p distribute options rnd = Ok stega ->
     Text.decodeText P stega p
     = Ok {| Text.visibleText := Text.trim c; Text.secretMessage := Some s |}).
Proof.
  intros HP Hr Hc Hs.
  destruct (payloadOf_recovered P s p rnd HP Hr) as (_ & Hl & _).
  split; [|split].
  - intros Hn. apply encode_then_decode; try assumption. lia.
  - intros stega Hg.
    pose proof (guarded_default_bound P c s p distribute rnd stega Hg) as Hn.
    apply guarded_encodeText_Ok in Hg. subst stega.
    apply encode_then_decode; assumption.
  - intros options stega Hn Hg.
    apply guarded_encodeText_Ok in Hg. subst stega.
    apply encode_then_decode; try assumption. lia.
Qed.

(** ** A small host to run the text engine on examples

    Text is written as two bytes per code unit, the deflate stream as the
    bytes behind a one-byte header, and the cipher shifts every byte by the
    sum of the key bytes.  It satisfies [HostLaws]. *)

Fixpoint unitsOfBytes (b : list Z) : list Z :=
  match b with
  | hi :: lo :: r => (hi * 256 + lo) :: unitsOfBytes r
  | _ => []
  end.

Definition keySum (key : list Z) : Z := foldr Z.add 0 key.

Definition sampleHost : Text.Primitives := {|
  Text.utf8_encode := fun s => flat_map (fun c => [u8 (c / 256); u8 c]) s;
  Text.utf8_decode := fun b => Some (unitsOfBytes b);
  Text.compress := fun d => 120 :: d;
  Text.decompress := fun d => match d with
                              | 120 :: r => Some r
                              | _ => None
                              end;
  Text.deriveKey := fun password salt => password ++ salt;
  Text.aes_ctr_encrypt := fun key counter d => map (fun x => u8 (x + keySum key)) d;
  Text.aes_ctr_decrypt := fun key counter d => map (fun x => u8 (x - keySum key)) d
|}.

Definition sampleEntropy : Text.Entropy :=
  {| Text.salt := replicate 16 7; Text.counter := replicate 16 9 |}.

Lemma sampleHost_laws : HostLaws sampleHost.
Proof.
  constructor; simpl.
  - intros s. induction s as [|c s IH]; [constructor|].
    simpl. constructor; [apply u8_is_byte|].
    constructor; [apply u8_is_byte | exact IH].
  - intros d Hd. constructor; [unfold is_byte; lia | exact Hd].
  - intros d. discriminate.
  - intros d _. reflexivity.
  - intros k c d _. induction d as [|x d IH]; constructor; [apply u8_is_byte | exact IH].
  - intros k c d. apply length_map.
  - intros k c d Hd. induction Hd as [|x d Hx _ IH]; [reflexivity|].
    simpl. f_equal; [|exact IH]. unfold u8, is_byte in *. lia.
Qed.

Lemma sampleEntropy_drawn : drawn sampleEntropy.
Proof.
  unfold drawn. simpl. repeat split; try reflexivity;
    repeat constructor; unfold is_byte; lia.
Qed.

Lemma noZWC_dec (c : list Z) :
  forallb (fun x => negb (Text.isZWC x)) c = true -> noZWC c.
Proof.
  intros H. apply List.Forall_forall. intros x Hx.
  rewrite List.forallb_forall in H. specialize (H x Hx).
  destruct (Text.isZWC x); [discriminate | reflexivity].
Qed.

(** Cover [" Hi! "], secret ["hi"], password ["pw"]. *)
Lemma decodeText_encodeText_witness :
  Text.decodeText sampleHost
    (Text.encodeText sampleHost [32; 72; 105; 33; 32] [104; 105]
       (Some [112; 119]) false sampleEntropy)
    (Some [112; 119])
  = Ok {| Text.visibleText := [72; 105; 33]; Text.secretMessage := Some [104; 105] |}.
Proof.
  exact (proj1 (decodeText_encodeText sampleHost [32; 72; 105; 33; 32] [104; 105]
                  (Some [112; 119]) false sampleEntropy
                  sampleHost_laws sampleEntropy_drawn
                  (noZWC_dec [32; 72; 105; 33; 32] eq_refl) eq_refl) eq_refl).
Defined.

(** A cover of 200 letters followed by U+200B U+200C passes every size
    check of the size-checking encoder, and the text it returns cannot be
    decoded: the decoder finds a START two units early and reads a shifted
    header.  The claim of C1 for every cover text fails on it. *)
Lemma decodeText_encodeText_zwc_cover :
  HostLaws sampleHost /\ drawn sampleEntropy /\
  Text.utf8_decode sampleHost (Text.utf8_encode sampleHost [104; 105])
  = Some [104; 105] /\
  Text.Guarded.encodeText sampleHost (replicate 200 97 ++ [0x200b; 0x200c])
    [104; 105] None false None sampleEntropy
  = Ok (Text.encodeText sampleHost (replicate 200 97 ++ [0x200b; 0x200c])
          [104; 105] None false sampleEntropy) /\
  Text.decodeText sampleHost
    (Text.encodeText sampleHost (replicate 200 97 ++ [0x200b; 0x200c])
       [104; 105] None false sampleEntropy)
    None
  = Throw (DecodingFailed (PayloadTypeMismatch 216)).
Proof.
  split; [exact sampleHost_laws|]. split; [exact sampleEntropy_drawn|].
  split; [reflexivity|]. split; vm_compute; reflexivity.
Qed.

(** Input [" a" U+200B " "]: no sentinel, the spaces stay. *)
Lemma decode_without_start_witness :
  ~ occurs Text.START_SENTINEL [32; 97; 0x200b; 32] /\
  Text.decodeText sampleHost [32; 97; 0x200b; 32] None
  = Ok {| Text.visibleText := [32; 97; 32]; Text.secretMessage := None |}.
Proof.
  assert (H : ~ occurs Text.START_SENTINEL [32; 97; 0x200b; 32])
    by (apply indexOf_None; reflexivity).
  split; [exact H|].
  exact (proj1 (proj1 (decode_without_start sampleHost [32; 97; 0x200b; 32] None) H)).
Defined.

(** ** Multi-frame split mode: which frames the decoder keeps *)

Lemma plausibleHeader_spec (chunkIndex chunks chunkSize : Z) :
  Image.plausibleHeader chunkIndex chunks chunkSize = true <->
  chunkIndex < chunks /\ 0 < chunks < 10000 /\ 0 < chunkSize < 1000000.
Proof. unfold Image.plausibleHeader. rewrite !andb_true_iff, !Z.ltb_lt. lia. Qed.

Lemma rejectedHeader_spec (chunkIndex totalChunks chunkSize : Z) :
  0 <= chunkSize ->
  Image.rejectedHeader chunkIndex totalChunks chunkSize = false <->
  chunkIndex < totalChunks /\ 0 < chunkSize <= 1000000.
Proof.
  intros Hs. unfold Image.rejectedHeader.
  rewrite !orb_false_iff, Z.leb_gt, Z.eqb_neq, Z.ltb_ge. lia.
Qed.

Lemma Forall_aget (Q : Z -> Prop) (a : list Z) :
  (forall i, (i < length a)%nat -> Q (aget a i)) -> Forall Q a.
Proof.
  intros H. apply Forall_lookup. intros i x Hx.
  rewrite <- (aget_lookup a i x Hx). apply H.
  apply lookup_lt_is_Some. eauto.
Qed.

Lemma bitsToBytes_bytes (bits : list Z) : Forall is_byte (Common.bitsToBytes bits).
Proof.
  destruct (bitsToBytes_spec bits) as [Hl Hb].
  apply Forall_aget. intros i Hi. rewrite Hb by lia. apply u8_is_byte.
Qed.

Lemma getUint32_range (view : list Z) (off : nat) (v : Z) :
  Forall is_byte view -> getUint32 view off = Ok v -> 0 <= v < 4294967296.
Proof.
  unfold getUint32. intros Hv H.
  destruct (off + 4 <=? length view)%nat eqn:E; [|discriminate].
  apply Nat.leb_le in E. injection H as <-.
  pose proof (aget_Forall is_byte view off Hv ltac:(lia)) as H0.
  pose proof (aget_Forall is_byte view (off + 1) Hv ltac:(lia)) as H1.
  pose proof (aget_Forall is_byte view (off + 2) Hv ltac:(lia)) as H2.
  pose proof (aget_Forall is_byte view (off + 3) Hv ltac:(lia)) as H3.
  unfold is_byte in *. lia.
Qed.

Lemma readChunkHeader_Ok (frame : Image.ImageFrame) (bitDepth i t s : Z) :
  Image.readChunkHeader frame bitDepth = Ok (i, t, s) ->
  1 <= bitDepth <= 4 /\ 0 <= i /\ 0 <= t /\ 0 <= s.
Proof.
  unfold Image.readChunkHeader. intros H.
  destruct (Image.extractLSB (Image.data frame) 96 bitDepth 0) as [bits|e] eqn:E;
    [|discriminate].
  cbn [bind] in H.
  pose proof (bitsToBytes_bytes bits) as Hb.
  destruct (getUint32 (Common.bitsToBytes bits) 0) as [a|] eqn:Ea; [|discriminate].
  destruct (getUint32 (Common.bitsToBytes bits) 4) as [b|] eqn:Eb; [|discriminate].
  destruct (getUint32 (Common.bitsToBytes bits) 8) as [c|] eqn:Ec; [|discriminate].
  cbn [bind] in H. injection H as <- <- <-.
  apply getUint32_range in Ea, Eb, Ec; try exact Hb.
  split; [|lia].
  unfold Image.extractLSB, Image.invalidBitDepth in E.
  destruct (bitDepth <? 1) eqn:E1; [discriminate|].
  destruct (4 <? bitDepth) eqn:E4; [discriminate|]. lia.
Qed.

(** The test a header passes in the collecting loop. *)
Definition acceptable (chunkIndex totalChunks chunkSize : Z) : bool :=
  (chunkIndex <? totalChunks) && (0 <? chunkSize) && (chunkSize <=? 1000000).

(** The payload read behind the header of a frame. *)
Definition payloadOfFrame (bitDepth : Z) (frame : Image.ImageFrame) (chunkSize : Z)
    : list Z :=
  match Image.extractLSB (Image.data frame) (Z.to_nat chunkSize * 8) bitDepth 96 with
  | Ok bits => Common.bitsToBytes bits
  | Throw _ => []
  end.

(** The chunk the collecting loop keeps from a frame, if it keeps one. *)
Definition acceptedChunk (bitDepth : Z) (frame : Image.ImageFrame)
    : option Image.chunk :=
  if (length (Image.data frame) <? 12)%nat then None
  else
    match Image.readChunkHeader frame bitDepth with
    | Ok (i, t, s) =>
        if acceptable i t s
        then Some {| Image.index := i;
                     Image.chunkData := payloadOfFrame bitDepth frame s |}
        else None
    | Throw _ => None
    end.

(** The frames the probing loop takes as a sign of split mode. *)
Definition plausibleFrame (bitDepth : Z) (frame : Image.ImageFrame) : bool :=
  negb (length (Image.data frame) <? 12)%nat &&
  match Image.readChunkHeader frame bitDepth with
  | Ok (i, t, s) => Image.plausibleHeader i t s
  | Throw _ => false
  end.

Lemma collectFrame_spec (bitDepth : Z) (frame : Image.ImageFrame)
    (chunks : list Image.chunk) :
  Image.collectFrame bitDepth frame chunks
  = chunks ++ match acceptedChunk bitDepth frame with
              | Some c => [c]
              | None => []
              end.
Proof.
  unfold Image.collectFrame, acceptedChunk.
  destruct (length (Image.data frame) <? 12)%nat; [rewrite app_nil_r; reflexivity|].
  destruct (Image.readChunkHeader frame bitDepth) as [[[i t] s]|e] eqn:E;
    [|rewrite app_nil_r; reflexivity].
  cbn [bind]. apply readChunkHeader_Ok in E. destruct E as (Hd & _ & _ & Hs).
  assert (Hr : Image.rejectedHeader i t s = negb (acceptable i t s)).
  { unfold acceptable. destruct (Image.rejectedHeader i t s) eqn:R.
    - symmetry. apply negb_true_iff. apply not_true_iff_false. intros A.
      rewrite !andb_true_iff, !Z.ltb_lt, Z.leb_le in A.
      assert (R' : Image.rejectedHeader i t s = false)
        by (apply rejectedHeader_spec; lia).
      congruence.
    - apply rejectedHeader_spec in R; [|exact Hs]. symmetry. apply negb_false_iff.
      rewrite !andb_true_iff, !Z.ltb_lt, Z.leb_le. lia. }
  rewrite Hr. destruct (acceptable i t s); cbn [negb];
    [|rewrite app_nil_r; reflexivity].
  unfold payloadOfFrame.
  destruct (extractLSB_Ok (Image.data frame) (Z.to_nat s * 8) bitDepth 96 Hd)
    as (st & -> & Hl & _).
  cbn [bind]. destruct (bitsToBytes_spec (Image.bits st)) as [Hlen _].
  replace (length (Common.bitsToBytes (Image.bits st)) =? Z.to_nat s)%nat with true
    by (symmetry; apply Nat.eqb_eq; rewrite Hlen, Hl; lia).
  reflexivity.
Qed.

Lemma collectChunks_spec (frames : list Image.ImageFrame) (bitDepth : Z) :
  Image.collectChunks frames bitDepth = omap (acceptedChunk bitDepth) frames.
Proof.
  unfold Image.collectChunks.
  assert (H : forall acc,
             foldl (fun chunks frame => Image.collectFrame bitDepth frame chunks)
               acc frames
             = acc ++ omap (acceptedChunk bitDepth) frames).
  { induction frames as [|f frames IH]; intros acc; simpl.
    - rewrite app_nil_r. reflexivity.
    - rewrite IH, collectFrame_spec, <- app_assoc.
      destruct (acceptedChunk bitDepth f); reflexivity. }
  apply (H []).
Qed.

Lemma combineChunks_spec (chunks : list Image.chunk) :
  Image.combineChunks chunks = concat (map Image.chunkData chunks).
Proof.
  unfold Image.combineChunks.
  rewrite (foldl_snoc_flat_map Image.chunkData chunks []).
  simpl. apply flat_map_concat_map.
Qed.

Lemma take_min_length {A : Type} (n : nat) (l : list A) :
  take (Nat.min n (length l)) l = take n l.
Proof.
  destruct (Nat.le_ge_cases n (length l)) as [H|H].
  - rewrite Nat.min_l by exact H. reflexivity.
  - rewrite Nat.min_r by exact H. rewrite firstn_all, take_ge by exact H.
    reflexivity.
Qed.

Lemma existsb_take_mono {A : Type} (f : A -> bool) (l : list A) (k n : nat) :
  (k <= n)%nat -> existsb f (take k l) = true -> existsb f (take n l) = true.
Proof.
  intros Hk H. rewrite <- (take_drop k (take n l)), existsb_app.
  rewrite take_take, Nat.min_l by exact Hk. rewrite H. reflexivity.
Qed.

(** Split mode is recognised exactly when one of the first five frames
    carries a plausible header; the chunk count kept is then positive. *)
Lemma detectSplitMode_spec (frames : list Image.ImageFrame) (bitDepth : Z) :
  fst (Image.detectSplitMode frames bitDepth)
  = existsb (plausibleFrame bitDepth) (take 5 frames) /\
  (fst (Image.detectSplitMode frames bitDepth) = true ->
   0 < snd (Image.detectSplitMode frames bitDepth)).
Proof.
  unfold Image.detectSplitMode.
  set (n := Nat.min 5 (length frames)).
  match goal with
  | |- context [for_while n 0 ?c ?f ?s] =>
      destruct (for_while_inv_idx
                  (fun k (st : bool * Z) =>
                     fst st = existsb (plausibleFrame bitDepth) (take k frames) /\
                     (fst st = true -> 0 < snd st))
                  c f n 0%nat s) as (k & Hk & [He Hp] & Hstop)
  end.
  - split; [reflexivity | discriminate].
  - intros k st Hk Hc [He Hp]. apply negb_true_iff in Hc.
    assert (Hlt : (k < length frames)%nat) by lia.
    destruct (lookup_lt_is_Some_2 frames k Hlt) as [frame Hf]. rewrite Hf.
    rewrite (take_S_r frames k frame Hf), existsb_app, <- He, Hc.
    simpl existsb. rewrite orb_false_r. cbn [orb]. unfold plausibleFrame.
    destruct (length (Image.data frame) <? 12)%nat; cbn [negb andb];
      [split; [exact Hc | exact Hp]|].
    destruct (Image.readChunkHeader frame bitDepth) as [[[i t] s]|e];
      [|split; [exact Hc | exact Hp]].
    destruct (Image.plausibleHeader i t s) eqn:Epl; [|split; [exact Hc | exact Hp]].
    apply plausibleHeader_spec in Epl. split; [reflexivity|]. intros _. simpl. lia.
  - split; [|exact Hp]. rewrite <- (take_min_length 5 frames). fold n.
    destruct (Nat.eq_dec k n) as [->|Hne]; [exact He|].
    assert (Hlt : (k < 0 + n)%nat) by lia.
    specialize (Hstop Hlt). apply negb_false_iff in Hstop.
    rewrite Hstop. symmetry.
    apply (existsb_take_mono _ frames k n); [lia|]. rewrite <- He. exact Hstop.
Qed.

Definition indexLe (a b : Image.chunk) : Prop := Image.index a <= Image.index b.

Lemma insertChunk_perm (c : Image.chunk) (l : list Image.chunk) :
  Permutation (c :: l) (Image.insertChunk c l).
Proof.
  induction l as [|x l IH]; simpl; [reflexivity|].
  destruct (Image.index x <? Image.index c); [|reflexivity].
  rewrite perm_swap. apply perm_skip. exact IH.
Qed.

Lemma insertChunk_sorted (c : Image.chunk) (l : list Image.chunk) :
  Sorted indexLe l -> Sorted indexLe (Image.insertChunk c l).
Proof.
  induction l as [|x l IH]; intros Hs; simpl.
  - repeat constructor.
  - destruct (Image.index x <? Image.index c) eqn:E.
    + apply Z.ltb_lt in E. inversion Hs as [|? ? Hl Hh]; subst.
      constructor; [apply IH; exact Hl|].
      destruct l as [|y l]; simpl.
      * constructor. unfold indexLe. lia.
      * destruct (Image.index y <? Image.index c).
        -- inversion Hh; subst. constructor. assumption.
        -- constructor. unfold indexLe. lia.
    + apply Z.ltb_ge in E. constructor; [exact Hs|]. constructor. exact E.
Qed.

Lemma sortChunks_spec (l : list Image.chunk) :
  Permutation l (Image.sortChunks l) /\ Sorted indexLe (Image.sortChunks l).
Proof.
  unfold Image.sortChunks. induction l as [|c l [IHp IHs]]; simpl.
  - split; constructor.
  - split.
    + rewrite <- insertChunk_perm. apply perm_skip. exact IHp.
    + apply insertChunk_sorted. exact IHs.
Qed.

(** C5 (as amended).  The split-mode decoder has two tests.  It enters split
    mode exactly when one of the first five frames of at least 12 bytes has a
    header with [chunk_index < total_chunks], [0 < total_chunks < 10 000] and
    [0 < chunk_size < 1 000 000].  In split mode it keeps, from every frame
    of at least 12 bytes, the chunk whose header has
    [chunk_index < total_chunks] and [0 < chunk_size <= 1 000 000], with no
    bound on [total_chunks]; every other frame is ignored; the kept chunks
    are sorted by [chunk_index] and their payloads concatenated, for the data
    decoder and for the text decoder alike. *)
Theorem split_mode_decoder (frames : list Image.ImageFrame) (bitDepth : Z)
    (dataLength frameIndex : nat) :
  fst (Image.detectSplitMode frames bitDepth)
  = existsb (plausibleFrame bitDepth) (take 5 frames) /\
  (forall i t s, Image.plausibleHeader i t s = true <->
                 i < t /\ 0 < t < 10000 /\ 0 < s < 1000000) /\
  (forall i t s, acceptable i t s = true <-> i < t /\ 0 < s <= 1000000) /\
  Image.collectChunks frames bitDepth = omap (acceptedChunk bitDepth) frames /\
  Permutation (omap (acceptedChunk bitDepth) frames)
    (Image.sortChunks (omap (acceptedChunk bitDepth) frames)) /\
  Sorted indexLe (Image.sortChunks (omap (acceptedChunk bitDepth) frames)) /\
  (fst (Image.detectSplitMode frames bitDepth) = true ->
   Image.extractDataFromImageFrames frames dataLength bitDepth frameIndex
   = match omap (acceptedChunk bitDepth) frames with
     | [] => Throw NoValidChunks
     | kept =>
         Ok (concat (map Image.chunkData (Image.sortChunks kept)))
     end /\
   forall utf8_decode,
     Image.extractTextFromImageFrames utf8_decode frames bitDepth frameIndex
     = match omap (acceptedChunk bitDepth) frames with
       | [] => Throw NoValidChunks
       | kept =>
           let combined := concat (map Image.chunkData (Image.sortChunks kept)) in
           let! messageLength := getUint32 combined 0 in
           match utf8_decode (take (Z.to_nat messageLength) (drop 4 combined)) with
           | Some text => Ok text
           | None => Throw InvalidUtf8
           end
       end).
Proof.
  destruct (detectSplitMode_spec frames bitDepth) as [Hd Hpos].
  destruct (sortChunks_spec (omap (acceptedChunk bitDepth) frames)) as [Hp Hs].
  split; [exact Hd|]. split; [apply plausibleHeader_spec|]. split.
  { intros i t s. unfold acceptable. rewrite !andb_true_iff, !Z.ltb_lt, Z.leb_le. lia. }
  split; [apply collectChunks_spec|]. split; [exact Hp|]. split; [exact Hs|].
  intros Hsplit.
  unfold Image.extractDataFromImageFrames, Image.extractTextFromImageFrames.
  specialize (Hpos Hsplit).
  destruct (Image.detectSplitMode frames bitDepth) as [isSplit total].
  simpl in Hsplit, Hpos. subst isSplit.
  replace (0 <? total) with true by (symmetry; apply Z.ltb_lt; exact Hpos).
  cbn [andb]. rewrite collectChunks_spec, combineChunks_spec.
  destruct (omap (acceptedChunk bitDepth) frames) as [|c kept] eqn:E.
  - split; [reflexivity | intros utf8_decode; reflexivity].
  - replace (length (Image.sortChunks (c :: kept)) =? 0)%nat with false;
      [split; [reflexivity | intros utf8_decode; reflexivity]|].
    symmetry. apply Nat.eqb_neq. rewrite <- E in *.
    rewrite <- (Permutation_length Hp), E. discriminate.
Qed.

(** A 35-pixel black frame whose low bits carry the chunk header
    [(chunkIndex, totalChunks, chunkSize)] followed by [payload], as the
    split-mode encoder lays a chunk out at depth 1. *)
Definition frameWith (chunkIndex totalChunks chunkSize : Z) (payload : list Z)
    : Image.ImageFrame :=
  {| Image.data :=
       match Image.embedLSB (replicate 140 0)
               (Common.bytesToBits (setUint32 chunkIndex ++ setUint32 totalChunks
                                    ++ setUint32 chunkSize ++ payload)) 1 with
       | Ok d => d
       | Throw _ => []
       end |}.

(** Two frames given out of order: chunk 1 of 2 first, then chunk 0 of 2. *)
Lemma split_mode_decoder_witness :
  fst (Image.detectSplitMode [frameWith 1 2 1 [9]; frameWith 0 2 1 [7]] 1) = true /\
  Image.extractDataFromImageFrames [frameWith 1 2 1 [9]; frameWith 0 2 1 [7]] 0 1 0
  = Ok [7; 9].
Proof.
  assert (H : fst (Image.detectSplitMode
                     [frameWith 1 2 1 [9]; frameWith 0 2 1 [7]] 1) = true)
    by (vm_compute; reflexivity).
  split; [exact H|].
  rewrite (proj1 (proj2 (proj2 (proj2 (proj2 (proj2 (proj2
             (split_mode_decoder [frameWith 1 2 1 [9]; frameWith 0 2 1 [7]]
                1 0 0)))))) H)).
  vm_compute. reflexivity.
Defined.

(** The bounds as C5 words them would make the decoder ignore a frame whose
    header says [total_chunks = 10 000].  It does not: the second frame
    below has the header [(1, 10 000, 1)] and its payload is kept. *)
Lemma split_mode_keeps_large_total :
  Image.readChunkHeader (frameWith 1 10000 1 [9]) 1 = Ok (1, 10000, 1) /\
  ~ (10000 < 10000) /\
  Image.extractDataFromImageFrames
    [frameWith 0 2 1 [7]; frameWith 1 10000 1 [9]] 0 1 0
  = Ok [7; 9].
Proof.
  split; [vm_compute; reflexivity|]. split; [lia|]. vm_compute. reflexivity.
Qed.

(** ** JPEG DCT engine: one coefficient *)

Definition int32 (v : Z) : Prop := -2147483648 <= v < 2147483648.

Lemma toInt32_int32 (v : Z) : int32 (Image.toInt32 v).
Proof. unfold int32, Image.toInt32. lia. Qed.

Lemma toInt32_id (v : Z) : int32 v -> Image.toInt32 v = v.
Proof. unfold int32, Image.toInt32. lia. Qed.

Lemma toInt32_parity (v : Z) : Image.toInt32 v mod 2 = v mod 2.
Proof. unfold Image.toInt32. lia. Qed.

Lemma land_1_mod (v : Z) : Z.land v 1 = v mod 2.
Proof.
  pose proof (Z.land_ones v 1 ltac:(lia)) as H.
  change (Z.ones 1) with 1 in H. exact H.
Qed.

Lemma land_clear_low (v : Z) : Z.land v (-2) = v - v mod 2.
Proof.
  change (-2) with (Z.lnot 1). rewrite <- Z.sub_land_same_l, land_1_mod.
  reflexivity.
Qed.

Lemma lor_set_low (v : Z) : Z.lor v 1 = v + 1 - v mod 2.
Proof.
  pose proof (Z.sub_lor_l_same_r v 1) as H.
  change (Z.lnot 1) with (-2) in H. rewrite land_clear_low in H. lia.
Qed.

Lemma js_and_1 (v : Z) : Image.js_and v 1 = v mod 2.
Proof.
  unfold Image.js_and. change (Image.toInt32 1) with 1.
  rewrite land_1_mod, toInt32_parity.
  apply toInt32_id. unfold int32. lia.
Qed.

Lemma js_or_1 (v : Z) :
  Image.js_or v 1
  = Image.toInt32 (Image.toInt32 v + 1 - Image.toInt32 v mod 2).
Proof.
  unfold Image.js_or. change (Image.toInt32 1) with 1.
  rewrite lor_set_low. reflexivity.
Qed.

Lemma js_and_not_1 (v : Z) :
  Image.js_and v (Image.js_not 1)
  = Image.toInt32 (Image.toInt32 v - Image.toInt32 v mod 2).
Proof.
  unfold Image.js_and. change (Image.toInt32 (Image.js_not 1)) with (-2).
  rewrite land_clear_low. reflexivity.
Qed.

Lemma usable_spec (c : Z) :
  Image.usable c = true <-> c <> 0 /\ c <> 1 /\ c <> -1.
Proof.
  unfold Image.usable. rewrite !andb_true_iff, !negb_true_iff, !Z.eqb_neq. tauto.
Qed.

Lemma usable_false (c : Z) :
  Image.usable c = false <-> c = 0 \/ c = 1 \/ c = -1.
Proof.
  rewrite <- not_true_iff_false, usable_spec. lia.
Qed.

(** The parity the extractor reads from a coefficient. *)
Definition lsb (c : Z) : Z := Image.js_and (Z.abs c) 1.

Lemma lsb_mod (c : Z) : lsb c = Z.abs c mod 2.
Proof. apply js_and_1. Qed.

(** One step of the embedding loop touches the coefficient at [i] only.  A
    usable coefficient stays usable, takes the parity of the message bit and
    consumes it; any other coefficient is left alone and consumes nothing. *)
Lemma embedCoeff_step (m block : list Z) (i k : nat) :
  (i < length block)%nat -> int32 (aget block i) ->
  exists c',
    Image.embedCoeff m i (block, k)
    = (<[i := c']> block, if Image.usable (aget block i) then Datatypes.S k else k) /\
    int32 c' /\
    Image.usable c' = Image.usable (aget block i) /\
    (Image.usable c' = true -> lsb c' = Image.js_and (aget m k) 1).
Proof.
  intros Hi Hc. set (c := aget block i) in *.
  assert (Hid : <[i := c]> block = block)
    by (apply list_insert_id, lookup_aget; exact Hi).
  unfold Image.embedCoeff. cbn [fst snd]. fold c.
  destruct (Image.usable c) eqn:U.
  2:{ exists c. rewrite Hid. split; [reflexivity|]. split; [exact Hc|].
      split; [exact U | congruence]. }
  pose proof (proj1 (usable_spec c) U) as (U0 & U1 & U2).
  fold (lsb c). rewrite (lsb_mod c).
  rewrite (js_and_1 (aget m k)).
  set (b := aget m k mod 2).
  assert (Hb : 0 <= b <= 1) by (unfold b; lia).
  destruct (Z.abs c mod 2 =? b) eqn:E; cbn [negb].
  { apply Z.eqb_eq in E. exists c. rewrite Hid. split; [reflexivity|].
    split; [exact Hc|]. split; [exact U|]. intros _. rewrite lsb_mod. exact E. }
  apply Z.eqb_neq in E. unfold int32 in Hc.
  destruct (0 <? c) eqn:Pos.
  - apply Z.ltb_lt in Pos.
    set (new := if negb (b =? 0) then Image.js_or c 1
                else Image.js_and c (Image.js_not 1)).
    assert (Hnew : new = c + 1 - 2 * (c mod 2)).
    { unfold new. destruct (b =? 0) eqn:B; cbn [negb].
      - apply Z.eqb_eq in B. rewrite js_and_not_1.
        unfold Image.toInt32. lia.
      - apply Z.eqb_neq in B. rewrite js_or_1.
        unfold Image.toInt32. lia. }
    assert (Hrange : 2 <= new < 2147483648) by lia.
    assert (Hstore : aget (Image.i32set block i new) i = new).
    { unfold Image.i32set, aget. rewrite list_lookup_insert_eq by exact Hi.
      simpl. apply toInt32_id. unfold int32. lia. }
    rewrite Hstore.
    replace (new =? 0) with false by (symmetry; apply Z.eqb_neq; lia).
    replace (new =? 1) with false by (symmetry; apply Z.eqb_neq; lia).
    cbn [orb]. exists new. unfold Image.i32set.
    rewrite toInt32_id by (unfold int32; lia).
    split; [reflexivity|]. split; [unfold int32; lia|].
    split; [apply usable_spec; lia|].
    intros _. rewrite lsb_mod. lia.
  - apply Z.ltb_ge in Pos.
    set (newAbs := if negb (b =? 0) then Image.js_or (- c) 1
                   else Image.js_and (- c) (Image.js_not 1)).
    assert (Hnew : Image.toInt32 (- newAbs) = c - 1 + 2 * (c mod 2)
                   \/ (c = -2147483648 /\ Image.toInt32 (- newAbs) = 2147483647)).
    { unfold newAbs. destruct (b =? 0) eqn:B; cbn [negb].
      - apply Z.eqb_eq in B. rewrite js_and_not_1.
        unfold Image.toInt32. lia.
      - apply Z.eqb_neq in B. rewrite js_or_1.
        unfold Image.toInt32. lia. }
    assert (Hnz : newAbs <> 0 /\ newAbs <> 1).
    { unfold newAbs. destruct (b =? 0) eqn:B; cbn [negb].
      - apply Z.eqb_eq in B. rewrite js_and_not_1.
        unfold Image.toInt32. lia.
      - apply Z.eqb_neq in B. rewrite js_or_1.
        unfold Image.toInt32. lia. }
    replace (newAbs =? 0) with false by (symmetry; apply Z.eqb_neq; lia).
    replace (newAbs =? 1) with false by (symmetry; apply Z.eqb_neq; lia).
    cbn [orb]. exists (Image.toInt32 (- newAbs)). unfold Image.i32set.
    split; [reflexivity|]. split; [apply toInt32_int32|].
    split; [apply usable_spec; lia|].
    intros _. rewrite lsb_mod. lia.
Qed.

(** ** JPEG DCT engine: embedding then extracting *)

(** Number of usable coefficients of a block from index [i] on. *)
Definition usableFrom (i : nat) (block : list Z) : nat :=
  length (List.filter Image.usable (drop i block)).

Definition wfBlock (block : list Z) : Prop :=
  length block = 64%nat /\ Forall int32 block.

Definition skipped (useChroma : bool) (component : Image.JPEGComponentCoefficients)
    : bool :=
  negb useChroma && negb (Image.id component =? 1).

Definition sumOf {A : Type} (cnt : A -> nat) (l : list A) : nat :=
  foldr (fun a acc => (cnt a + acc)%nat) 0%nat l.

(** Usable AC coefficients, in the components the engine visits. *)
Definition usableInComponent (useChroma : bool)
    (component : Image.JPEGComponentCoefficients) : nat :=
  if skipped useChroma component then 0%nat
  else sumOf (sumOf (usableFrom 1)) (Image.blocks component).

Definition usableCount (useChroma : bool)
    (coefficients : Image.JPEGQuantizedCoefficients) : nat :=
  sumOf (usableInComponent useChroma) (Image.components coefficients).

(** Every block is an [Int32Array] of 64 coefficients. *)
Definition wfComponent (component : Image.JPEGComponentCoefficients) : Prop :=
  Forall (Forall wfBlock) (Image.blocks component).

Definition wfCoefficients (coefficients : Image.JPEGQuantizedCoefficients) : Prop :=
  Forall wfComponent (Image.components coefficients).

(** Two blocks with the same usable positions. *)
Definition sameUsableBlock (block block' : list Z) : Prop :=
  forall j, Image.usable (aget block' j) = Image.usable (aget block j).

Definition sameUsableComponent (component component' : Image.JPEGComponentCoefficients)
    : Prop :=
  Image.id component' = Image.id component /\
  Forall2 (Forall2 sameUsableBlock) (Image.blocks component) (Image.blocks component').

(** Two coefficient objects of the same shape whose coefficients are usable
    at the same positions: the positions both loops visit. *)
Definition sameUsable (coefficients coefficients' : Image.JPEGQuantizedCoefficients)
    : Prop :=
  Forall2 sameUsableComponent
    (Image.components coefficients) (Image.components coefficients').

Lemma Forall2_same {A : Type} (R : A -> A -> Prop) (l : list A) :
  (forall a, R a a) -> Forall2 R l l.
Proof. intros H. induction l; constructor; auto. Qed.

Lemma sameUsableComponent_refl (component : Image.JPEGComponentCoefficients) :
  sameUsableComponent component component.
Proof.
  split; [reflexivity|].
  apply Forall2_same. intros row. apply Forall2_same. intros block j. reflexivity.
Qed.

Section JpegRoundTrip.
Variable m : list Z.

(** The extractor's array holds the message bits up to its write position. *)
Definition agrees (st : list Z * nat) : Prop :=
  length (fst st) = length m /\ (snd st <= length m)%nat /\
  forall j, (j < snd st)%nat -> aget (fst st) j = Image.js_and (aget m j) 1.

(** An embedding step and the extracting step that mirrors it: the embedder
    keeps the usable positions, and the extractor, run on what the embedder
    left, advances as far and keeps [agrees]. *)
Definition roundTrip {A : Type} (wf : A -> Prop) (same : A -> A -> Prop)
    (cnt : A -> nat) (emb : A -> nat -> A * nat)
    (ext : A -> list Z * nat -> list Z * nat) : Prop :=
  forall a k bits, wf a -> agrees (bits, k) ->
    wf (fst (emb a k)) /\
    same a (fst (emb a k)) /\
    snd (emb a k) = Nat.min (length m) (k + cnt a) /\
    agrees (ext (fst (emb a k)) (bits, k)) /\
    snd (ext (fst (emb a k)) (bits, k)) = snd (emb a k).

Lemma usableFrom_step (i : nat) (block : list Z) :
  (i < length block)%nat ->
  usableFrom i block
  = ((if Image.usable (aget block i) then 1 else 0)
     + usableFrom (Datatypes.S i) block)%nat.
Proof.
  intros Hi. unfold usableFrom.
  rewrite (drop_S block (aget block i) i) by (apply lookup_aget; exact Hi).
  simpl. destruct (Image.usable (aget block i)); reflexivity.
Qed.

Lemma agrees_write (bits : list Z) (k : nat) (c : Z) :
  agrees (bits, k) -> (k < length m)%nat ->
  lsb c = Image.js_and (aget m k) 1 ->
  agrees (aset bits k (lsb c), Datatypes.S k).
Proof.
  intros (Hl & Hk & Hb) Hlt Hc. unfold agrees in *. cbn [fst snd] in *.
  split; [rewrite length_aset; exact Hl|]. split; [lia|].
  intros j Hj. destruct (Nat.eq_dec j k) as [->|Hne].
  - rewrite aget_aset_eq by lia. rewrite Hc, js_and_1.
    apply u8_byte. unfold is_byte. lia.
  - rewrite aget_aset_ne by lia. apply Hb. lia.
Qed.

Lemma sameUsable_insert (block : list Z) (i : nat) (c' : Z) :
  (i < length block)%nat ->
  Image.usable c' = Image.usable (aget block i) ->
  sameUsableBlock block (<[i := c']> block).
Proof.
  intros Hi Hu j. unfold aget. destruct (Nat.eq_dec i j) as [<-|Hne].
  - rewrite list_lookup_insert_eq by exact Hi. exact Hu.
  - rewrite list_lookup_insert_ne by exact Hne. reflexivity.
Qed.

Lemma embedBlock_from (n : nat) :
  forall (i : nat) (block : list Z) (k : nat) (bits : list Z),
    (i + n)%nat = length block -> Forall int32 block -> agrees (bits, k) ->
    let r := for_while n i (fun st => negb (Image.exhausted m (snd st)))
               (Image.embedCoeff m) (block, k) in
    let e := for_while n i (fun st => negb (Image.filled (length m) st))
               (Image.extractCoeff (fst r)) (bits, k) in
    length (fst r) = length block /\ Forall int32 (fst r) /\
    take i (fst r) = take i block /\
    sameUsableBlock block (fst r) /\
    snd r = Nat.min (length m) (k + usableFrom i block) /\
    agrees e /\ snd e = snd r.
Proof.
  induction n as [|n IH]; intros i block k bits Hlen Hwf Hag r e.
  - subst r e. simpl. unfold usableFrom. rewrite drop_ge by lia. simpl.
    pose proof Hag as (Hl & Hk & Hb). cbn [snd] in Hk.
    split; [reflexivity|]. split; [exact Hwf|]. split; [reflexivity|].
    split; [intros j; reflexivity|].
    split; [lia|]. split; [exact Hag | reflexivity].
  - pose proof Hag as (Hl0 & Hk0 & Hb0). cbn [fst snd] in Hl0, Hk0.
    destruct (length m <=? k)%nat eqn:Ex.
    + assert (Hr : r = (block, k)).
      { unfold r. rewrite for_while_S. cbn [snd]. unfold Image.exhausted.
        rewrite Ex. reflexivity. }
      assert (He : e = (bits, k)).
      { unfold e. rewrite for_while_S. unfold Image.filled. cbn [snd].
        rewrite Ex. reflexivity. }
      apply Nat.leb_le in Ex. rewrite He, Hr. cbn [fst snd].
      split; [reflexivity|]. split; [exact Hwf|]. split; [reflexivity|].
      split; [intros j; reflexivity|].
      split; [lia|]. split; [exact Hag | reflexivity].
    + assert (Hi : (i < length block)%nat) by lia.
      destruct (embedCoeff_step m block i k Hi (aget_Forall int32 block i Hwf Hi))
        as (c' & Hstep & Hc' & Hu & Hp).
      set (block1 := <[i := c']> block) in *.
      set (k1 := if Image.usable (aget block i) then Datatypes.S k else k) in *.
      set (bits1 := if Image.usable (aget block i) then aset bits k (lsb c') else bits).
      assert (Hr : r = for_while n (Datatypes.S i)
                         (fun st => negb (Image.exhausted m (snd st)))
                         (Image.embedCoeff m) (block1, k1)).
      { unfold r. rewrite for_while_S. cbn [snd]. unfold Image.exhausted at 1.
        rewrite Ex. cbn [negb]. rewrite Hstep. reflexivity. }
      apply Nat.leb_gt in Ex.
      assert (Hag1 : agrees (bits1, k1)).
      { unfold bits1, k1. destruct (Image.usable (aget block i)); [|exact Hag].
        apply agrees_write; [exact Hag | exact Ex | apply Hp; exact Hu]. }
      assert (Hlen1 : (Datatypes.S i + n)%nat = length block1)
        by (unfold block1; rewrite length_insert; lia).
      assert (Hwf1 : Forall int32 block1)
        by (unfold block1; apply Forall_insert; assumption).
      pose proof (IH (Datatypes.S i) block1 k1 bits1 Hlen1 Hwf1 Hag1) as IH1.
      cbv zeta in IH1. rewrite <- Hr in IH1.
      destruct IH1 as (Hl & Hf & Ht & Hsame & Hs & He & Hse).
      assert (Hri : aget (fst r) i = c').
      { assert (E : take (Datatypes.S i) (fst r) !! i
                    = take (Datatypes.S i) block1 !! i) by (rewrite Ht; reflexivity).
        rewrite !lookup_take_lt in E by lia.
        unfold aget. rewrite E. unfold block1.
        rewrite list_lookup_insert_eq by exact Hi. reflexivity. }
      assert (Hx : Image.extractCoeff (fst r) i (bits, k) = (bits1, k1)).
      { unfold Image.extractCoeff. rewrite Hri, Hu. cbn [fst snd].
        unfold bits1, k1. destruct (Image.usable (aget block i)); reflexivity. }
      assert (Hee : e = for_while n (Datatypes.S i)
                          (fun st => negb (Image.filled (length m) st))
                          (Image.extractCoeff (fst r)) (bits1, k1)).
      { unfold e. rewrite for_while_S. unfold Image.filled at 1. cbn [snd].
        rewrite (proj2 (Nat.leb_gt _ _) Ex). cbn [negb]. rewrite Hx. reflexivity. }
      rewrite Hee.
      split; [rewrite Hl; unfold block1; apply length_insert|].
      split; [exact Hf|]. split.
      { assert (E : take i (take (Datatypes.S i) (fst r))
                    = take i (take (Datatypes.S i) block1)) by (rewrite Ht; reflexivity).
        rewrite !take_take in E. replace (Nat.min i (Datatypes.S i)) with i in E by lia.
        rewrite E. unfold block1. apply take_insert_ge. lia. }
      split.
      { intros j. rewrite (Hsame j).
        apply (sameUsable_insert block i c' Hi Hu). }
      split; [|split; [exact He | exact Hse]].
      rewrite Hs, (usableFrom_step i block Hi).
      assert (Hd : usableFrom (Datatypes.S i) block1 = usableFrom (Datatypes.S i) block).
      { unfold usableFrom, block1. rewrite drop_insert_lt by lia. reflexivity. }
      rewrite Hd. unfold k1. destruct (Image.usable (aget block i)); lia.
Qed.

Lemma roundTrip_block :
  roundTrip wfBlock sameUsableBlock (usableFrom 1) (Image.embedBlock m)
    (Image.extractBlock (length m)).
Proof.
  intros block k bits [Hlen Hwf] Hag.
  unfold Image.embedBlock, Image.extractBlock.
  destruct (embedBlock_from 63 1 block k bits)
    as (Hl & Hf & _ & Hsame & Hs & He & Hse);
    [rewrite Hlen; reflexivity | exact Hwf | exact Hag |].
  split; [split; [rewrite Hl; exact Hlen | exact Hf]|].
  split; [exact Hsame|]. split; [exact Hs|]. split; [exact He | exact Hse].
Qed.

Lemma roundTrip_for_of {A : Type} (wf : A -> Prop) (same : A -> A -> Prop)
    (cnt : A -> nat)
    (emb : A -> nat -> A * nat) (ext : A -> list Z * nat -> list Z * nat) :
  (forall a, same a a) ->
  roundTrip wf same cnt emb ext ->
  roundTrip (Forall wf) (Forall2 same) (sumOf cnt)
    (for_of_mut (Image.exhausted m) emb)
    (for_of (Image.filled (length m)) ext).
Proof.
  intros Hrefl RT l. induction l as [|x l IH]; intros k bits Hwf Hag.
  - simpl. destruct Hag as (Hl & Hk & Hb). cbn [snd] in Hk.
    split; [constructor|]. split; [constructor|]. split; [lia|].
    split; [|reflexivity].
    split; [exact Hl|]. split; [exact Hk | exact Hb].
  - destruct (Image.exhausted m k) eqn:Ex.
    + assert (He : for_of_mut (Image.exhausted m) emb (x :: l) k = (x :: l, k))
        by (cbn [for_of_mut]; rewrite Ex; reflexivity).
      assert (Hx : for_of (Image.filled (length m)) ext (x :: l) (bits, k) = (bits, k))
        by (cbn [for_of]; unfold Image.filled; cbn [snd];
            unfold Image.exhausted in Ex; rewrite Ex; reflexivity).
      rewrite He. cbn [fst snd]. rewrite Hx.
      unfold Image.exhausted in Ex. apply Nat.leb_le in Ex.
      pose proof Hag as (Hl & Hk & Hb). cbn [snd] in Hk.
      split; [exact Hwf|]. split; [apply Forall2_same; exact Hrefl|].
      split; [lia|]. split; [exact Hag | reflexivity].
    + inversion Hwf as [|? ? Hx Hrest]; subst.
      destruct (RT x k bits Hx Hag) as (Hwx & Hsx' & Hkx & Hax & Hsx).
      destruct (emb x k) as [x' k1] eqn:Ee. cbn [fst snd] in *.
      destruct (ext x' (bits, k)) as [bits1 k1'] eqn:Ex1. cbn [snd] in Hsx. subst k1'.
      destruct (IH k1 bits1 Hrest Hax) as (Hwr & Hsr' & Hkr & Har & Hsr).
      destruct (for_of_mut (Image.exhausted m) emb l k1) as [l' k2] eqn:El.
      cbn [fst snd] in *.
      assert (He : for_of_mut (Image.exhausted m) emb (x :: l) k = (x' :: l', k2))
        by (cbn [for_of_mut]; rewrite Ex, Ee, El; reflexivity).
      assert (Hxx : for_of (Image.filled (length m)) ext (x' :: l') (bits, k)
                    = for_of (Image.filled (length m)) ext l' (bits1, k1))
        by (cbn [for_of]; unfold Image.filled at 1; cbn [snd];
            unfold Image.exhausted in Ex; rewrite Ex, Ex1; reflexivity).
      rewrite He. cbn [fst snd]. rewrite Hxx.
      split; [constructor; assumption|]. split; [constructor; assumption|].
      split; [change (sumOf cnt (x :: l)) with (cnt x + sumOf cnt l)%nat; lia|].
      split; [exact Har | exact Hsr].
Qed.

Lemma roundTrip_component (useChroma : bool) :
  roundTrip wfComponent sameUsableComponent (usableInComponent useChroma)
    (Image.embedComponent m useChroma)
    (Image.extractComponent (length m) useChroma).
Proof.
  intros component k bits Hwf Hag.
  unfold Image.embedComponent, Image.extractComponent, usableInComponent, skipped.
  destruct (negb useChroma && negb (Image.id component =? 1)) eqn:Sk.
  - cbn [fst snd]. rewrite Sk. pose proof Hag as (Hl & Hk & Hb). cbn [snd] in Hk.
    split; [exact Hwf|]. split; [apply sameUsableComponent_refl|].
    split; [lia|]. split; [exact Hag | reflexivity].
  - assert (RT : roundTrip (Forall (Forall wfBlock))
                   (Forall2 (Forall2 sameUsableBlock))
                   (sumOf (sumOf (usableFrom 1)))
                   (for_of_mut (Image.exhausted m) (Image.embedRow m))
                   (for_of (Image.filled (length m)) (Image.extractRow (length m)))).
    { apply roundTrip_for_of.
      - intros row. apply Forall2_same. intros block j. reflexivity.
      - apply roundTrip_for_of; [intros block j; reflexivity|].
        apply roundTrip_block. }
    destruct (RT (Image.blocks component) k bits Hwf Hag)
      as (Hw & Hsame & Hs & Ha & Hse).
    destruct (for_of_mut (Image.exhausted m) (Image.embedRow m)
                (Image.blocks component) k) as [blocks' k'] eqn:E.
    cbn [fst snd Image.id Image.blocks] in *. rewrite Sk.
    split; [exact Hw|]. split; [split; [reflexivity | exact Hsame]|].
    split; [exact Hs|]. split; [exact Ha | exact Hse].
Qed.

(** What the engine does with a message [m] on well-formed coefficients. *)
Lemma embed_then_extract (coefficients : Image.JPEGQuantizedCoefficients)
    (useChroma : bool) :
  wfCoefficients coefficients ->
  let capacity := usableCount useChroma coefficients in
  ((length m <= capacity)%nat ->
   exists embedded,
     Image.embedInCoefficients coefficients m useChroma = Ok embedded /\
     wfCoefficients embedded /\
     sameUsable coefficients embedded /\
     Image.extractFromCoefficients embedded (length m) useChroma
     = map (fun b => Image.js_and b 1) m) /\
  ((capacity < length m)%nat ->
   Image.embedInCoefficients coefficients m useChroma
   = Throw (CapacityExceeded (Z.of_nat (length m)) (Z.of_nat capacity))).
Proof.
  intros Hwf capacity.
  pose proof (roundTrip_for_of _ _ _ _ _ sameUsableComponent_refl
                (roundTrip_component useChroma)) as RT.
  assert (Hag : agrees (new_Uint8Array (length m), 0%nat)).
  { split; [apply length_new|]. split; [cbn; lia|]. intros j Hj. cbn in Hj. lia. }
  destruct (RT (Image.components coefficients) 0%nat _ Hwf Hag)
    as (Hw & Hsame & Hs & Ha & Hse).
  unfold Image.embedInCoefficients, Image.extractFromCoefficients.
  destruct (for_of_mut (Image.exhausted m) (Image.embedComponent m useChroma)
              (Image.components coefficients) 0%nat) as [components' k] eqn:E.
  cbn [fst snd] in *. fold (usableCount useChroma coefficients) in Hs. fold capacity in Hs.
  split; intros Hcap.
  - replace (k <? length m)%nat with false by (symmetry; apply Nat.ltb_ge; lia).
    eexists. split; [reflexivity|]. split; [exact Hw|]. split; [exact Hsame|].
    cbn [Image.components].
    destruct Ha as (Hl & _ & Hb). rewrite Hse in Hb.
    apply array_ext; [rewrite length_map; exact Hl|].
    intros i Hi. rewrite Hb by lia.
    unfold aget. rewrite list_lookup_fmap.
    destruct (m !! i); reflexivity.
  - replace (k <? length m)%nat with true by (symmetry; apply Nat.ltb_lt; lia).
    rewrite Hs. f_equal. f_equal. lia.
Qed.

End JpegRoundTrip.

Lemma bits_masked (m : list Z) :
  Forall is_bit m -> map (fun b => Image.js_and b 1) m = m.
Proof.
  induction 1 as [|b m Hb _ IH]; [reflexivity|].
  simpl. rewrite IH, js_and_1. f_equal. destruct Hb as [-> | ->]; reflexivity.
Qed.

(** C2.  For every coefficient object [K] whose blocks are 64-entry
    [Int32Array]s, every bit sequence [m] and either setting of [useChroma]:
    when [K] has at least [|m|] usable AC coefficients in the visited
    components, [embedInCoefficients] succeeds, leaves every coefficient
    usable or not as it was, so that both loops visit the same positions, and
    [extractFromCoefficients (embedInCoefficients K m) |m| = m]; with fewer
    usable coefficients it throws the capacity error naming [|m|] and their
    number. *)
Theorem extractFromCoefficients_embedInCoefficients
    (K : Image.JPEGQuantizedCoefficients) (m : list Z) (useChroma : bool) :
  wfCoefficients K ->
  Forall is_bit m ->
  ((length m <= usableCount useChroma K)%nat ->
   exists embedded,
     Image.embedInCoefficients K m useChroma = Ok embedded /\
     sameUsable K embedded /\
     Image.extractFromCoefficients embedded (length m) useChroma = m) /\
  ((usableCount useChroma K < length m)%nat ->
   Image.embedInCoefficients K m useChroma
   = Throw (CapacityExceeded (Z.of_nat (length m))
              (Z.of_nat (usableCount useChroma K)))).
Proof.
  intros Hwf Hm.
  destruct (embed_then_extract m K useChroma Hwf) as [Hfit Hover].
  split; [|exact Hover].
  intros Hcap. destruct (Hfit Hcap) as (embedded & He & _ & Hsame & Hx).
  exists embedded. split; [exact He|]. split; [exact Hsame|].
  rewrite Hx. apply bits_masked. exact Hm.
Qed.

Lemma bits_dec (m : list Z) :
  forallb (fun b => (b =? 0) || (b =? 1)) m = true -> Forall is_bit m.
Proof.
  intros H. apply List.Forall_forall. intros b Hb.
  rewrite List.forallb_forall in H. specialize (H b Hb).
  apply orb_true_iff in H. unfold is_bit. rewrite !Z.eqb_eq in H. exact H.
Qed.

(** One luminance block with five usable AC coefficients. *)
Definition sampleCoefficients : Image.JPEGQuantizedCoefficients :=
  {| Image.components :=
       [ {| Image.id := 1;
            Image.blocks := [[ [90; 5; 2; -3; 0; 1; 7; -2; -1] ++ replicate 55 0 ]] |} ] |}.

Lemma sampleCoefficients_wf : wfCoefficients sampleCoefficients.
Proof.
  unfold wfCoefficients, wfComponent, sampleCoefficients. simpl.
  repeat constructor; unfold int32; lia.
Qed.

Lemma extractFromCoefficients_embedInCoefficients_witness :
  exists embedded,
    Image.embedInCoefficients sampleCoefficients [1; 1; 0; 0; 1] true = Ok embedded /\
    sameUsable sampleCoefficients embedded /\
    Image.extractFromCoefficients embedded (length [1; 1; 0; 0; 1]) true
    = [1; 1; 0; 0; 1].
Proof.
  apply (proj1 (extractFromCoefficients_embedInCoefficients
                  sampleCoefficients [1; 1; 0; 0; 1] true sampleCoefficients_wf
                  (bits_dec [1; 1; 0; 0; 1] eq_refl))).
  vm_compute. apply le_n.
Defined.

(** ** A cover text that ends in zero-width characters

    With the cover U+200B U+200C the first START sentinel the decoder finds
    is made of the cover and of the first unit of the real sentinel.  The
    header is then read two characters early, whatever the host and the
    payload are, and its type byte comes out as 216. *)

Lemma digits_take2 (v : Z) :
  is_byte v ->
  flat_map digitOf (take 2 (zwcOfByte v)) = take 2 (Text.byteDigits v).
Proof.
  intros Hv. apply list_eqb_eq.
  apply (byte_cases (fun v => list_eqb (flat_map digitOf (take 2 (zwcOfByte v)))
                                (take 2 (Text.byteDigits v)))); [|exact Hv].
  vm_compute. reflexivity.
Qed.

Lemma shifted_header_type (r0 r1 r2 r3 : Z) :
  is_byte r0 -> is_byte r1 -> is_byte r2 -> is_byte r3 ->
  exists b1 b2 b3 b4,
    Text.zwcToBytes
      ([0x200c; 0x200b] ++ zwcOfByte 1 ++ zwcOfByte r0 ++ zwcOfByte r1
       ++ zwcOfByte r2 ++ take 2 (zwcOfByte r3))
    = Ok [216; b1; b2; b3; b4].
Proof.
  intros H0 H1 H2 H3. unfold Text.zwcToBytes.
  rewrite zwcDigits_flat_map, !flat_map_app.
  rewrite !digits_zwcOfByte, digits_take2
    by first [assumption | unfold is_byte; lia].
  change (flat_map digitOf [0x200c; 0x200b]) with [1; 0].
  cbv [Text.byteDigits for_loop fst snd app take length Nat.modulo Nat.div
       Nat.divmod Nat.eqb negb Nat.mul Nat.add Nat.sub aget lookup list_lookup
       default id].
  do 4 eexists. reflexivity.
Qed.

Lemma zwc_cover_shifts_header (P : Text.Primitives) (pre s : list Z)
    (p : option (list Z)) (rnd : Text.Entropy) :
  noZWC pre ->
  Text.decodeText P
    (Text.encodeText P (pre ++ [0x200b; 0x200c]) s p false rnd) p
  = Throw (DecodingFailed (PayloadTypeMismatch 216)).
Proof.
  intros Hpre.
  unfold Text.encodeText. fold (payloadOf P s p rnd).
  set (payload := payloadOf P s p rnd).
  assert (Hframe : exists r0 r1 r2 r3 rest,
             Text.frame Text.PAYLOAD_TYPE_TEXT payload = 1 :: r0 :: r1 :: r2 :: r3 :: rest /\
             is_byte r0 /\ is_byte r1 /\ is_byte r2 /\ is_byte r3 /\ Forall is_byte rest).
  { unfold Text.frame, setUint32. simpl map.
    do 5 eexists. split; [reflexivity|].
    repeat (split; [apply u8_is_byte|]).
    induction payload; constructor; [apply u8_is_byte | assumption]. }
  destruct Hframe as (r0 & r1 & r2 & r3 & rest & -> & H0 & H1 & H2 & H3 & Hrest).
  rewrite bytesToZWC_flat_map, !flat_map_cons.
  set (tail := drop 2 (zwcOfByte r3) ++ flat_map zwcOfByte rest ++ Text.END_SENTINEL).
  set (head := [0x200c; 0x200b] ++ zwcOfByte 1 ++ zwcOfByte r0 ++ zwcOfByte r1
               ++ zwcOfByte r2 ++ take 2 (zwcOfByte r3)).
  assert (Hstega :
            (pre ++ [0x200b; 0x200c]) ++ Text.START_SENTINEL
            ++ (zwcOfByte 1 ++ zwcOfByte r0 ++ zwcOfByte r1 ++ zwcOfByte r2
                ++ zwcOfByte r3 ++ flat_map zwcOfByte rest) ++ Text.END_SENTINEL
            = pre ++ Text.START_SENTINEL ++ (head ++ tail)).
  { unfold head, tail. rewrite <- (take_drop 2 (zwcOfByte r3)) at 1.
    rewrite <- !app_assoc. reflexivity. }
  rewrite Hstega.
  assert (Hzwc : Forall (fun c => Text.isZWC c = true) (head ++ tail)).
  { destruct sentinels_zwc as [_ He].
    pose proof (zwcOfByte_zwc r3 H3) as Hz3.
    unfold head, tail.
    repeat (apply Forall_app; split);
      first [ apply zwcOfByte_zwc; first [assumption | unfold is_byte; lia]
            | apply Forall_take; exact Hz3
            | apply Forall_drop; exact Hz3
            | apply bytesToZWC_zwc; exact Hrest
            | exact He
            | repeat constructor ]. }
  assert (Hhead : length head = 20%nat) by reflexivity.
  unfold Text.decodeText.
  rewrite (indexOf_app pre Text.START_SENTINEL (head ++ tail) 0x200b [0x200c; 0x200b]);
    [|reflexivity|eapply Forall_impl; [exact Hpre|]; intros x Hx ->; discriminate].
  cbv zeta. rewrite extractZWCChars_filter.
  rewrite drop_app_add, drop_app_length, (filter_all _ Hzwc).
  replace (length (head ++ tail) <? 20)%nat with false
    by (symmetry; apply Nat.ltb_ge; rewrite length_app, Hhead; lia).
  unfold Text.substring at 1. rewrite drop_0.
  rewrite (take_app_length' head tail (20 - 0)) by (rewrite Hhead; reflexivity).
  destruct (shifted_header_type r0 r1 r2 r3 H0 H1 H2 H3) as (b1 & b2 & b3 & b4 & Hh).
  fold head in Hh. rewrite Hh. reflexivity.
Qed.

(** * Further properties of the code *)

(** ** Pixel LSB engine: the bit stream *)

(** Index of channel byte number [r]: every fourth byte, the alpha byte of
    its pixel, is passed over. *)
Definition chan (r : nat) : nat := (r + r / 3)%nat.

(** Bit [s] of the stream both engines walk at depth [bitDepth]: bit
    [s mod bitDepth] of channel byte number [s / bitDepth]. *)
Definition streamBit (a : list Z) (bitDepth : Z) (s : nat) : Z :=
  Z.land (Z.shiftr (aget a (chan (s / Z.to_nat bitDepth)))
            (Z.of_nat (s mod Z.to_nat bitDepth))) 1.

Lemma chan_rank (i : nat) : (i mod 4 <> 3)%nat -> chan (rank i) = i.
Proof. unfold chan, rank. intros H. lia. Qed.

Lemma chan_other (i r : nat) :
  (i mod 4 <> 3)%nat -> r <> rank i -> chan r <> i.
Proof. unfold chan, rank. intros H Hr. lia. Qed.

Lemma stream_position (r D j : nat) :
  (j < D)%nat -> ((r * D + j) / D = r /\ (r * D + j) mod D = j)%nat.
Proof.
  intros H. split.
  - symmetry. apply (Nat.div_unique _ _ _ j); lia.
  - symmetry. apply (Nat.mod_unique _ _ r); lia.
Qed.

Lemma land_1_testbit (v : Z) : Z.land v 1 = Z.b2z (Z.testbit v 0).
Proof. rewrite Z.bit0_mod. apply land_1_mod. Qed.

Lemma bit_of_shiftr (v : Z) (j : nat) :
  Z.land (Z.shiftr v (Z.of_nat j)) 1 = Z.b2z (Z.testbit v (Z.of_nat j)).
Proof.
  rewrite land_1_testbit. rewrite Z.shiftr_spec by lia. reflexivity.
Qed.

(** What the loops of [extractLSB] keep true, [s] being the stream position
    they have reached. *)
Definition readInv (imageData : list Z) (bitDepth : Z) (bitCount bitOffset : nat)
    (actualBitCount : Z) (s : nat) (st : Image.extractState) : Prop :=
  length (Image.bits st) = bitCount /\
  Z.of_nat (Image.bitIndex st) <= Z.max 0 actualBitCount /\
  (forall k, (k < Image.bitIndex st)%nat ->
     aget (Image.bits st) k = streamBit imageData bitDepth (bitOffset + k)) /\
  (forall k, (Image.bitIndex st <= k)%nat -> aget (Image.bits st) k = 0) /\
  (Image.stopped st = true -> actualBitCount <= Z.of_nat (Image.bitIndex st)) /\
  (Z.of_nat (Image.bitIndex st) < actualBitCount ->
     Image.bitsSkipped st = Nat.min s bitOffset /\
     Image.bitIndex st = (s - bitOffset)%nat).

Lemma extractInner_stream (imageData : list Z) (bitDepth : Z)
    (bitCount bitOffset : nat) (actualBitCount : Z) (i : nat)
    (st : Image.extractState) :
  1 <= bitDepth ->
  actualBitCount <= Z.of_nat bitCount ->
  (i mod 4 <> 3)%nat ->
  Image.stopped st = false ->
  readInv imageData bitDepth bitCount bitOffset actualBitCount
    (rank i * Z.to_nat bitDepth) st ->
  let st' := Image.extractInner imageData bitDepth bitOffset actualBitCount i st in
  readInv imageData bitDepth bitCount bitOffset actualBitCount
    (rank (Datatypes.S i) * Z.to_nat bitDepth)
    {| Image.bits := Image.bits st'; Image.bitIndex := Image.bitIndex st';
       Image.bitsSkipped := Image.bitsSkipped st'; Image.stopped := false |}.
Proof.
  intros Hd HA Ha Hs H. cbv zeta. unfold Image.extractInner.
  set (D := Z.to_nat bitDepth) in *.
  assert (HD : (0 < D)%nat) by (unfold D; lia).
  match goal with
  | |- context [for_while D 0 ?c ?f st] =>
      destruct (for_while_inv_idx
                  (fun j t => readInv imageData bitDepth bitCount bitOffset
                                actualBitCount (rank i * D + j) t)
                  c f D 0%nat st) as (j & Hj & Hinv & Hstop)
  end.
  - replace (rank i * D + 0)%nat with (rank i * D)%nat by lia. exact H.
  - intros j t Hj _ (Hl & Hb & Hr & Hz & Hst & Hpos).
    destruct (Image.bitsSkipped t <? bitOffset)%nat eqn:Esk.
    { apply Nat.ltb_lt in Esk. unfold readInv. simpl.
      split; [exact Hl|]. split; [exact Hb|]. split; [exact Hr|].
      split; [exact Hz|]. split; [discriminate|].
      intros Hlt. destruct (Hpos Hlt) as [H1 H2]. lia. }
    apply Nat.ltb_ge in Esk.
    destruct (actualBitCount <=? Z.of_nat (Image.bitIndex t)) eqn:Eact.
    { apply Z.leb_le in Eact. unfold readInv. simpl.
      split; [exact Hl|]. split; [exact Hb|]. split; [exact Hr|].
      split; [exact Hz|]. split; [intros _; exact Eact|]. lia. }
    apply Z.leb_gt in Eact. destruct (Hpos Eact) as [H1 H2].
    unfold readInv. simpl.
    split; [rewrite length_aset; exact Hl|]. split; [lia|]. split.
    + intros k Hk.
      destruct (Nat.eq_dec k (Image.bitIndex t)) as [->|Hne].
      * rewrite aget_aset_eq by lia. rewrite u8_land_1.
        unfold streamBit. fold D.
        replace (bitOffset + Image.bitIndex t)%nat with (rank i * D + j)%nat by lia.
        destruct (stream_position (rank i) D j ltac:(lia)) as [-> ->].
        rewrite chan_rank by exact Ha. reflexivity.
      * rewrite aget_aset_ne by lia. apply Hr. lia.
    + split.
      * intros k Hk. rewrite aget_aset_ne by lia. apply Hz. lia.
      * split; [discriminate|]. intros _. lia.
  - destruct Hinv as (Hl & Hb & Hr & Hz & Hst & Hpos).
    unfold readInv. simpl.
    split; [exact Hl|]. split; [exact Hb|]. split; [exact Hr|].
    split; [exact Hz|]. split; [discriminate|].
    intros Hlt. rewrite (rank_channel i Ha).
    destruct (Nat.eq_dec j D) as [->|Hne].
    + destruct (Hpos Hlt) as [H1 H2]. lia.
    + assert (Hjl : (j < 0 + D)%nat) by lia.
      specialize (Hstop Hjl). apply negb_false_iff in Hstop.
      specialize (Hst Hstop). lia.
Qed.

(** The bits [extractLSB] returns: those of the stream from position
    [bitOffset] on, as many as were asked for and are there, and zeros after
    them. *)
Lemma extractLSB_stream (imageData : list Z) (bitCount : nat) (bitDepth : Z)
    (bitOffset : nat) :
  1 <= bitDepth <= 4 ->
  exists bits,
    Image.extractLSB imageData bitCount bitDepth bitOffset = Ok bits /\
    length bits = bitCount /\
    (forall k,
       Z.of_nat k < Z.min (Z.of_nat bitCount)
                      (Image.maxBits imageData bitDepth - Z.of_nat bitOffset) ->
       aget bits k = streamBit imageData bitDepth (bitOffset + k)) /\
    (forall k,
       Z.min (Z.of_nat bitCount)
         (Image.maxBits imageData bitDepth - Z.of_nat bitOffset) <= Z.of_nat k ->
       aget bits k = 0).
Proof.
  intros Hd. unfold Image.extractLSB, Image.invalidBitDepth.
  replace (bitDepth <? 1) with false by (symmetry; apply Z.ltb_ge; lia).
  replace (4 <? bitDepth) with false by (symmetry; apply Z.ltb_ge; lia).
  cbn [orb]. cbv zeta. eexists. split; [reflexivity|].
  set (A := Z.min (Z.of_nat bitCount)
              (Image.maxBits imageData bitDepth - Z.of_nat bitOffset)).
  set (D := Z.to_nat bitDepth).
  match goal with
  | |- context [for_while ?n 0 ?c ?f ?s] =>
      destruct (for_while_inv_idx
                  (fun i t => readInv imageData bitDepth bitCount bitOffset A
                                (rank i * D) t /\ Image.stopped t = false)
                  c f n 0%nat s) as (i & Hi & [Hinv Hns] & Hstop)
  end.
  - split; [|reflexivity]. unfold readInv. simpl.
    split; [apply length_new|]. split; [lia|]. split; [intros k Hk; lia|].
    split; [intros k _; apply aget_new|]. split; [discriminate|].
    intros _. unfold rank. simpl. lia.
  - intros i t Hi _ [Hinv Hns].
    destruct (i mod 4 =? 3)%nat eqn:Ha.
    + apply Nat.eqb_eq in Ha. rewrite (rank_alpha i Ha). split; assumption.
    + apply Nat.eqb_neq in Ha. split; [|reflexivity].
      apply (extractInner_stream imageData bitDepth bitCount bitOffset A i t);
        try assumption; unfold A; lia.
  - destruct Hinv as (Hl & Hb & Hr & Hz & _ & Hpos).
    assert (Hfull : A <= Z.of_nat (Image.bitIndex
                      (for_while (length imageData) 0
                         (fun st => Z.of_nat (Image.bitIndex st) <? A)
                         (fun i st =>
                            if (i mod 4 =? 3)%nat then st
                            else
                              {| Image.bits := Image.bits
                                   (Image.extractInner imageData bitDepth bitOffset A i st);
                                 Image.bitIndex := Image.bitIndex
                                   (Image.extractInner imageData bitDepth bitOffset A i st);
                                 Image.bitsSkipped := Image.bitsSkipped
                                   (Image.extractInner imageData bitDepth bitOffset A i st);
                                 Image.stopped := false |})
                         {| Image.bits := new_Uint8Array bitCount; Image.bitIndex := 0;
                            Image.bitsSkipped := 0; Image.stopped := false |}))).
    { destruct (Nat.eq_dec i (length imageData)) as [->|Hne].
      - apply Z.nlt_ge. intros Hlt. destruct (Hpos Hlt) as [H1 H2].
        unfold A, Image.maxBits, rank in *. fold D in H2.
        assert (HD : Z.of_nat D = bitDepth) by (unfold D; lia).
        nia.
      - assert (Hil : (i < 0 + length imageData)%nat) by lia.
        specialize (Hstop Hil). apply Z.ltb_ge in Hstop. exact Hstop. }
    split; [exact Hl|]. split.
    + intros k Hk. apply Hr. lia.
    + intros k Hk. apply Hz. lia.
Qed.

(** The bits [gatherBits] packs: message bit [k + j] at position [j], for
    the positions that are still inside the message, and nothing above. *)
Lemma gatherBits_bits (messageBits : list Z) (bitDepth : Z) (k : nat) :
  (k <= length messageBits)%nat ->
  let e := fst (Image.gatherBits messageBits bitDepth k) in
  let taken := (Nat.min (length messageBits) (k + Z.to_nat bitDepth) - k)%nat in
  forall t, 0 <= t ->
    Z.testbit e t
    = (t <? Z.of_nat taken) && Z.testbit (aget messageBits (k + Z.to_nat t)) 0.
Proof.
  intros Hk. cbv zeta. unfold Image.gatherBits.
  set (n := Z.to_nat bitDepth).
  match goal with
  | |- context [for_while n 0 ?c ?f ?s] =>
      destruct (for_while_inv_idx
                  (fun j (st : Z * nat) =>
                     snd st = (k + j)%nat /\ (k + j <= length messageBits)%nat /\
                     forall t, 0 <= t ->
                       Z.testbit (fst st) t
                       = (t <? Z.of_nat j)
                         && Z.testbit (aget messageBits (k + Z.to_nat t)) 0)
                  c f n 0%nat s) as (j & Hj & (He & Hle & Hbits) & Hstop)
  end.
  - cbn [fst snd]. split; [lia|]. split; [lia|]. intros t Ht.
    rewrite Z.bits_0.
    replace (t <? Z.of_nat 0) with false by (symmetry; apply Z.ltb_ge; lia).
    reflexivity.
  - intros j st Hj Hc (He & Hle & Hbits). cbn [fst snd] in *.
    apply Nat.ltb_lt in Hc. split; [lia|]. split; [lia|].
    intros t Ht. rewrite Z.lor_spec, Hbits by exact Ht.
    rewrite He.
    destruct (Z.lt_trichotomy t (Z.of_nat j)) as [Hlt|[Heq|Hgt]].
    + rewrite Z.shiftl_spec_low by exact Hlt.
      replace (t <? Z.of_nat j) with true by (symmetry; apply Z.ltb_lt; lia).
      replace (t <? Z.of_nat (Datatypes.S j)) with true
        by (symmetry; apply Z.ltb_lt; lia).
      rewrite orb_false_r. reflexivity.
    + subst t. rewrite Z.shiftl_spec by lia.
      replace (Z.of_nat j - Z.of_nat j) with 0 by lia.
      replace (Z.of_nat j <? Z.of_nat j) with false by (symmetry; apply Z.ltb_ge; lia).
      replace (Z.of_nat j <? Z.of_nat (Datatypes.S j)) with true
        by (symmetry; apply Z.ltb_lt; lia).
      rewrite Nat2Z.id. cbn [andb orb].
      rewrite land_1_testbit.
      destruct (Z.testbit (aget messageBits (k + j)) 0); reflexivity.
    + rewrite Z.shiftl_spec by lia.
      replace (t <? Z.of_nat j) with false by (symmetry; apply Z.ltb_ge; lia).
      replace (t <? Z.of_nat (Datatypes.S j)) with false
        by (symmetry; apply Z.ltb_ge; lia).
      cbn [andb orb]. rewrite land_1_testbit.
      destruct (Z.testbit (aget messageBits (k + j)) 0); simpl;
        [|apply Z.bits_0].
      change 1 with (2 ^ 0). rewrite Z.pow2_bits_eqb by lia.
      apply Z.eqb_neq. lia.
  - intros t Ht. rewrite Hbits by exact Ht. f_equal.
    destruct (Nat.eq_dec j n) as [->|Hne].
    + apply eq_true_iff_eq. rewrite !Z.ltb_lt. lia.
    + assert (Hlt : (j < 0 + n)%nat) by lia.
      specialize (Hstop Hlt). apply Nat.ltb_ge in Hstop.
      apply eq_true_iff_eq. rewrite !Z.ltb_lt. lia.
Qed.

(** The byte [embedLSB] stores at a channel byte: the old byte with its low
    [bitDepth] bits replaced by the gathered ones. *)
Lemma embedded_byte_bits (old e bitDepth t : Z) :
  1 <= bitDepth <= 4 -> 0 <= t ->
  Z.testbit (u8 (Z.lor (Z.land old (Z.shiftl 255 bitDepth)) e)) t
  = (t <? 8) && ((Z.testbit old t && (bitDepth <=? t)) || Z.testbit e t).
Proof.
  intros Hd Ht. unfold u8. change 256 with (2 ^ 8).
  destruct (t <? 8) eqn:E.
  - apply Z.ltb_lt in E. rewrite Z.mod_pow2_bits_low by lia.
    rewrite Z.lor_spec, Z.land_spec. cbn [andb]. f_equal. f_equal.
    destruct (bitDepth <=? t) eqn:Ed.
    + apply Z.leb_le in Ed. rewrite Z.shiftl_spec by lia.
      replace (Z.testbit 255 (t - bitDepth)) with true; [reflexivity|].
      symmetry. change 255 with (Z.ones 8). apply Z.ones_spec_low. lia.
    + apply Z.leb_gt in Ed. rewrite Z.shiftl_spec_low by lia. reflexivity.
  - apply Z.ltb_ge in E. rewrite Z.mod_pow2_bits_high by lia. reflexivity.
Qed.

Lemma byte_high_bits (v t : Z) : is_byte v -> 8 <= t -> Z.testbit v t = false.
Proof.
  intros Hv Ht. unfold is_byte in Hv.
  destruct (Z.eq_dec v 0) as [->|Hne]; [apply Z.bits_0|].
  apply Z.bits_above_log2; [lia|].
  apply Z.log2_lt_pow2; [lia|]. change (2 ^ 8) with 256 in *.
  assert (2 ^ 8 <= 2 ^ t) by (apply Z.pow_le_mono_r; lia).
  change (2 ^ 8) with 256 in *. lia.
Qed.

(** What the outer loop of [embedLSB] keeps true. *)
Definition writeInv (imageData messageBits : list Z) (bitDepth : Z) (i : nat)
    (st : list Z * nat) : Prop :=
  length (fst st) = length imageData /\
  snd st = Nat.min (length messageBits) (rank i * Z.to_nat bitDepth) /\
  (forall s, (s < snd st)%nat ->
     streamBit (fst st) bitDepth s = Z.land (aget messageBits s) 1) /\
  (forall k, (i <= k)%nat -> aget (fst st) k = aget imageData k) /\
  (forall k, Z.shiftr (aget (fst st) k) bitDepth
             = Z.shiftr (aget imageData k) bitDepth) /\
  Forall is_byte (fst st).

Lemma bits_inj_shiftr (a b d : Z) :
  0 <= d ->
  (forall t, d <= t -> Z.testbit a t = Z.testbit b t) ->
  Z.shiftr a d = Z.shiftr b d.
Proof.
  intros Hd H. apply Z.bits_inj'. intros t Ht.
  rewrite !Z.shiftr_spec by exact Ht. apply H. lia.
Qed.

Lemma Forall_aset (a : list Z) (i : nat) (v : Z) :
  Forall is_byte a -> Forall is_byte (aset a i v).
Proof.
  intros H. unfold aset. apply Forall_insert; [exact H | apply u8_is_byte].
Qed.

Lemma embedLoop_stream (imageData messageBits : list Z) (bitDepth : Z) :
  1 <= bitDepth <= 4 ->
  Forall is_byte imageData ->
  Z.of_nat (length messageBits) <= Image.maxBits imageData bitDepth ->
  let out := fst (Image.embedLoop messageBits bitDepth (length imageData)
                    (imageData, 0%nat)) in
  length out = length imageData /\
  (forall s, (s < length messageBits)%nat ->
     streamBit out bitDepth s = Z.land (aget messageBits s) 1) /\
  (forall k, Z.shiftr (aget out k) bitDepth
             = Z.shiftr (aget imageData k) bitDepth) /\
  Forall is_byte out.
Proof.
  intros Hd HI Hfit. cbv zeta. unfold Image.embedLoop.
  set (D := Z.to_nat bitDepth).
  assert (HD : (0 < D)%nat) by (unfold D; lia).
  match goal with
  | |- context [for_while ?n 0 ?c ?f ?s] =>
      destruct (for_while_inv_idx (writeInv imageData messageBits bitDepth)
                  c f n 0%nat s) as (i & Hi & (Hl & Hb & Hs & Hk & Hh & HB) & Hstop)
  end.
  - unfold writeInv. simpl. split; [reflexivity|]. split.
    { unfold rank. simpl. lia. }
    split; [intros s Hs; lia|]. split; [reflexivity|]. split; [reflexivity|].
    exact HI.
  - intros i st Hi Hc (Hl & Hb & Hs & Hk & Hh & HB). fold D in Hb.
    apply Nat.ltb_lt in Hc.
    assert (Hr : snd st = (rank i * D)%nat) by lia.
    destruct (i mod 4 =? 3)%nat eqn:Ha.
    + apply Nat.eqb_eq in Ha. unfold writeInv. fold D.
      rewrite (rank_alpha i Ha).
      split; [exact Hl|]. split; [exact Hb|]. split; [exact Hs|].
      split; [intros k Hk'; apply Hk; lia|]. split; [exact Hh | exact HB].
    + apply Nat.eqb_neq in Ha.
      pose proof (gatherBits_index messageBits bitDepth (snd st) ltac:(lia)) as Hg.
      pose proof (gatherBits_bits messageBits bitDepth (snd st) ltac:(lia)) as Hv.
      cbv zeta in Hv. fold D in Hg, Hv.
      destruct (Image.gatherBits messageBits bitDepth (snd st)) as [e bi].
      cbn [fst snd] in Hg, Hv. subst bi. unfold writeInv. fold D.
      cbn [fst snd]. rewrite (rank_channel i Ha).
      split; [rewrite length_aset; exact Hl|]. split; [lia|]. split; [|split; [|split]].
      * intros s Hlt. unfold streamBit. fold D.
        destruct (Nat.eq_dec (s / D)%nat (rank i)) as [Heq|Hne].
        -- rewrite Heq, (chan_rank i Ha).
           rewrite aget_aset_eq by lia. rewrite bit_of_shiftr.
           rewrite embedded_byte_bits by lia.
           assert (Hj : (s mod D < D)%nat) by (apply Nat.mod_upper_bound; lia).
           assert (Hsd : s = (rank i * D + s mod D)%nat).
           { rewrite <- Heq. rewrite Nat.mul_comm. apply Nat.div_mod_eq. }
           replace (Z.of_nat (s mod D) <? 8) with true
             by (symmetry; apply Z.ltb_lt; unfold D in *; lia).
           replace (bitDepth <=? Z.of_nat (s mod D)) with false
             by (symmetry; apply Z.leb_gt; unfold D in *; lia).
           rewrite andb_false_r. cbn [andb orb].
           rewrite Hv by lia.
           replace (Z.of_nat (s mod D)
                    <? Z.of_nat (Nat.min (length messageBits) (snd st + D) - snd st))
             with true by (symmetry; apply Z.ltb_lt; lia).
           cbn [andb]. rewrite Nat2Z.id.
           replace (snd st + s mod D)%nat with s by lia.
           symmetry. apply land_1_testbit.
        -- rewrite aget_aset_ne by (apply not_eq_sym, chan_other; assumption).
           apply (Hs s).
           pose proof (Nat.div_mod_eq s D) as Hsd.
           pose proof (Nat.mod_upper_bound s D ltac:(lia)) as Hm.
           assert (Hup : (s < (rank i + 1) * D)%nat) by lia.
           assert (Hq : (s / D < rank i + 1)%nat) by nia.
           assert (Hq' : ((s / D + 1) * D <= rank i * D)%nat)
             by (apply Nat.mul_le_mono_r; lia).
           lia.
      * intros k Hk'. rewrite aget_aset_ne by lia. apply Hk. lia.
      * intros k. destruct (Nat.eq_dec k i) as [->|Hne].
        -- rewrite aget_aset_eq by lia. rewrite <- Hk by lia.
           apply bits_inj_shiftr; [lia|]. intros t Ht.
           rewrite embedded_byte_bits by lia. rewrite Hv by lia.
           replace (bitDepth <=? t) with true by (symmetry; apply Z.leb_le; lia).
           replace (t <? Z.of_nat (Nat.min (length messageBits) (snd st + D) - snd st))
             with false by (symmetry; apply Z.ltb_ge; unfold D; lia).
           cbn [andb]. rewrite orb_false_r, andb_true_r.
           destruct (t <? 8) eqn:E8; [reflexivity|].
           apply Z.ltb_ge in E8. symmetry. apply byte_high_bits; [|exact E8].
           apply aget_Forall; [exact HB | lia].
        -- rewrite aget_aset_ne by lia. apply Hh.
      * apply Forall_aset. exact HB.
  - split; [exact Hl|]. split; [|split; [exact Hh | exact HB]].
    intros s Hlt. apply Hs. rewrite Hb. fold D.
    destruct (Nat.eq_dec i (length imageData)) as [->|Hne].
    + unfold Image.maxBits, rank in *.
      assert (HDz : Z.of_nat D = bitDepth) by (unfold D; lia). nia.
    + assert (Hil : (i < 0 + length imageData)%nat) by lia.
      specialize (Hstop Hil). apply Nat.ltb_ge in Hstop. lia.
Qed.

(** ** Pixel LSB engine: what is written is read back *)

Lemma embedLSB_stream (imageData messageBits : list Z) (bitDepth : Z)
    (out : list Z) :
  Forall is_byte imageData ->
  Image.embedLSB imageData messageBits bitDepth = Ok out ->
  1 <= bitDepth <= 4 /\
  Z.of_nat (length messageBits) <= Image.maxBits out bitDepth /\
  length out = length imageData /\
  (forall s, (s < length messageBits)%nat ->
     streamBit out bitDepth s = Z.land (aget messageBits s) 1) /\
  (forall k, Z.shiftr (aget out k) bitDepth
             = Z.shiftr (aget imageData k) bitDepth) /\
  Forall is_byte out.
Proof.
  intros HI H. apply embedLSB_Ok_inv in H. destruct H as (Hd & Hfit & ->).
  destruct (embedLoop_stream imageData messageBits bitDepth Hd HI Hfit)
    as (Hl & Hs & Hh & HB).
  split; [exact Hd|]. split.
  { unfold Image.maxBits in *. rewrite Hl. exact Hfit. }
  split; [exact Hl|]. split; [exact Hs|]. split; [exact Hh | exact HB].
Qed.

Lemma aget_take_drop (a : list Z) (n o k : nat) :
  (k < n)%nat -> aget (take n (drop o a)) k = aget a (o + k).
Proof.
  intros Hk. unfold aget. rewrite lookup_take_lt by exact Hk.
  rewrite lookup_drop. reflexivity.
Qed.

Lemma aget_map (f : Z -> Z) (a : list Z) (k : nat) :
  (k < length a)%nat -> aget (map f a) k = f (aget a k).
Proof.
  intros Hk. unfold aget. rewrite list_lookup_fmap.
  destruct (lookup_lt_is_Some_2 a k Hk) as [v ->]. reflexivity.
Qed.

(** Reading a stretch of the embedded message back. *)
Lemma extractLSB_of_embedLSB (imageData messageBits : list Z) (bitDepth : Z)
    (out : list Z) (bitCount bitOffset : nat) :
  Forall is_byte imageData ->
  Image.embedLSB imageData messageBits bitDepth = Ok out ->
  (bitOffset + bitCount <= length messageBits)%nat ->
  Image.extractLSB out bitCount bitDepth bitOffset
  = Ok (map (fun v => Z.land v 1) (take bitCount (drop bitOffset messageBits))).
Proof.
  intros HI H Hfit.
  destruct (embedLSB_stream imageData messageBits bitDepth out HI H)
    as (Hd & Hcap & Hl & Hs & _ & _).
  destruct (extractLSB_stream out bitCount bitDepth bitOffset Hd)
    as (bits & Hok & Hlen & Hread & _).
  rewrite Hok. f_equal.
  assert (Htl : length (take bitCount (drop bitOffset messageBits)) = bitCount).
  { rewrite length_take, length_drop. lia. }
  apply array_ext.
  - rewrite length_map, Htl. exact Hlen.
  - rewrite Hlen. intros k Hk.
    rewrite Hread by lia. rewrite Hs by lia.
    rewrite aget_map by lia. rewrite aget_take_drop by exact Hk. reflexivity.
Qed.

Lemma land_1_bits (l : list Z) :
  Forall is_bit l -> map (fun v => Z.land v 1) l = l.
Proof.
  intros H. induction H as [|x l Hx _ IH]; [reflexivity|].
  simpl. rewrite IH. f_equal. destruct Hx as [-> | ->]; reflexivity.
Qed.

Lemma Forall_take_drop (Q : Z -> Prop) (l : list Z) (n o : nat) :
  Forall Q l -> Forall Q (take n (drop o l)).
Proof. intros H. apply Forall_take, Forall_drop, H. Qed.

(** ** Pixel LSB engine: capacity *)

(** C3.  For every RGBA byte buffer [I] (four bytes per pixel), bit stream
    [b] and depth [d] in 1..4, [embedLSB I b d] throws the capacity error
    exactly when [|b|] is greater than [floor (|I| / 4) * 3 * d] bits, and a
    bit stream of at most that many bits, one exactly at capacity included,
    is embedded: the call returns an output buffer of the length of [I] from
    which [extractLSB], at the same depth, reads the [|b|] bits of [b]
    back. *)
Theorem embedLSB_capacity (I b : list Z) (d : Z) :
  (length I mod 4 = 0)%nat ->
  1 <= d <= 4 ->
  let capacity := Z.of_nat (length I) / 4 * 3 * d in
  (Image.embedLSB I b d
   = Throw (CapacityExceeded (Z.of_nat (length b)) capacity)
   <-> capacity < Z.of_nat (length b)) /\
  (Z.of_nat (length b) <= capacity
   <-> exists out, Image.embedLSB I b d = Ok out) /\
  (Z.of_nat (length b) <= capacity ->
   Forall is_byte I ->
   exists out,
     Image.embedLSB I b d = Ok out /\
     length out = length I /\
     Image.extractLSB out (length b) d 0 = Ok (map (fun v => Z.land v 1) b) /\
     (Forall is_bit b -> Image.extractLSB out (length b) d 0 = Ok b)).
Proof.
  intros Hm Hd capacity.
  pose proof (maxBits_pixels I d Hm) as Hc. fold capacity in Hc.
  destruct (embedLSB_maxBits_test I b d Hd) as [Hthrow Hok].
  rewrite Hc in Hthrow, Hok.
  split; [exact Hthrow|]. split; [exact Hok|].
  intros Hfit HI. destruct (proj1 Hok Hfit) as [out Hout]. exists out.
  split; [exact Hout|].
  destruct (embedLSB_stream I b d out HI Hout) as (_ & _ & Hl & _).
  split; [exact Hl|].
  pose proof (extractLSB_of_embedLSB I b d out (length b) 0 HI Hout
                ltac:(lia)) as Hread.
  rewrite drop_0, firstn_all in Hread.
  split; [exact Hread|].
  intros Hb. rewrite Hread. f_equal. apply land_1_bits. exact Hb.
Qed.

Lemma embedLSB_capacity_witness :
  (length [255; 255; 255; 255; 0; 0; 0; 255] mod 4 = 0)%nat /\
  1 <= 2 <= 4 /\
  (exists out,
     Image.embedLSB [255; 255; 255; 255; 0; 0; 0; 255]
       [1; 0; 1; 1; 0; 0; 1; 0; 1; 1; 1; 0] 2 = Ok out /\
     Image.extractLSB out 12 2 0 = Ok [1; 0; 1; 1; 0; 0; 1; 0; 1; 1; 1; 0]) /\
  Image.embedLSB [255; 255; 255; 255; 0; 0; 0; 255]
    [1; 0; 1; 1; 0; 0; 1; 0; 1; 1; 1; 0; 1] 2
  = Throw (CapacityExceeded 13 12).
Proof.
  split; [reflexivity|]. split; [lia|]. split.
  - destruct (proj2 (proj2
                (embedLSB_capacity [255; 255; 255; 255; 0; 0; 0; 255]
                   [1; 0; 1; 1; 0; 0; 1; 0; 1; 1; 1; 0] 2 eq_refl ltac:(lia)))
                ltac:(vm_compute; discriminate)
                ltac:(repeat constructor; unfold is_byte; lia))
      as (out & Hout & _ & _ & Hread).
    exists out. split; [exact Hout|].
    apply Hread. repeat constructor; unfold is_bit; lia.
  - apply (proj1
             (embedLSB_capacity [255; 255; 255; 255; 0; 0; 0; 255]
                [1; 0; 1; 1; 0; 0; 1; 0; 1; 1; 1; 0; 1] 2 eq_refl ltac:(lia))).
    vm_compute. reflexivity.
Defined.

(** X1. the round trip of the pixel engine.  What [embedLSB] writes,
    [extractLSB] reads back at the same depth: any stretch of the message,
    the low bit of each entry, and the whole message when it is made of
    bits. *)
Theorem extractLSB_embedLSB (imageData messageBits : list Z) (bitDepth : Z)
    (out : list Z) :
  Forall is_byte imageData ->
  Image.embedLSB imageData messageBits bitDepth = Ok out ->
  (forall bitCount bitOffset,
     (bitOffset + bitCount <= length messageBits)%nat ->
     Image.extractLSB out bitCount bitDepth bitOffset
     = Ok (map (fun v => Z.land v 1)
             (take bitCount (drop bitOffset messageBits)))) /\
  (Forall is_bit messageBits ->
   Image.extractLSB out (length messageBits) bitDepth 0 = Ok messageBits).
Proof.
  intros HI H. split.
  - intros bitCount bitOffset Hfit.
    apply (extractLSB_of_embedLSB imageData); assumption.
  - intros Hb.
    rewrite (extractLSB_of_embedLSB imageData messageBits bitDepth out
               (length messageBits) 0 HI H) by lia.
    rewrite drop_0, firstn_all. rewrite land_1_bits by exact Hb. reflexivity.
Qed.

Lemma extractLSB_embedLSB_witness :
  Forall is_byte [200; 17; 255; 255; 0; 64; 9; 255] /\
  Image.embedLSB [200; 17; 255; 255; 0; 64; 9; 255] [1; 0; 1; 1; 0; 0; 1] 2
  = Ok [201; 19; 252; 255; 1; 64; 9; 255] /\
  Image.extractLSB [201; 19; 252; 255; 1; 64; 9; 255] 7 2 0
  = Ok [1; 0; 1; 1; 0; 0; 1].
Proof.
  assert (HI : Forall is_byte [200; 17; 255; 255; 0; 64; 9; 255])
    by (repeat constructor; unfold is_byte; lia).
  assert (HE : Image.embedLSB [200; 17; 255; 255; 0; 64; 9; 255]
                 [1; 0; 1; 1; 0; 0; 1] 2
               = Ok [201; 19; 252; 255; 1; 64; 9; 255]) by reflexivity.
  split; [exact HI|]. split; [exact HE|].
  apply (proj2 (extractLSB_embedLSB _ _ _ _ HI HE)).
  repeat constructor; unfold is_bit; lia.
Defined.

(** X2. embedding touches nothing but the low [bitDepth] bits of a byte: the
    output is a byte array of the same length, every byte keeps its bits
    from [bitDepth] up, and so moves by less than [2 ^ bitDepth]. *)
Theorem embedLSB_low_bits (imageData messageBits : list Z) (bitDepth : Z)
    (out : list Z) :
  Forall is_byte imageData ->
  Image.embedLSB imageData messageBits bitDepth = Ok out ->
  Forall is_byte out /\
  length out = length imageData /\
  forall i,
    Z.shiftr (aget out i) bitDepth = Z.shiftr (aget imageData i) bitDepth /\
    Z.abs (aget out i - aget imageData i) < 2 ^ bitDepth.
Proof.
  intros HI H.
  destruct (embedLSB_stream imageData messageBits bitDepth out HI H)
    as (Hd & _ & Hl & _ & Hh & HB).
  split; [exact HB|]. split; [exact Hl|]. intros i.
  split; [apply Hh|].
  specialize (Hh i). rewrite !Z.shiftr_div_pow2 in Hh by lia.
  assert (Hp : 0 < 2 ^ bitDepth) by (apply Z.pow_pos_nonneg; lia).
  set (p := 2 ^ bitDepth) in *.
  pose proof (Z.div_mod (aget out i) p ltac:(lia)) as H1.
  pose proof (Z.div_mod (aget imageData i) p ltac:(lia)) as H2.
  pose proof (Z.mod_pos_bound (aget out i) p Hp) as H3.
  pose proof (Z.mod_pos_bound (aget imageData i) p Hp) as H4.
  rewrite Hh in H1. clear Hh.
  set (q := p * (aget imageData i / p)) in *.
  set (r1 := aget out i mod p) in *. set (r2 := aget imageData i mod p) in *.
  clearbody q r1 r2. clear -H1 H2 H3 H4 Hp. lia.
Qed.

Lemma embedLSB_low_bits_witness :
  Forall is_byte [200; 17; 255; 255; 0; 64; 9; 255] /\
  Z.abs (aget [201; 19; 252; 255; 1; 64; 9; 255] 2
         - aget [200; 17; 255; 255; 0; 64; 9; 255] 2) < 2 ^ 2.
Proof.
  assert (HI : Forall is_byte [200; 17; 255; 255; 0; 64; 9; 255])
    by (repeat constructor; unfold is_byte; lia).
  split; [exact HI|].
  exact (proj2 (proj2 (proj2
           (embedLSB_low_bits [200; 17; 255; 255; 0; 64; 9; 255]
              [1; 0; 1; 1; 0; 0; 1] 2 [201; 19; 252; 255; 1; 64; 9; 255]
              HI eq_refl)) 2%nat)).
Defined.

(** ** Bit and byte marshalling: both directions *)

Lemma bytesToBits_bits (bytes : list Z) : Forall is_bit (Common.bytesToBits bytes).
Proof.
  destruct (bytesToBits_spec bytes) as [Hl Hb].
  apply Forall_aget. intros k Hk. rewrite Hb by lia.
  unfold bit_at, is_bit. apply land_1_cases.
Qed.

Lemma bitsToBytes_of_bytesToBits (x : list Z) :
  Forall is_byte x -> Common.bitsToBytes (Common.bytesToBits x) = x.
Proof.
  intros Hx. destruct (bytesToBits_spec x) as [Hl Hb].
  destruct (bitsToBytes_spec (Common.bytesToBits x)) as [Hl' Hb'].
  rewrite Hl in Hl', Hb'.
  replace (length x * 8 / 8)%nat with (length x) in Hl', Hb' by lia.
  apply array_ext; [exact Hl'|].
  rewrite Hl'. intros i Hi. rewrite Hb' by exact Hi.
  rewrite byte_from_bytesToBits by exact Hi.
  rewrite reassemble_byte by (apply aget_Forall; assumption).
  apply u8_byte. apply aget_Forall; assumption.
Qed.

Lemma aget_app_l (a b : list Z) (k : nat) :
  (k < length a)%nat -> aget (a ++ b) k = aget a k.
Proof. intros H. unfold aget. rewrite lookup_app_l by exact H. reflexivity. Qed.

Lemma aget_app_r (a b : list Z) (k : nat) :
  (length a <= k)%nat -> aget (a ++ b) k = aget b (k - length a).
Proof. intros H. unfold aget. rewrite lookup_app_r by exact H. reflexivity. Qed.

Lemma aget_take (a : list Z) (n k : nat) :
  (k < n)%nat -> aget (take n a) k = aget a k.
Proof. intros H. unfold aget. rewrite lookup_take_lt by exact H. reflexivity. Qed.

Lemma bytesToBits_app (a b : list Z) :
  Common.bytesToBits (a ++ b) = Common.bytesToBits a ++ Common.bytesToBits b.
Proof.
  destruct (bytesToBits_spec (a ++ b)) as [Hl Hb].
  destruct (bytesToBits_spec a) as [Hla Hba].
  destruct (bytesToBits_spec b) as [Hlb Hbb].
  rewrite length_app in Hl, Hb.
  apply array_ext.
  - rewrite length_app. lia.
  - rewrite Hl. intros k Hk. rewrite Hb by exact Hk. unfold bit_at.
    destruct (Nat.lt_ge_cases k (length a * 8)) as [Hlt|Hge].
    + rewrite (aget_app_l (Common.bytesToBits a)) by (rewrite Hla; lia).
      rewrite Hba by exact Hlt. unfold bit_at.
      rewrite aget_app_l by lia. reflexivity.
    + rewrite (aget_app_r (Common.bytesToBits a)) by (rewrite Hla; lia).
      rewrite Hla, Hbb by lia. unfold bit_at.
      rewrite aget_app_r by lia.
      replace ((k - length a * 8) / 8)%nat with (k / 8 - length a)%nat by lia.
      replace ((k - length a * 8) mod 8)%nat with (k mod 8)%nat by lia.
      reflexivity.
Qed.

(** X3. the round trip in the other direction and the lengths.
    [bytesToBits] gives eight bits a byte; [bitsToBytes] gives a byte for
    every eight whole bits and drops the bits left over; on a bit array
    whose length is a multiple of 8 nothing is lost. *)
Theorem bytesToBits_bitsToBytes (bits : list Z) :
  Forall is_bit bits ->
  length (Common.bitsToBytes bits) = (length bits / 8)%nat /\
  Common.bytesToBits (Common.bitsToBytes bits)
  = take (length bits / 8 * 8) bits /\
  ((length bits mod 8 = 0)%nat ->
   Common.bytesToBits (Common.bitsToBytes bits) = bits).
Proof.
  intros Hbits. destruct (bitsToBytes_spec bits) as [Hl Hb].
  destruct (bytesToBits_spec (Common.bitsToBytes bits)) as [Hl' Hb'].
  rewrite Hl in Hl', Hb'.
  assert (Hmain : Common.bytesToBits (Common.bitsToBytes bits)
                  = take (length bits / 8 * 8) bits).
  { apply array_ext.
    - rewrite Hl', length_take. lia.
    - rewrite Hl'. intros k Hk. rewrite Hb' by exact Hk. unfold bit_at.
      rewrite Hb by lia.
      rewrite aget_take by exact Hk.
      assert (Hbit : is_bit (aget bits k)) by (apply aget_Forall; [exact Hbits | lia]).
      pose proof (Nat.mod_upper_bound k 8 ltac:(lia)) as Hm.
      pose proof (Nat.div_mod_eq k 8) as Hdm.
      set (i := (k / 8)%nat) in *. set (j := (k mod 8)%nat) in *.
      assert (Hk' : k = (i * 8 + j)%nat) by lia. clearbody i j. clear Hdm.
      subst k. clear Hb' Hb.
      assert (Hval : forall t, 0 <= t ->
                Z.testbit (Common.byte_from bits i) t
                = (t <? 8) && Z.testbit (aget bits (i * 8 + Z.to_nat t)) 0).
      { unfold Common.byte_from.
        pose (Q := fun (n : nat) (byte : Z) =>
                     forall t, 0 <= t ->
                       Z.testbit byte t
                       = (t <? Z.of_nat n)
                         && Z.testbit (aget bits (i * 8 + Z.to_nat t)) 0).
        assert (HQ : Q (0 + 8)%nat
                       (for_loop 8 0 (fun j byte =>
                          let bitIndex := (i * 8 + j)%nat in
                          if (bitIndex <? length bits)%nat
                          then Z.lor byte
                                 (Z.shiftl (Z.land (aget bits bitIndex) 1) (Z.of_nat j))
                          else byte) 0)).
        { apply (for_loop_inv Q).
          - intros t Ht. rewrite Z.bits_0.
            replace (t <? Z.of_nat 0) with false by (symmetry; apply Z.ltb_ge; lia).
            reflexivity.
          - intros n byte Hn HQ t Ht. cbv zeta.
            replace (i * 8 + n <? length bits)%nat with true
              by (symmetry; apply Nat.ltb_lt; lia).
            rewrite Z.lor_spec, HQ by exact Ht.
            destruct (Z.lt_trichotomy t (Z.of_nat n)) as [Hlt|[Heq|Hgt]].
            + rewrite Z.shiftl_spec_low by exact Hlt.
              replace (t <? Z.of_nat n) with true by (symmetry; apply Z.ltb_lt; lia).
              replace (t <? Z.of_nat (Datatypes.S n)) with true
                by (symmetry; apply Z.ltb_lt; lia).
              rewrite orb_false_r. reflexivity.
            + subst t. rewrite Z.shiftl_spec by lia.
              replace (Z.of_nat n - Z.of_nat n) with 0 by lia.
              replace (Z.of_nat n <? Z.of_nat n) with false
                by (symmetry; apply Z.ltb_ge; lia).
              replace (Z.of_nat n <? Z.of_nat (Datatypes.S n)) with true
                by (symmetry; apply Z.ltb_lt; lia).
              rewrite Nat2Z.id. cbn [andb orb]. rewrite land_1_testbit.
              destruct (Z.testbit (aget bits (i * 8 + n)) 0); reflexivity.
            + rewrite Z.shiftl_spec by lia.
              replace (t <? Z.of_nat n) with false by (symmetry; apply Z.ltb_ge; lia).
              replace (t <? Z.of_nat (Datatypes.S n)) with false
                by (symmetry; apply Z.ltb_ge; lia).
              cbn [andb orb]. rewrite land_1_testbit.
              destruct (Z.testbit (aget bits (i * 8 + n)) 0); cbn [Z.b2z];
                [|apply Z.bits_0].
              change 1 with (2 ^ 0). rewrite Z.pow2_bits_eqb by lia.
              apply Z.eqb_neq. lia. }
        exact HQ. }
      rewrite bit_of_shiftr. unfold u8. change 256 with (2 ^ 8).
      rewrite Z.mod_pow2_bits_low by lia. rewrite Hval by lia.
      replace (Z.of_nat j <? 8) with true by (symmetry; apply Z.ltb_lt; lia).
      rewrite Nat2Z.id. cbn [andb].
      rewrite <- land_1_testbit. destruct Hbit as [-> | ->]; reflexivity. }
  split; [exact Hl|]. split; [exact Hmain|].
  intros Hm. rewrite Hmain. apply take_ge. lia.
Qed.

Lemma bytesToBits_bitsToBytes_witness :
  Forall is_bit [1; 0; 1; 1; 0; 0; 0; 0; 1; 1] /\
  Common.bytesToBits (Common.bitsToBytes [1; 0; 1; 1; 0; 0; 0; 0; 1; 1])
  = [1; 0; 1; 1; 0; 0; 0; 0].
Proof.
  assert (H : Forall is_bit [1; 0; 1; 1; 0; 0; 0; 0; 1; 1])
    by (repeat constructor; unfold is_bit; lia).
  split; [exact H|].
  exact (proj1 (proj2 (bytesToBits_bitsToBytes _ H))).
Defined.

(** ** Pixel helpers *)

Lemma engine_Returns {A : Type} (r : result A) (a : A) :
  engine r = Returns a -> r = Ok a.
Proof. destruct r; simpl; intros H; [injection H as ->; reflexivity | discriminate]. Qed.

Lemma embedDataInImage_Returns (imageData data_ : list Z) (bitDepth : Z)
    (options : option Pixels.ImageEncodeOptions) (out : list Z) :
  Pixels.embedDataInImage imageData data_ bitDepth options = Returns out ->
  Image.embedLSB imageData (Common.bytesToBits data_) bitDepth = Ok out.
Proof.
  unfold Pixels.embedDataInImage. intros H.
  repeat match type of H with
         | (if ?b then _ else _) = _ => destruct b; [discriminate|]
         end.
  apply engine_Returns. exact H.
Qed.

Lemma embedTextInImage_Returns (utf8_encode : list Z -> list Z)
    (imageData message : list Z) (bitDepth : Z)
    (options : option Pixels.ImageEncodeOptions) (out : list Z) :
  Pixels.embedTextInImage utf8_encode imageData message bitDepth options
  = Returns out ->
  Image.embedLSB imageData
    (Common.bytesToBits
       (setUint32 (Z.of_nat (length (utf8_encode message))) ++ utf8_encode message))
    bitDepth = Ok out.
Proof.
  unfold Pixels.embedTextInImage. intros H.
  repeat match type of H with
         | (if ?b then _ else _) = _ => destruct b; [discriminate|]
         end.
  apply engine_Returns. exact H.
Qed.

(** X4. binary data put into an image by [embedDataInImage] comes back from
    [extractDataFromImage] when it is asked for the same number of bytes at
    the same depth, whatever the options were. *)
Theorem extractDataFromImage_embedDataInImage (imageData data_ : list Z)
    (bitDepth : Z) (options : option Pixels.ImageEncodeOptions) (out : list Z) :
  Forall is_byte imageData ->
  Forall is_byte data_ ->
  Pixels.embedDataInImage imageData data_ bitDepth options = Returns out ->
  Pixels.extractDataFromImage out (length data_) bitDepth = Ok data_.
Proof.
  intros HI Hd H. apply embedDataInImage_Returns in H.
  unfold Pixels.extractDataFromImage. cbv zeta.
  destruct (bytesToBits_spec data_) as [Hl _].
  rewrite (extractLSB_of_embedLSB imageData (Common.bytesToBits data_) bitDepth out
             (length data_ * 8) 0 HI H) by lia.
  cbn [bind]. rewrite drop_0, <- Hl, firstn_all.
  rewrite land_1_bits by apply bytesToBits_bits.
  rewrite bitsToBytes_of_bytesToBits by exact Hd. reflexivity.
Qed.

Lemma extractDataFromImage_embedDataInImage_witness :
  Forall is_byte (replicate 16 255) /\ Forall is_byte [165] /\
  Pixels.embedDataInImage (replicate 16 255) [165] 1 None
  = Returns [255; 254; 255; 255; 254; 254; 255; 255;
             254; 255; 255; 255; 255; 255; 255; 255] /\
  Pixels.extractDataFromImage
    [255; 254; 255; 255; 254; 254; 255; 255;
     254; 255; 255; 255; 255; 255; 255; 255] 1 1 = Ok [165].
Proof.
  assert (HI : Forall is_byte (replicate 16 255))
    by (repeat constructor; unfold is_byte; lia).
  assert (Hd : Forall is_byte [165]) by (repeat constructor; unfold is_byte; lia).
  split; [exact HI|]. split; [exact Hd|]. split; [reflexivity|].
  exact (extractDataFromImage_embedDataInImage (replicate 16 255) [165] 1 None
           _ HI Hd eq_refl).
Defined.

(** X5. text put into an image by [embedTextInImage] comes back from
    [extractTextFromImage]: the 4-byte length header is read first and then
    exactly the bytes of the message. *)
Theorem extractTextFromImage_embedTextInImage
    (utf8_encode : list Z -> list Z) (utf8_decode : list Z -> option (list Z))
    (imageData message : list Z) (bitDepth : Z)
    (options : option Pixels.ImageEncodeOptions) (out : list Z) :
  Forall is_byte imageData ->
  Forall is_byte (utf8_encode message) ->
  utf8_decode (utf8_encode message) = Some message ->
  Z.of_nat (length (utf8_encode message)) < 4294967296 ->
  Pixels.embedTextInImage utf8_encode imageData message bitDepth options
  = Returns out ->
  Pixels.extractTextFromImage utf8_decode out bitDepth = Ok message.
Proof.
  intros HI Hm Hdec Hlen H. apply embedTextInImage_Returns in H.
  set (bytes := utf8_encode message) in *.
  set (header := setUint32 (Z.of_nat (length bytes))) in *.
  rewrite bytesToBits_app in H.
  destruct (bytesToBits_spec header) as [Hlh _].
  destruct (bytesToBits_spec bytes) as [Hlb _].
  assert (Hh4 : length header = 4%nat) by reflexivity.
  unfold Pixels.extractTextFromImage.
  rewrite (extractLSB_of_embedLSB imageData _ bitDepth out 32 0 HI H)
    by (rewrite length_app; lia).
  cbn [bind]. rewrite drop_0.
  rewrite take_app_length' by lia.
  rewrite land_1_bits by apply bytesToBits_bits.
  rewrite bitsToBytes_of_bytesToBits by apply setUint32_bytes.
  pose proof (getUint32_setUint32 0 (Z.of_nat (length bytes)) ltac:(lia)) as Hg.
  unfold getUint32 in Hg |- *. fold header in Hg. rewrite Hh4.
  cbn [length Nat.add Nat.leb] in Hg |- *.
  injection Hg as Hg. cbn [bind].
  replace (aget header 0 + 256 * aget header 1 + 65536 * aget header 2
           + 16777216 * aget header 3) with (Z.of_nat (length bytes)).
  replace (Z.to_nat (Z.of_nat (length bytes) * 8)) with (length bytes * 8)%nat by lia.
  rewrite (extractLSB_of_embedLSB imageData _ bitDepth out (length bytes * 8) 32 HI H)
    by (rewrite length_app; lia).
  cbn [bind]. rewrite drop_app_length' by lia.
  rewrite <- Hlb, firstn_all.
  rewrite land_1_bits by apply bytesToBits_bits.
  rewrite bitsToBytes_of_bytesToBits by exact Hm.
  rewrite Hdec. reflexivity.
Qed.

Lemma extractTextFromImage_embedTextInImage_witness :
  exists out,
    Forall is_byte (replicate 64 255) /\
    Forall is_byte (Text.utf8_encode sampleHost [72; 105]) /\
    Text.utf8_decode sampleHost (Text.utf8_encode sampleHost [72; 105])
    = Some [72; 105] /\
    Z.of_nat (length (Text.utf8_encode sampleHost [72; 105])) < 4294967296 /\
    Pixels.embedTextInImage (Text.utf8_encode sampleHost) (replicate 64 255)
      [72; 105] 2 None = Returns out /\
    Pixels.extractTextFromImage (Text.utf8_decode sampleHost) out 2 = Ok [72; 105].
Proof.
  assert (HI : Forall is_byte (replicate 64 255))
    by (apply Forall_replicate; unfold is_byte; lia).
  assert (Hm : Forall is_byte (Text.utf8_encode sampleHost [72; 105]))
    by (repeat constructor; unfold is_byte; simpl; unfold u8; lia).
  destruct (Pixels.embedTextInImage (Text.utf8_encode sampleHost)
              (replicate 64 255) [72; 105] 2 None) as [out|f] eqn:HE;
    [|vm_compute in HE; discriminate].
  exists out. split; [exact HI|]. split; [exact Hm|]. split; [reflexivity|].
  split; [vm_compute; reflexivity|]. split; [reflexivity|].
  exact (extractTextFromImage_embedTextInImage
           (Text.utf8_encode sampleHost) (Text.utf8_decode sampleHost)
           (replicate 64 255) [72; 105] 2 None out HI Hm eq_refl
           ltac:(vm_compute; reflexivity) HE).
Defined.

(** ** Capacity checks of the pixel helpers *)

Lemma capacityBytes_bits (imageData : list Z) (bitDepth : Z) :
  (length imageData mod 4 = 0)%nat -> 0 <= bitDepth ->
  Pixels.capacityBytes imageData bitDepth * 8 <= Image.maxBits imageData bitDepth.
Proof.
  intros Hm Hd. rewrite (maxBits_pixels imageData bitDepth Hm).
  unfold Pixels.capacityBytes.
  assert (Hq : Z.of_nat (length imageData) = 4 * (Z.of_nat (length imageData) / 4))
    by lia.
  set (q := Z.of_nat (length imageData) / 4) in *.
  rewrite Hq.
  replace (4 * q * 3 * bitDepth) with (q * 3 * bitDepth * 4) by ring.
  replace (4 * q / 4) with q by lia.
  set (t := q * 3 * bitDepth). lia.
Qed.

Lemma length_bytesToBits (bytes : list Z) :
  length (Common.bytesToBits bytes) = (length bytes * 8)%nat.
Proof. apply bytesToBits_spec. Qed.

(** X6. under the default options, on a buffer of whole pixels and at a
    valid depth, the byte check of [embedTextInImage] decides the outcome:
    a message longer than 10 MiB is refused, one that does not fit with its
    4-byte header is refused with the capacity of the image, and every other
    message is embedded; the capacity error of the engine is never reached. *)
Theorem embedTextInImage_default (utf8_encode : list Z -> list Z)
    (imageData message : list Z) (bitDepth : Z) :
  (length imageData mod 4 = 0)%nat ->
  1 <= bitDepth <= 4 ->
  let n := Z.of_nat (length (utf8_encode message)) in
  let capacity := Z.of_nat (length imageData) / 4 * 3 * bitDepth / 8 in
  (Util.MAX_MESSAGE_LENGTH < n ->
   Pixels.embedTextInImage utf8_encode imageData message bitDepth None
   = Fails (MessageTooLong n Util.MAX_MESSAGE_LENGTH)) /\
  (n <= Util.MAX_MESSAGE_LENGTH -> capacity < n + 4 ->
   Pixels.embedTextInImage utf8_encode imageData message bitDepth None
   = Fails (MessageTooLarge (n + 4) capacity)) /\
  (n <= Util.MAX_MESSAGE_LENGTH -> n + 4 <= capacity ->
   exists out,
     Pixels.embedTextInImage utf8_encode imageData message bitDepth None
     = Returns out).
Proof.
  intros Hm Hd n capacity.
  assert (Hcap : capacity = Pixels.capacityBytes imageData bitDepth).
  { unfold capacity, Pixels.capacityBytes.
    assert (Hq : Z.of_nat (length imageData) = 4 * (Z.of_nat (length imageData) / 4))
      by lia.
    set (q := Z.of_nat (length imageData) / 4) in *. rewrite Hq.
    replace (4 * q * 3 * bitDepth) with ((q * 3 * bitDepth) * 4) by ring.
    set (t := q * 3 * bitDepth). lia. }
  unfold Pixels.embedTextInImage, Pixels.optionOr. fold n. rewrite <- Hcap.
  split; [|split].
  - intros Hn. replace (Util.MAX_MESSAGE_LENGTH <? n) with true
      by (symmetry; apply Z.ltb_lt; exact Hn). reflexivity.
  - intros Hn Hc. replace (Util.MAX_MESSAGE_LENGTH <? n) with false
      by (symmetry; apply Z.ltb_ge; exact Hn).
    replace (capacity <? n + 4) with true by (symmetry; apply Z.ltb_lt; exact Hc).
    reflexivity.
  - intros Hn Hc. replace (Util.MAX_MESSAGE_LENGTH <? n) with false
      by (symmetry; apply Z.ltb_ge; exact Hn).
    replace (capacity <? n + 4) with false by (symmetry; apply Z.ltb_ge; exact Hc).
    cbn [andb].
    destruct (embedLSB_maxBits_test imageData
                (Common.bytesToBits
                   (setUint32 n ++ utf8_encode message)) bitDepth Hd) as [_ Hok].
    destruct (proj1 Hok) as [out Hout].
    + rewrite length_bytesToBits, length_app.
      pose proof (capacityBytes_bits imageData bitDepth Hm ltac:(lia)) as Hb.
      rewrite <- Hcap in Hb. change (length (setUint32 n)) with 4%nat.
      fold n in Hc. unfold n in *. lia.
    + exists out. rewrite Hout. reflexivity.
Qed.

Lemma embedTextInImage_default_witness :
  (length (replicate 64 255) mod 4 = 0)%nat /\
  1 <= 2 <= 4 /\
  Pixels.embedTextInImage (Text.utf8_encode sampleHost) (replicate 64 255)
    [72; 105; 33; 33; 33] 2 None
  = Fails (MessageTooLarge 14 12).
Proof.
  split; [reflexivity|]. split; [lia|].
  apply (proj1 (proj2
           (embedTextInImage_default (Text.utf8_encode sampleHost)
              (replicate 64 255) [72; 105; 33; 33; 33] 2 eq_refl ltac:(lia))));
    vm_compute; [discriminate | reflexivity].
Defined.

(** X7. [validateImageDimensions] accepts exactly the pairs of integers
    between 1 and 10 000, and its last test, on the number of pixels, never
    fires: two sides within the bound cannot have too many pixels. *)
Theorem validateImageDimensions_accepts (width height : number) :
  (Util.validateImageDimensions width height = Returns tt <->
   exists w h, width = Integer w /\ height = Integer h /\
               1 <= w <= 10000 /\ 1 <= h <= 10000) /\
  Util.validateImageDimensions width height <> Fails TooManyPixels.
Proof.
  unfold Util.validateImageDimensions, Util.MAX_IMAGE_DIMENSION.
  destruct width as [w|], height as [h|];
    try (split; [split; [discriminate | intros (a & b & Ha & Hb & _); discriminate]
                | discriminate]).
  destruct (w <=? 0) eqn:Ew; [apply Z.leb_le in Ew | apply Z.leb_gt in Ew];
    destruct (h <=? 0) eqn:Eh; [apply Z.leb_le in Eh | apply Z.leb_gt in Eh
                               | apply Z.leb_le in Eh | apply Z.leb_gt in Eh];
    cbn [orb];
    try (split; [split; [discriminate
                        | intros (a & b & Ha & Hb & H1 & H2);
                          injection Ha as <-; injection Hb as <-; lia]
                | discriminate]).
  destruct (10000 <? w) eqn:Fw; [apply Z.ltb_lt in Fw | apply Z.ltb_ge in Fw];
    destruct (10000 <? h) eqn:Fh; [apply Z.ltb_lt in Fh | apply Z.ltb_ge in Fh
                                  | apply Z.ltb_lt in Fh | apply Z.ltb_ge in Fh];
    cbn [orb];
    try (split; [split; [discriminate
                        | intros (a & b & Ha & Hb & H1 & H2);
                          injection Ha as <-; injection Hb as <-; lia]
                | discriminate]).
  cbv zeta.
  replace (10000 * 10000 <? w * h) with false by (symmetry; apply Z.ltb_ge; nia).
  split; [|discriminate]. split; [|reflexivity].
  intros _. exists w, h. repeat split; lia.
Qed.

(** X8. the capacity [calculateBitCapacity] announces for a width and a
    height is one the embedder honours: on the buffer of such an image, data
    of at most that many bytes (and at most 10 MiB) is embedded by
    [embedDataInImage] under its default options. *)
Theorem calculateBitCapacity_fits (w h bitDepth capacity : Z)
    (imageData data_ : list Z) :
  Pixels.calculateBitCapacity (Integer w) (Integer h) bitDepth = Returns capacity ->
  1 <= bitDepth <= 4 ->
  Z.of_nat (length imageData) = 4 * w * h ->
  Z.of_nat (length data_) <= capacity ->
  Z.of_nat (length data_) <= Util.MAX_MESSAGE_LENGTH ->
  capacity = w * h * 3 * bitDepth / 8 /\
  exists out, Pixels.embedDataInImage imageData data_ bitDepth None = Returns out.
Proof.
  intros Hc Hd Hl Hn Hmax. unfold Pixels.calculateBitCapacity in Hc.
  destruct (Util.validateImageDimensions (Integer w) (Integer h)); [|discriminate].
  cbn [valueOf] in Hc. injection Hc as <-. split; [reflexivity|].
  assert (Hm : (length imageData mod 4 = 0)%nat) by lia.
  assert (Hcap : Pixels.capacityBytes imageData bitDepth = w * h * 3 * bitDepth / 8).
  { unfold Pixels.capacityBytes. rewrite Hl.
    replace (4 * w * h * 3 * bitDepth) with ((w * h * 3 * bitDepth) * 4) by ring.
    set (t := w * h * 3 * bitDepth). lia. }
  unfold Pixels.embedDataInImage, Pixels.optionOr. rewrite Hcap.
  replace (Util.MAX_MESSAGE_LENGTH <? Z.of_nat (length data_)) with false
    by (symmetry; apply Z.ltb_ge; exact Hmax).
  replace (w * h * 3 * bitDepth / 8 <? Z.of_nat (length data_)) with false
    by (symmetry; apply Z.ltb_ge; exact Hn).
  cbn [andb].
  destruct (embedLSB_maxBits_test imageData (Common.bytesToBits data_) bitDepth Hd)
    as [_ Hok].
  destruct (proj1 Hok) as [out Hout].
  - rewrite length_bytesToBits.
    pose proof (capacityBytes_bits imageData bitDepth Hm ltac:(lia)) as Hb.
    rewrite Hcap in Hb. lia.
  - exists out. rewrite Hout. reflexivity.
Qed.

Lemma calculateBitCapacity_fits_witness :
  Pixels.calculateBitCapacity (Integer 2) (Integer 2) 1 = Returns 1 /\
  exists out, Pixels.embedDataInImage (replicate 16 255) [165] 1 None = Returns out.
Proof.
  split; [reflexivity|].
  exact (proj2 (calculateBitCapacity_fits 2 2 1 1 (replicate 16 255) [165]
                  eq_refl ltac:(lia) eq_refl ltac:(simpl; lia)
                  ltac:(vm_compute; discriminate))).
Defined.

(** ** The XOR cipher of [src/common.ts] *)

Lemma lxor_bytes (a b : Z) : is_byte a -> is_byte b -> is_byte (Z.lxor a b).
Proof.
  intros Ha Hb.
  assert (H : (0 <=? Z.lxor a b) && (Z.lxor a b <? 256) = true).
  { apply (byte_cases (fun a => (0 <=? Z.lxor a b) && (Z.lxor a b <? 256)));
      [|exact Ha].
    apply forallb_forall. intros n Hn.
    apply (byte_cases (fun b => (0 <=? Z.lxor (Z.of_nat n) b)
                                && (Z.lxor (Z.of_nat n) b <? 256))); [|exact Hb].
    revert n Hn. apply forallb_forall. vm_compute. reflexivity. }
  apply andb_true_iff in H. destruct H as [H1 H2].
  apply Z.leb_le in H1. apply Z.ltb_lt in H2. unfold is_byte. lia.
Qed.

Lemma xorEncrypt_spec (utf8_encode : list Z -> list Z) (data_ password : list Z) :
  password <> [] ->
  let key := utf8_encode password in
  length (Util.xorEncrypt utf8_encode data_ password) = length data_ /\
  forall i, (i < length data_)%nat ->
    aget (Util.xorEncrypt utf8_encode data_ password) i
    = u8 (Z.lxor (aget data_ i) (aget key (i mod length key))).
Proof.
  intros Hp key. unfold Util.xorEncrypt.
  destruct password as [|c p]; [contradiction|]. cbn [length Nat.eqb]. fold key.
  set (n := length data_).
  pose (Q := fun (i : nat) (result : list Z) =>
               length result = n /\
               forall k, (k < i)%nat ->
                 aget result k
                 = u8 (Z.lxor (aget data_ k) (aget key (k mod length key)))).
  assert (HQ : Q (0 + n)%nat
                 (for_loop n 0 (fun i result =>
                    aset result i
                      (Z.lxor (aget data_ i) (aget key (i mod length key))))
                    (new_Uint8Array n))).
  { apply (for_loop_inv Q).
    - split; [apply length_new | intros k Hk; lia].
    - intros i result Hi [Hl Hr]. split; [rewrite length_aset; exact Hl|].
      intros k Hk. destruct (Nat.eq_dec k i) as [->|Hne].
      + rewrite aget_aset_eq by lia. reflexivity.
      + rewrite aget_aset_ne by lia. apply Hr. lia. }
  destruct HQ as [Hl Hr]. split; [exact Hl|]. intros i Hi. apply Hr. lia.
Qed.

Lemma aget_key_byte (key : list Z) (i : nat) :
  Forall is_byte key -> is_byte (aget key i).
Proof.
  intros H. destruct (Nat.lt_ge_cases i (length key)) as [Hi|Hi].
  - apply aget_Forall; assumption.
  - rewrite aget_ge by exact Hi. unfold is_byte. lia.
Qed.

(** X9. [xorDecrypt] undoes [xorEncrypt] under the same password, for every
    byte array and every password, the empty one included (which leaves the
    data as it is); the cipher keeps the length and yields bytes. *)
Theorem xorDecrypt_xorEncrypt (utf8_encode : list Z -> list Z)
    (data_ password : list Z) :
  Forall is_byte data_ ->
  Forall is_byte (utf8_encode password) ->
  Util.xorDecrypt utf8_encode (Util.xorEncrypt utf8_encode data_ password) password
  = data_ /\
  length (Util.xorEncrypt utf8_encode data_ password) = length data_ /\
  Forall is_byte (Util.xorEncrypt utf8_encode data_ password) /\
  (password = [] -> Util.xorEncrypt utf8_encode data_ password = data_).
Proof.
  intros Hd Hk. unfold Util.xorDecrypt.
  destruct (list_eq_nil_dec password) as [->|Hp].
  { unfold Util.xorEncrypt. cbn [length Nat.eqb]. repeat split; assumption. }
  destruct (xorEncrypt_spec utf8_encode data_ password Hp) as [Hl Hb].
  destruct (xorEncrypt_spec utf8_encode
              (Util.xorEncrypt utf8_encode data_ password) password Hp) as [Hl' Hb'].
  cbv zeta in *. rewrite Hl in Hl', Hb'.
  split; [|split; [exact Hl|split; [|intros E; contradiction]]].
  - apply array_ext; [exact Hl'|]. rewrite Hl'. intros i Hi.
    rewrite Hb', Hb by exact Hi.
    set (k := aget (utf8_encode password) (i mod length (utf8_encode password))).
    assert (Hkb : is_byte k) by (apply aget_key_byte; exact Hk).
    assert (Hdb : is_byte (aget data_ i)) by (apply aget_Forall; assumption).
    rewrite (u8_byte (Z.lxor (aget data_ i) k)) by (apply lxor_bytes; assumption).
    rewrite Z.lxor_assoc, Z.lxor_nilpotent, Z.lxor_0_r.
    apply u8_byte. exact Hdb.
  - apply Forall_aget. rewrite Hl. intros i Hi. rewrite Hb by exact Hi.
    apply u8_is_byte.
Qed.

Lemma xorDecrypt_xorEncrypt_witness :
  Forall is_byte [1; 2; 3; 250] /\
  Forall is_byte (Text.utf8_encode sampleHost [107; 101; 121]) /\
  Util.xorDecrypt (Text.utf8_encode sampleHost)
    (Util.xorEncrypt (Text.utf8_encode sampleHost) [1; 2; 3; 250] [107; 101; 121])
    [107; 101; 121] = [1; 2; 3; 250].
Proof.
  assert (Hd : Forall is_byte [1; 2; 3; 250])
    by (repeat constructor; unfold is_byte; lia).
  assert (Hk : Forall is_byte (Text.utf8_encode sampleHost [107; 101; 121]))
    by (apply (utf8_encode_bytes sampleHost sampleHost_laws)).
  split; [exact Hd|]. split; [exact Hk|].
  exact (proj1 (xorDecrypt_xorEncrypt (Text.utf8_encode sampleHost)
                  [1; 2; 3; 250] [107; 101; 121] Hd Hk)).
Defined.

(** ** [sanitizeFilename] *)

Lemma Forall_dropDots (Q : Z -> Prop) (s : list Z) :
  Forall Q s -> Forall Q (Util.dropDots s).
Proof.
  induction 1 as [|c s Hc Hs IH]; [constructor|].
  simpl. destruct (c =? 46); [exact IH | constructor; assumption].
Qed.

Lemma Forall_trimStart (Q : Z -> Prop) (s : list Z) :
  Forall Q s -> Forall Q (Text.trimStart s).
Proof.
  induction 1 as [|c s Hc Hs IH]; [constructor|].
  simpl. destruct (Text.isWhiteSpace c); [exact IH | constructor; assumption].
Qed.

Lemma Forall_trim (Q : Z -> Prop) (s : list Z) :
  Forall Q s -> Forall Q (Text.trim s).
Proof.
  intros H. unfold Text.trim, Text.trimEnd.
  apply Forall_rev, Forall_trimStart, Forall_rev, Forall_trimStart, H.
Qed.

Lemma lastIndexOf_spec (s : list Z) (c : Z) :
  match Util.lastIndexOf s c with
  | Some i => (i < length s)%nat /\ aget s i = c /\
              forall j, (i < j < length s)%nat -> aget s j <> c
  | None => forall j, (j < length s)%nat -> aget s j <> c
  end.
Proof.
  unfold Util.lastIndexOf.
  pose (Q := fun (n : nat) (found : option nat) =>
               match found with
               | Some i => (i < n)%nat /\ aget s i = c /\
                           forall j, (i < j < n)%nat -> aget s j <> c
               | None => forall j, (j < n)%nat -> aget s j <> c
               end).
  assert (HQ : Q (0 + length s)%nat
                 (for_loop (length s) 0
                    (fun i found => if aget s i =? c then Some i else found) None)).
  { apply (for_loop_inv Q).
    - intros j Hj. lia.
    - intros i found Hi HQ. destruct (aget s i =? c) eqn:E.
      + apply Z.eqb_eq in E. split; [lia|]. split; [exact E|]. intros j Hj. lia.
      + apply Z.eqb_neq in E. destruct found as [k|]; cbn in HQ |- *.
        * destruct HQ as (Hk & Hc & Hn). split; [lia|]. split; [exact Hc|].
          intros j Hj. destruct (Nat.eq_dec j i) as [->|Hne]; [exact E|].
          apply Hn. lia.
        * intros j Hj. destruct (Nat.eq_dec j i) as [->|Hne]; [exact E|].
          apply HQ. lia. }
  exact HQ.
Qed.

Lemma not_In_aget (s : list Z) (c : Z) :
  (forall j, (j < length s)%nat -> aget s j <> c) -> ~ In c s.
Proof.
  intros H Hin. apply list_elem_of_In in Hin.
  apply list_elem_of_lookup in Hin. destruct Hin as [j Hj].
  apply (H j); [apply lookup_lt_is_Some; eauto|].
  apply aget_lookup. exact Hj.
Qed.

Lemma sanitized_clean (filename : list Z) :
  Forall (fun c => Util.forbidden c = false)
    (Text.trim (Util.dropDots
                  (List.filter (fun c => negb (Util.forbidden c)) filename))).
Proof.
  apply Forall_trim, Forall_dropDots. apply List.Forall_forall.
  intros c Hc. apply List.filter_In in Hc. destruct Hc as [_ Hc].
  apply negb_true_iff in Hc. exact Hc.
Qed.

Lemma drop_at_dot (s : list Z) (i : nat) :
  (i < length s)%nat -> aget s i = 0x2e ->
  drop i s = 0x2e :: drop (Datatypes.S i) s.
Proof.
  intros Hi Hdot. rewrite <- Hdot. apply drop_S. apply lookup_aget. exact Hi.
Qed.

(** The name [sanitizeFilename] returns is not empty and holds none of the
    characters the first replacement removes. *)
Lemma sanitizeFilename_clean (filename : list Z) :
  Util.sanitizeFilename filename <> [] /\
  Forall (fun c => Util.forbidden c = false) (Util.sanitizeFilename filename).
Proof.
  unfold Util.sanitizeFilename, Util.MAX_FILENAME_LENGTH.
  assert (Hfile : Util.file <> [] /\
                  Forall (fun c => Util.forbidden c = false) Util.file)
    by (split; [discriminate | repeat constructor]).
  destruct (length filename =? 0)%nat; [exact Hfile|].
  pose proof (sanitized_clean filename) as Hs.
  set (s := Text.trim (Util.dropDots
                         (List.filter (fun c => negb (Util.forbidden c)) filename)))
    in *.
  destruct (length s =? 0)%nat eqn:E0; [exact Hfile|].
  apply Nat.eqb_neq in E0.
  assert (Hne : s <> []) by (destruct s; [contradiction | discriminate]).
  destruct (255 <? length s)%nat; [|split; assumption].
  assert (Hshort : Text.substring s 0 255 <> [] /\
                   Forall (fun c => Util.forbidden c = false) (Text.substring s 0 255)).
  { unfold Text.substring. rewrite drop_0. cbn [Nat.sub].
    split; [destruct s; [contradiction | discriminate]|].
    apply Forall_take; exact Hs. }
  pose proof (lastIndexOf_spec s 0x2e) as Hlast.
  destruct (Util.lastIndexOf s 0x2e) as [[|e]|]; try exact Hshort.
  destruct Hlast as (He & Hdot & _). cbv zeta.
  unfold Text.substring. rewrite !drop_0, !Nat.sub_0_r. split.
  - rewrite (drop_at_dot s _ He Hdot).
    intros H. apply app_eq_nil in H. destruct H as [_ H]. discriminate.
  - apply Forall_app. split; [apply Forall_take, Forall_take, Hs|].
    apply Forall_drop, Hs.
Qed.

(** X10. what [sanitizeFilename] returns is never empty and holds none of the
    characters it removes (path separators among them).  It is at most 255
    units long, except when what follows the last dot is itself longer: then
    the result is that extension alone. *)
Theorem sanitizeFilename_safe (filename : list Z) :
  let r := Util.sanitizeFilename filename in
  r <> [] /\
  Forall (fun c => Util.forbidden c = false) r /\
  ((length r <= 255)%nat \/
   exists t, r = 0x2e :: t /\ ~ In 0x2e t /\ (255 <= length t)%nat).
Proof.
  cbv zeta. destruct (sanitizeFilename_clean filename) as [Hne Hclean].
  split; [exact Hne|]. split; [exact Hclean|]. clear Hne Hclean.
  unfold Util.sanitizeFilename, Util.MAX_FILENAME_LENGTH.
  destruct (length filename =? 0)%nat; [left; simpl; lia|].
  set (s := Text.trim (Util.dropDots
                         (List.filter (fun c => negb (Util.forbidden c)) filename))).
  destruct (length s =? 0)%nat; [left; simpl; lia|].
  destruct (255 <? length s)%nat eqn:E;
    [apply Nat.ltb_lt in E | apply Nat.ltb_ge in E; left; exact E].
  assert (Hshort : (length (Text.substring s 0 255) <= 255)%nat).
  { unfold Text.substring. rewrite length_take. lia. }
  pose proof (lastIndexOf_spec s 0x2e) as Hlast.
  destruct (Util.lastIndexOf s 0x2e) as [[|e]|]; try (left; exact Hshort).
  destruct Hlast as (He & Hdot & Hnone). cbv zeta.
  unfold Text.substring. rewrite !drop_0, !Nat.sub_0_r.
  pose proof (drop_at_dot s _ He Hdot) as Hext.
  destruct (Nat.le_gt_cases (length (drop (Datatypes.S e) s)) 255) as [Hle|Hgt].
  - left. rewrite length_app, !length_take. rewrite length_drop in *. lia.
  - right. exists (drop (Datatypes.S (Datatypes.S e)) s).
    replace (255 - length (drop (Datatypes.S e) s))%nat with 0%nat by lia.
    rewrite take_0. cbn [app]. split; [exact Hext|]. split.
    + apply not_In_aget. intros j Hj. rewrite length_drop in Hj.
      unfold aget. rewrite lookup_drop.
      fold (aget s (Datatypes.S (Datatypes.S e) + j)).
      apply Hnone. lia.
    + rewrite length_drop in *. lia.
Qed.

(** ** The embedded-file header *)

Lemma uint32At_setUint32 (pre post : list Z) (v : Z) :
  0 <= v < 4294967296 ->
  Pixels.uint32At (pre ++ setUint32 v ++ post) (length pre) = v.
Proof.
  intros Hv. unfold Pixels.uint32At.
  rewrite (aget_app_r pre _ (length pre)), (aget_app_r pre _ (length pre + 1)),
    (aget_app_r pre _ (length pre + 2)), (aget_app_r pre _ (length pre + 3)) by lia.
  replace (length pre - length pre)%nat with 0%nat by lia.
  replace (length pre + 1 - length pre)%nat with 1%nat by lia.
  replace (length pre + 2 - length pre)%nat with 2%nat by lia.
  replace (length pre + 3 - length pre)%nat with 3%nat by lia.
  unfold setUint32, aget. simpl.
  rewrite (Z.mod_small v) by lia. lia.
Qed.

(** X11. a header built by [prepareFileHeader] and followed by the file is
    parsed back by [parseFileHeader]: the name comes back sanitized, the size
    as given, and the offset points at the first byte of the file. *)
Theorem parseFileHeader_prepareFileHeader
    (utf8_encode utf8_decode_lossy : list Z -> list Z)
    (name payload : list Z) (size : Z) :
  Forall is_byte (utf8_encode name) ->
  (length (utf8_encode name) <= 255)%nat ->
  utf8_decode_lossy (utf8_encode name) = name ->
  name <> [] ->
  0 < size <= Util.MAX_EMBED_FILE_SIZE ->
  size <= Z.of_nat (length payload) ->
  let bytes := Pixels.prepareFileHeader utf8_encode name size ++ payload in
  Pixels.parseFileHeader utf8_decode_lossy bytes
  = Some {| Pixels.fileName := Util.sanitizeFilename name;
            Pixels.fileSize := size;
            Pixels.payloadOffset := 6 + length (utf8_encode name) |} /\
  drop (6 + length (utf8_encode name)) bytes = payload.
Proof.
  intros Hb Hlen Hdec Hne Hsize Hpay bytes.
  set (nb := utf8_encode name) in *. set (n := length nb) in *.
  assert (Hbytes : bytes = 0x55 :: Z.of_nat n :: nb ++ setUint32 size ++ payload).
  { unfold bytes, Pixels.prepareFileHeader. fold nb. fold n.
    rewrite u8_byte by (unfold is_byte; lia).
    cbn [app]. rewrite <- app_assoc. reflexivity. }
  assert (Hl : length bytes = (6 + n + length payload)%nat).
  { rewrite Hbytes. cbn [length]. rewrite !length_app. fold n.
    change (length (setUint32 size)) with 4%nat. lia. }
  unfold Util.MAX_EMBED_FILE_SIZE in Hsize.
  split.
  - unfold Pixels.parseFileHeader, Util.MAX_FILENAME_LENGTH, Util.MAX_EMBED_FILE_SIZE.
    rewrite Hl.
    replace (6 + n + length payload <? 2)%nat with false
      by (symmetry; apply Nat.ltb_ge; lia).
    replace (aget bytes 0) with 0x55 by (rewrite Hbytes; reflexivity).
    replace (aget bytes 1) with (Z.of_nat n) by (rewrite Hbytes; reflexivity).
    rewrite Nat2Z.id. cbn [Z.eqb Pos.eqb negb orb].
    replace (255 <? n)%nat with false by (symmetry; apply Nat.ltb_ge; lia).
    replace (6 + n + length payload <? 2 + n + 4)%nat with false
      by (symmetry; apply Nat.ltb_ge; lia).
    cbn [orb].
    assert (Hname : Text.substring bytes 2 (2 + n) = nb).
    { unfold Text.substring. rewrite Hbytes.
      replace (2 + n - 2)%nat with n by lia.
      change (drop 2 (0x55 :: Z.of_nat n :: nb ++ setUint32 size ++ payload))
        with (nb ++ setUint32 size ++ payload).
      apply take_app_length. }
    rewrite Hname, Hdec.
    replace (length name =? 0)%nat with false
      by (symmetry; apply Nat.eqb_neq; destruct name; [contradiction | discriminate]).
    assert (Hsz : Pixels.uint32At bytes (2 + n) = size).
    { rewrite Hbytes.
      change (0x55 :: Z.of_nat n :: nb ++ setUint32 size ++ payload)
        with ((0x55 :: Z.of_nat n :: nb) ++ setUint32 size ++ payload).
      replace (2 + n)%nat with (length (0x55 :: Z.of_nat n :: nb))
        by (cbn [length]; fold n; lia).
      apply uint32At_setUint32. lia. }
    rewrite Hsz.
    replace (10 * 1024 * 1024 <? size) with false by (symmetry; apply Z.ltb_ge; lia).
    replace (size <=? 0) with false by (symmetry; apply Z.leb_gt; lia).
    cbn [orb].
    replace (Z.of_nat (6 + n + length payload) <? Z.of_nat (2 + n + 4) + size)
      with false by (symmetry; apply Z.ltb_ge; lia).
    f_equal. f_equal. lia.
  - rewrite Hbytes. rewrite app_assoc.
    change (0x55 :: Z.of_nat n :: (nb ++ setUint32 size) ++ payload)
      with ((0x55 :: Z.of_nat n :: nb ++ setUint32 size) ++ payload).
    replace (6 + n)%nat with (length (0x55 :: Z.of_nat n :: nb ++ setUint32 size)).
    + apply drop_app_length.
    + cbn [length]. rewrite length_app. fold n.
      change (length (setUint32 size)) with 4%nat. lia.
Qed.

Lemma parseFileHeader_prepareFileHeader_witness :
  Pixels.parseFileHeader unitsOfBytes
    (Pixels.prepareFileHeader (Text.utf8_encode sampleHost) [97; 47; 98] 2 ++ [7; 9])
  = Some {| Pixels.fileName := [97; 98]; Pixels.fileSize := 2;
            Pixels.payloadOffset := 12 |}.
Proof.
  exact (proj1 (parseFileHeader_prepareFileHeader
                  (Text.utf8_encode sampleHost) unitsOfBytes [97; 47; 98] [7; 9] 2
                  (utf8_encode_bytes sampleHost sampleHost_laws _)
                  ltac:(simpl; lia) eq_refl ltac:(discriminate)
                  ltac:(unfold Util.MAX_EMBED_FILE_SIZE; lia) ltac:(simpl; lia))).
Defined.

(** X12. whatever [parseFileHeader] accepts is safe to use: the magic byte is
    there, the file of 1 to 10 485 760 bytes lies wholly inside the array
    from the offset on, the offset is 6 plus the length of the name, and the
    name is not empty and free of the characters [sanitizeFilename]
    removes. *)
Theorem parseFileHeader_Some (utf8_decode_lossy : list Z -> list Z)
    (bytes : list Z) (h : Pixels.FileHeader) :
  Forall is_byte bytes ->
  Pixels.parseFileHeader utf8_decode_lossy bytes = Some h ->
  aget bytes 0 = 0x55 /\
  Pixels.payloadOffset h = (6 + Z.to_nat (aget bytes 1))%nat /\
  (Pixels.payloadOffset h <= 261)%nat /\
  0 < Pixels.fileSize h <= 10485760 /\
  Z.of_nat (Pixels.payloadOffset h) + Pixels.fileSize h <= Z.of_nat (length bytes) /\
  Pixels.fileName h <> [] /\
  Forall (fun c => Util.forbidden c = false) (Pixels.fileName h).
Proof.
  intros Hb H. unfold Pixels.parseFileHeader in H.
  set (sz := Pixels.uint32At bytes (2 + Z.to_nat (aget bytes 1))) in H.
  clearbody sz.
  destruct (length bytes <? 2)%nat eqn:E2; [discriminate|].
  apply Nat.ltb_ge in E2.
  destruct (aget bytes 0 =? 0x55) eqn:Em; [|discriminate].
  apply Z.eqb_eq in Em. cbn [negb orb] in H.
  destruct (Util.MAX_FILENAME_LENGTH <? Z.to_nat (aget bytes 1))%nat; [discriminate|].
  destruct (length bytes <? 2 + Z.to_nat (aget bytes 1) + 4)%nat; [discriminate|].
  cbn [orb] in H.
  match type of H with
  | (if ?b then _ else _) = _ => destruct b; [discriminate|]
  end.
  destruct (Util.MAX_EMBED_FILE_SIZE <? _) eqn:Emax; [discriminate|].
  destruct (_ <=? 0) eqn:Epos; [discriminate|].
  cbn [orb] in H.
  destruct (Z.of_nat (length bytes) <? _) eqn:Efit; [discriminate|].
  injection H as <-. cbn [Pixels.payloadOffset Pixels.fileSize Pixels.fileName].
  apply Z.ltb_ge in Emax, Efit. apply Z.leb_gt in Epos.
  unfold Util.MAX_EMBED_FILE_SIZE in Emax.
  assert (Hlt : (1 < length bytes)%nat) by (clear -E2; lia).
  pose proof (aget_Forall is_byte bytes 1 Hb Hlt) as H1. unfold is_byte in H1.
  destruct (sanitizeFilename_clean (utf8_decode_lossy
              (Text.substring bytes 2 (2 + Z.to_nat (aget bytes 1))))) as [Hn Hf].
  split; [exact Em|]. split; [lia|]. split; [lia|]. split; [lia|].
  split; [lia|]. split; [exact Hn | exact Hf].
Qed.
Lemma parseFileHeader_Some_witness :
  aget [0x55; 2; 0; 97; 2; 0; 0; 0; 7; 9] 0 = 0x55 /\
  0 < Pixels.fileSize
        {| Pixels.fileName := [97]; Pixels.fileSize := 2; Pixels.payloadOffset := 8 |}
  <= 10485760.
Proof.
  destruct (parseFileHeader_Some unitsOfBytes [0x55; 2; 0; 97; 2; 0; 0; 0; 7; 9]
              {| Pixels.fileName := [97]; Pixels.fileSize := 2;
                 Pixels.payloadOffset := 8 |}
              ltac:(repeat constructor; unfold is_byte; lia)
              ltac:(vm_compute; reflexivity))
    as (H0 & _ & _ & H1 & _).
  split; [exact H0 | exact H1].
Defined.

(** ** LSB statistics *)

(** The three counters of a channel after [p] pixels. *)
Definition counted (p : nat) (st : Pixels.channelCount) : Prop :=
  (Pixels.nOnes st + Pixels.nZeros st = p)%nat /\ (Pixels.nChanged st <= p)%nat.

Lemma countChannel_counted (imageData : list Z) (originalData : option (list Z))
    (i k p : nat) (st : Pixels.channelCount) :
  counted p st ->
  counted (Datatypes.S p) (Pixels.countChannel imageData originalData i k st).
Proof.
  intros [H1 H2]. unfold counted, Pixels.countChannel. cbv zeta.
  cbn [Pixels.nOnes Pixels.nZeros Pixels.nChanged].
  destruct (Z.land (aget imageData (i + k)) 1 =? 0); cbn [negb];
    match goal with
    | |- context [if ?b then Datatypes.S (Pixels.nChanged st) else _] => destruct b
    end; lia.
Qed.

Lemma countChannel_same (imageData : list Z) (i k : nat) (st : Pixels.channelCount) :
  Pixels.nChanged (Pixels.countChannel imageData (Some imageData) i k st)
  = Pixels.nChanged st.
Proof.
  unfold Pixels.countChannel; cbv zeta; cbn [Pixels.nChanged].
  rewrite Z.eqb_refl. cbn [negb]. rewrite andb_false_r. reflexivity.
Qed.

(** X13. the counters of [generateLSBStats].  In every channel the ones and
    the zeros add up to the number of pixels, a started pixel at the end of
    the buffer included, and the totals are the sums over the three
    channels.  Without an original the result has no [changed] field at all.
    With one, every channel has it, at most the number of pixels, the total
    is their sum, and all are 0 when the image is compared with itself. *)
Theorem generateLSBStats_counts (imageData : list Z)
    (originalData : option (list Z)) :
  let s := Pixels.generateLSBStats imageData originalData in
  let pixels := ((length imageData + 3) / 4)%nat in
  (Pixels.ones (Pixels.red s) + Pixels.zeros (Pixels.red s) = pixels)%nat /\
  (Pixels.ones (Pixels.green s) + Pixels.zeros (Pixels.green s) = pixels)%nat /\
  (Pixels.ones (Pixels.blue s) + Pixels.zeros (Pixels.blue s) = pixels)%nat /\
  (Pixels.ones (Pixels.total s) + Pixels.zeros (Pixels.total s) = 3 * pixels)%nat /\
  (originalData = None ->
   Pixels.changed (Pixels.red s) = None /\
   Pixels.changed (Pixels.green s) = None /\
   Pixels.changed (Pixels.blue s) = None /\
   Pixels.changed (Pixels.total s) = None) /\
  (forall original, originalData = Some original ->
   exists r g b : nat,
     Pixels.changed (Pixels.red s) = Some r /\
     Pixels.changed (Pixels.green s) = Some g /\
     Pixels.changed (Pixels.blue s) = Some b /\
     Pixels.changed (Pixels.total s) = Some (r + g + b)%nat /\
     (r <= pixels)%nat /\ (g <= pixels)%nat /\ (b <= pixels)%nat /\
     (original = imageData -> r = 0%nat /\ g = 0%nat /\ b = 0%nat)).
Proof.
  cbv zeta. unfold Pixels.generateLSBStats.
  set (n := ((length imageData + 3) / 4)%nat).
  set (zero := {| Pixels.nOnes := 0; Pixels.nZeros := 0; Pixels.nChanged := 0 |}).
  pose (Q := fun (p : nat) (st : Pixels.channelCount * Pixels.channelCount
                                 * Pixels.channelCount) =>
               let '(r, g, b) := st in
               counted p r /\ counted p g /\ counted p b /\
               (originalData = Some imageData ->
                Pixels.nChanged r = 0 /\ Pixels.nChanged g = 0
                /\ Pixels.nChanged b = 0)%nat).
  match goal with
  | |- context [for_loop n 0 ?f ?s0] =>
      assert (HQ : Q (0 + n)%nat (for_loop n 0 f s0))
  end.
  { apply (for_loop_inv Q).
    - cbn. unfold counted. cbn. repeat split; lia.
    - intros p [[r g] b] _ (Hr & Hg & Hb & Hsame). unfold Q. cbv beta iota zeta.
      split; [apply countChannel_counted; exact Hr|].
      split; [apply countChannel_counted; exact Hg|].
      split; [apply countChannel_counted; exact Hb|].
      intros Ho. rewrite Ho, !countChannel_same. apply Hsame, Ho. }
  destruct (for_loop n 0 _ _) as [[r g] b].
  destruct HQ as ([Hr1 Hr2] & [Hg1 Hg2] & [Hb1 Hb2] & Hsame).
  cbn [Pixels.red Pixels.green Pixels.blue Pixels.total
       Pixels.ones Pixels.zeros Pixels.changed].
  split; [exact Hr1|]. split; [exact Hg1|]. split; [exact Hb1|].
  split; [lia|]. split.
  - intros ->. repeat split; reflexivity.
  - intros original ->.
    exists (Pixels.nChanged r), (Pixels.nChanged g), (Pixels.nChanged b).
    repeat (split; [first [reflexivity | assumption]|]).
    intros ->. apply Hsame. reflexivity.
Qed.

Lemma countChannel_changed (out imageData : list Z) (i k : nat)
    (st : Pixels.channelCount) :
  Pixels.nChanged (Pixels.countChannel out (Some imageData) i k st)
  = Pixels.nChanged st \/
  (Pixels.nChanged (Pixels.countChannel out (Some imageData) i k st)
   = Datatypes.S (Pixels.nChanged st) /\ aget out (i + k) <> aget imageData (i + k)).
Proof.
  unfold Pixels.countChannel. cbv zeta. cbn [Pixels.nChanged].
  destruct (i <? length imageData)%nat; cbn [andb]; [|left; reflexivity].
  destruct (Z.land (aget out (i + k)) 1 =? Z.land (aget imageData (i + k)) 1) eqn:E;
    cbn [negb]; [left; reflexivity|].
  right. split; [reflexivity|]. intros Heq. rewrite Heq, Z.eqb_refl in E.
  discriminate.
Qed.

(** X14. compared with the original, the statistics of an image that
    [embedLSB] produced report a total of changed channel LSBs, and no more
    of them than message bits were embedded. *)
Theorem generateLSBStats_embedLSB (imageData messageBits : list Z) (bitDepth : Z)
    (out : list Z) :
  Image.embedLSB imageData messageBits bitDepth = Ok out ->
  exists changed : nat,
    Pixels.changed (Pixels.total (Pixels.generateLSBStats out (Some imageData)))
    = Some changed /\
    (changed <= length messageBits)%nat.
Proof.
  intros H. apply embedLSB_Ok_inv in H. destruct H as (Hd & _ & Hout).
  destruct (embedLoop_frame imageData messageBits bitDepth) as [_ Hframe].
  cbv zeta in Hframe. rewrite <- Hout in Hframe.
  assert (Hvis : forall p k, (k < 3)%nat ->
            aget out (4 * p + k) <> aget imageData (4 * p + k) ->
            (3 * p + k < length messageBits)%nat).
  { intros p k Hk Hne.
    destruct (Nat.lt_ge_cases (3 * p + k) (length messageBits)) as [Hlt|Hge];
      [exact Hlt|].
    exfalso. apply Hne. unfold aget. rewrite Hframe; [reflexivity|].
    intros [Ha Hr]. unfold rank in Hr.
    assert (HD : (1 <= Z.to_nat bitDepth)%nat) by lia.
    assert (Hrk : (4 * p + k - (4 * p + k) / 4 = 3 * p + k)%nat) by lia.
    rewrite Hrk in Hr. nia. }
  unfold Pixels.generateLSBStats.
  set (n := ((length out + 3) / 4)%nat).
  pose (Q := fun (p : nat) (st : Pixels.channelCount * Pixels.channelCount
                                 * Pixels.channelCount) =>
               let '(r, g, b) := st in
               (Pixels.nChanged r + Pixels.nChanged g + Pixels.nChanged b
                <= Nat.min (3 * p) (length messageBits))%nat).
  match goal with
  | |- context [for_loop n 0 ?f ?s0] =>
      assert (HQ : Q (0 + n)%nat (for_loop n 0 f s0))
  end.
  { apply (for_loop_inv Q).
    - cbn. lia.
    - intros p [[r g] b] _ HQ. unfold Q in HQ |- *. cbv beta iota zeta in HQ |- *.
      pose proof (Hvis p 0%nat ltac:(lia)) as H0.
      pose proof (Hvis p 1%nat ltac:(lia)) as H1.
      pose proof (Hvis p 2%nat ltac:(lia)) as H2.
      destruct (countChannel_changed out imageData (4 * p) 0 r) as [-> | [-> N0]];
        destruct (countChannel_changed out imageData (4 * p) 1 g) as [-> | [-> N1]];
        destruct (countChannel_changed out imageData (4 * p) 2 b) as [-> | [-> N2]];
        try specialize (H0 N0); try specialize (H1 N1); try specialize (H2 N2);
        cbn in HQ; lia. }
  destruct (for_loop n 0 _ _) as [[r g] b]. unfold Q in HQ.
  cbn [Pixels.total Pixels.changed].
  eexists. split; [reflexivity|]. lia.
Qed.

Lemma generateLSBStats_embedLSB_witness :
  Image.embedLSB [200; 17; 255; 255; 0; 64; 9; 255] [1; 0; 1; 1; 0; 0; 1] 2
  = Ok [201; 19; 252; 255; 1; 64; 9; 255] /\
  exists changed : nat,
    Pixels.changed
      (Pixels.total
         (Pixels.generateLSBStats [201; 19; 252; 255; 1; 64; 9; 255]
            (Some [200; 17; 255; 255; 0; 64; 9; 255])))
    = Some changed /\
    Nat.le changed (length [1; 0; 1; 1; 0; 0; 1]).
Proof.
  split; [reflexivity|].
  exact (generateLSBStats_embedLSB [200; 17; 255; 255; 0; 64; 9; 255]
           [1; 0; 1; 1; 0; 0; 1] 2 [201; 19; 252; 255; 1; 64; 9; 255] eq_refl).
Defined.

(** ** JPEG helpers: capacity, statistics, data *)

(** The counting loop folds over the usable AC coefficients of the block. *)
Lemma countBlock_fold {S : Type} (count : Z -> S -> S) (block : list Z) (s : S) :
  length block = 64%nat ->
  Jpeg.countBlock count block s
  = foldl (fun s c => count c s) s (List.filter Image.usable (drop 1 block)).
Proof.
  intros Hl. unfold Jpeg.countBlock.
  assert (H : forall n i t, (i + n = 64)%nat ->
            for_loop n i (fun i s =>
              let coeff := aget block i in
              if Image.usable coeff then count coeff s else s) t
            = foldl (fun s c => count c s) t (List.filter Image.usable (drop i block))).
  { induction n as [|n IH]; intros i t Hi.
    - simpl. rewrite drop_ge by lia. reflexivity.
    - cbn [for_loop]. rewrite IH by lia.
      rewrite (drop_S block (aget block i) i) by (apply lookup_aget; lia).
      cbn [List.filter]. cbv zeta.
      destruct (Image.usable (aget block i)); reflexivity. }
  apply H. reflexivity.
Qed.

Lemma foldl_count (l : list Z) (n : nat) :
  foldl (fun n _ => Datatypes.S n) n l = (n + length l)%nat.
Proof.
  revert n. induction l as [|c l IH]; intros n; simpl; [lia|].
  rewrite IH. lia.
Qed.

Lemma countBlock_usable (block : list Z) (n : nat) :
  wfBlock block ->
  Jpeg.countBlock (fun _ n => Datatypes.S n) block n = (n + usableFrom 1 block)%nat.
Proof.
  intros [Hl _]. rewrite countBlock_fold by exact Hl.
  apply foldl_count.
Qed.

Lemma capacity_row (row : list (list Z)) (n : nat) :
  Forall wfBlock row ->
  foldl (fun bitCount block =>
           Jpeg.countBlock (fun _ n => Datatypes.S n) block bitCount) n row
  = (n + sumOf (usableFrom 1) row)%nat.
Proof.
  intros H. revert n. induction H as [|block row Hb _ IH]; intros n.
  - simpl. lia.
  - cbn [foldl]. rewrite IH, countBlock_usable by exact Hb.
    change (sumOf (usableFrom 1) (block :: row))
      with (usableFrom 1 block + sumOf (usableFrom 1) row)%nat. lia.
Qed.

Lemma capacity_rows (rows : list (list (list Z))) (n : nat) :
  Forall (Forall wfBlock) rows ->
  foldl (fun bitCount row =>
           foldl (fun bitCount block =>
                    Jpeg.countBlock (fun _ n => Datatypes.S n) block bitCount)
             bitCount row) n rows
  = (n + sumOf (sumOf (usableFrom 1)) rows)%nat.
Proof.
  intros H. revert n. induction H as [|row rows Hr _ IH]; intros n.
  - simpl. lia.
  - cbn [foldl]. rewrite IH, capacity_row by exact Hr.
    change (sumOf (sumOf (usableFrom 1)) (row :: rows))
      with (sumOf (usableFrom 1) row + sumOf (sumOf (usableFrom 1)) rows)%nat. lia.
Qed.

Lemma capacity_components (useChroma : bool)
    (components : list Image.JPEGComponentCoefficients) (n : nat) :
  Forall wfComponent components ->
  foldl (fun bitCount component =>
           if negb useChroma && negb (Image.id component =? 1) then bitCount
           else
             foldl (fun bitCount row =>
                      foldl (fun bitCount block =>
                               Jpeg.countBlock (fun _ n => Datatypes.S n) block bitCount)
                        bitCount row)
               bitCount (Image.blocks component)) n components
  = (n + sumOf (usableInComponent useChroma) components)%nat.
Proof.
  intros H. revert n. induction H as [|component components Hc _ IH]; intros n.
  - simpl. lia.
  - cbn [foldl]. rewrite IH.
    change (sumOf (usableInComponent useChroma) (component :: components))
      with (usableInComponent useChroma component
            + sumOf (usableInComponent useChroma) components)%nat.
    unfold usableInComponent, skipped.
    destruct (negb useChroma && negb (Image.id component =? 1)); [lia|].
    rewrite capacity_rows by exact Hc. lia.
Qed.

Lemma calculateJpegCoefficientCapacity_usable
    (coefficients : Image.JPEGQuantizedCoefficients) (useChroma : bool) :
  wfCoefficients coefficients ->
  Jpeg.calculateJpegCoefficientCapacity coefficients useChroma
  = (usableCount useChroma coefficients / 8)%nat.
Proof.
  intros H. unfold Jpeg.calculateJpegCoefficientCapacity. cbv zeta.
  rewrite capacity_components by exact H. reflexivity.
Qed.

(** The two groups of the statistics after some coefficients were tallied:
    in each the ones and the zeros add up to the total, and the totals are
    what they were plus the coefficients of the group. *)
Definition tallied (lum chr : nat) (st st' : Jpeg.groupStats * Jpeg.groupStats)
    : Prop :=
  Jpeg.gTotal (fst st') = (Jpeg.gTotal (fst st) + lum)%nat /\
  Jpeg.gTotal (snd st') = (Jpeg.gTotal (snd st) + chr)%nat /\
  ((Jpeg.gOnes (fst st) + Jpeg.gZeros (fst st) = Jpeg.gTotal (fst st))%nat ->
   (Jpeg.gOnes (fst st') + Jpeg.gZeros (fst st') = Jpeg.gTotal (fst st'))%nat) /\
  ((Jpeg.gOnes (snd st) + Jpeg.gZeros (snd st) = Jpeg.gTotal (snd st))%nat ->
   (Jpeg.gOnes (snd st') + Jpeg.gZeros (snd st') = Jpeg.gTotal (snd st'))%nat).

Lemma tallied_trans (l1 c1 l2 c2 : nat) (a b c : Jpeg.groupStats * Jpeg.groupStats) :
  tallied l1 c1 a b -> tallied l2 c2 b c -> tallied (l1 + l2) (c1 + c2) a c.
Proof.
  intros (A1 & A2 & A3 & A4) (B1 & B2 & B3 & B4). unfold tallied.
  split; [lia|]. split; [lia|]. split; auto.
Qed.

Lemma tallied_refl (a : Jpeg.groupStats * Jpeg.groupStats) : tallied 0 0 a a.
Proof. unfold tallied. repeat split; auto; lia. Qed.

Definition tallyInto (isLuminance : bool) (coeff : Z)
    (st : Jpeg.groupStats * Jpeg.groupStats) : Jpeg.groupStats * Jpeg.groupStats :=
  let '(lum, chr) := st in
  if isLuminance then (Jpeg.tally coeff lum, chr) else (lum, Jpeg.tally coeff chr).

Lemma tally_balanced (coeff : Z) (g : Jpeg.groupStats) :
  Jpeg.gTotal (Jpeg.tally coeff g) = Datatypes.S (Jpeg.gTotal g) /\
  ((Jpeg.gOnes g + Jpeg.gZeros g = Jpeg.gTotal g)%nat ->
   (Jpeg.gOnes (Jpeg.tally coeff g) + Jpeg.gZeros (Jpeg.tally coeff g)
    = Jpeg.gTotal (Jpeg.tally coeff g))%nat).
Proof.
  unfold Jpeg.tally. cbv zeta. cbn [Jpeg.gOnes Jpeg.gZeros Jpeg.gTotal].
  split; [reflexivity|].
  destruct (negb (Image.js_and (Z.abs coeff) 1 =? 0)); lia.
Qed.

Lemma stats_coeffs (isLuminance : bool) (l : list Z)
    (st : Jpeg.groupStats * Jpeg.groupStats) :
  tallied (if isLuminance then length l else 0) (if isLuminance then 0 else length l)
    st (foldl (fun s c => tallyInto isLuminance c s) st l).
Proof.
  revert st. induction l as [|c l IH]; intros st.
  - cbn [foldl length]. destruct isLuminance; apply tallied_refl.
  - cbn [foldl length].
    assert (H1 : tallied (if isLuminance then 1 else 0) (if isLuminance then 0 else 1)
                   st (tallyInto isLuminance c st)).
    { destruct st as [lum chr]. unfold tallyInto, tallied.
      destruct isLuminance; cbn [fst snd];
        [destruct (tally_balanced c lum) as [Ht Hb]
        |destruct (tally_balanced c chr) as [Ht Hb]];
        repeat split; auto; lia. }
    pose proof (tallied_trans _ _ _ _ _ _ _ H1 (IH (tallyInto isLuminance c st))) as H.
    destruct isLuminance; exact H.
Qed.

Lemma stats_block (isLuminance : bool) (block : list Z)
    (st : Jpeg.groupStats * Jpeg.groupStats) :
  wfBlock block ->
  tallied (if isLuminance then usableFrom 1 block else 0)
    (if isLuminance then 0 else usableFrom 1 block)
    st (Jpeg.countBlock (tallyInto isLuminance) block st).
Proof.
  intros [Hl _]. rewrite countBlock_fold by exact Hl. apply stats_coeffs.
Qed.

Lemma stats_row (isLuminance : bool) (row : list (list Z))
    (st : Jpeg.groupStats * Jpeg.groupStats) :
  Forall wfBlock row ->
  tallied (if isLuminance then sumOf (usableFrom 1) row else 0)
    (if isLuminance then 0 else sumOf (usableFrom 1) row)
    st (foldl (fun s block => Jpeg.countBlock (tallyInto isLuminance) block s) st row).
Proof.
  intros H. revert st. induction H as [|block row Hb _ IH]; intros st.
  - cbn [foldl]. destruct isLuminance; apply tallied_refl.
  - cbn [foldl].
    pose proof (tallied_trans _ _ _ _ _ _ _ (stats_block isLuminance block st Hb)
                  (IH (Jpeg.countBlock (tallyInto isLuminance) block st))) as H.
    change (sumOf (usableFrom 1) (block :: row))
      with (usableFrom 1 block + sumOf (usableFrom 1) row)%nat.
    destruct isLuminance; exact H.
Qed.

Lemma stats_rows (isLuminance : bool) (rows : list (list (list Z)))
    (st : Jpeg.groupStats * Jpeg.groupStats) :
  Forall (Forall wfBlock) rows ->
  tallied (if isLuminance then sumOf (sumOf (usableFrom 1)) rows else 0)
    (if isLuminance then 0 else sumOf (sumOf (usableFrom 1)) rows)
    st (foldl (fun s row =>
                 foldl (fun s block =>
                          Jpeg.countBlock (tallyInto isLuminance) block s) s row)
          st rows).
Proof.
  intros H. revert st. induction H as [|row rows Hr _ IH]; intros st.
  - cbn [foldl]. destruct isLuminance; apply tallied_refl.
  - cbn [foldl].
    pose proof (tallied_trans _ _ _ _ _ _ _ (stats_row isLuminance row st Hr)
                  (IH (foldl (fun s block =>
                                Jpeg.countBlock (tallyInto isLuminance) block s)
                         st row))) as H.
    change (sumOf (sumOf (usableFrom 1)) (row :: rows))
      with (sumOf (usableFrom 1) row + sumOf (sumOf (usableFrom 1)) rows)%nat.
    destruct isLuminance; exact H.
Qed.

(** Usable AC coefficients of the components that are not the luminance. *)
Definition usableChroma (coefficients : Image.JPEGQuantizedCoefficients) : nat :=
  sumOf (fun component =>
           if Image.id component =? 1 then 0%nat
           else sumOf (sumOf (usableFrom 1)) (Image.blocks component))
    (Image.components coefficients).

Lemma stats_components (components : list Image.JPEGComponentCoefficients)
    (st : Jpeg.groupStats * Jpeg.groupStats) :
  Forall wfComponent components ->
  tallied (sumOf (usableInComponent false) components)
    (sumOf (fun component =>
              if Image.id component =? 1 then 0%nat
              else sumOf (sumOf (usableFrom 1)) (Image.blocks component))
       components)
    st (foldl (fun stats component =>
                 let isLuminance := Image.id component =? 1 in
                 foldl (fun stats row =>
                          foldl (fun stats block =>
                                   Jpeg.countBlock
                                     (fun coeff '(lum, chr) =>
                                        if isLuminance then (Jpeg.tally coeff lum, chr)
                                        else (lum, Jpeg.tally coeff chr))
                                     block stats)
                            stats row)
                   stats (Image.blocks component))
          st components).
Proof.
  intros H. revert st. induction H as [|component components Hc _ IH]; intros st.
  - cbn [foldl]. apply tallied_refl.
  - cbn [foldl]. cbv zeta.
    change (sumOf (usableInComponent false) (component :: components))
      with (usableInComponent false component
            + sumOf (usableInComponent false) components)%nat.
    match goal with
    | |- tallied _ (sumOf ?f (component :: components)) _ _ =>
        change (sumOf f (component :: components))
          with (f component + sumOf f components)%nat
    end.
    eapply tallied_trans; [|apply IH].
    pose proof (stats_rows (Image.id component =? 1) (Image.blocks component) st Hc)
      as Hs.
    unfold usableInComponent, skipped. cbn [negb andb].
    unfold tallyInto in Hs.
    destruct (Image.id component =? 1); cbn [negb]; exact Hs.
Qed.

Lemma usableCount_split (coefficients : Image.JPEGQuantizedCoefficients) :
  usableCount true coefficients
  = (usableCount false coefficients + usableChroma coefficients)%nat.
Proof.
  unfold usableCount, usableChroma.
  induction (Image.components coefficients) as [|component components IH];
    [reflexivity|].
  unfold sumOf in *. cbn [foldr]. rewrite IH.
  unfold usableInComponent, skipped, sumOf. cbn [negb andb].
  destruct (Image.id component =? 1); cbn [negb]; lia.
Qed.

(** X15. the capacity and the statistics agree with what the engine can
    embed.  On well-formed coefficients [calculateJpegCoefficientCapacity]
    is the number of usable AC coefficients of the visited components,
    divided by 8; the statistics count exactly those coefficients, the
    luminance ones being those visited without chroma; and in each group the
    ones and the zeros add up to the total. *)
Theorem jpeg_capacity_and_stats (coefficients : Image.JPEGQuantizedCoefficients)
    (useChroma : bool) :
  wfCoefficients coefficients ->
  let stats := Jpeg.generateJpegCoefficientStats coefficients in
  Jpeg.calculateJpegCoefficientCapacity coefficients useChroma
  = (usableCount useChroma coefficients / 8)%nat /\
  Jpeg.gTotal (Jpeg.luminance stats) = usableCount false coefficients /\
  Jpeg.totalUsable stats = usableCount true coefficients /\
  (Jpeg.gOnes (Jpeg.luminance stats) + Jpeg.gZeros (Jpeg.luminance stats)
   = Jpeg.gTotal (Jpeg.luminance stats))%nat /\
  (Jpeg.gOnes (Jpeg.chroma stats) + Jpeg.gZeros (Jpeg.chroma stats)
   = Jpeg.gTotal (Jpeg.chroma stats))%nat /\
  (Jpeg.totalOnes stats + Jpeg.totalZeros stats = Jpeg.totalUsable stats)%nat.
Proof.
  intros Hwf. cbv zeta.
  split; [apply calculateJpegCoefficientCapacity_usable; exact Hwf|].
  unfold Jpeg.generateJpegCoefficientStats.
  set (zero := {| Jpeg.gOnes := 0; Jpeg.gZeros := 0; Jpeg.gTotal := 0 |}).
  pose proof (stats_components (Image.components coefficients) (zero, zero) Hwf) as H.
  fold (usableCount false coefficients) in H. fold (usableChroma coefficients) in H.
  rewrite (usableCount_split coefficients).
  destruct (foldl _ (zero, zero) (Image.components coefficients)) as [lum chr].
  destruct H as (H1 & H2 & H3 & H4). cbn [fst snd] in *.
  cbn [Jpeg.luminance Jpeg.chroma Jpeg.totalOnes Jpeg.totalZeros Jpeg.totalUsable].
  cbn [zero Jpeg.gOnes Jpeg.gZeros Jpeg.gTotal] in *.
  specialize (H3 eq_refl). specialize (H4 eq_refl).
  repeat split; lia.
Qed.

(** A component with one block of 63 usable AC coefficients. *)
Definition denseCoefficients : Image.JPEGQuantizedCoefficients :=
  {| Image.components :=
       [ {| Image.id := 1; Image.blocks := [[ 90 :: replicate 63 5 ]] |} ] |}.

Lemma denseCoefficients_wf : wfCoefficients denseCoefficients.
Proof.
  unfold wfCoefficients, wfComponent, denseCoefficients. simpl.
  repeat constructor; unfold int32; lia.
Qed.

Lemma jpeg_capacity_and_stats_witness :
  Jpeg.calculateJpegCoefficientCapacity denseCoefficients true = 7%nat /\
  Jpeg.totalUsable (Jpeg.generateJpegCoefficientStats denseCoefficients) = 63%nat.
Proof.
  destruct (jpeg_capacity_and_stats denseCoefficients true denseCoefficients_wf)
    as (H1 & _ & H3 & _).
  split; [rewrite H1 | rewrite H3]; reflexivity.
Defined.

(** X16. binary data that fits the announced capacity goes through the JPEG
    engine and comes back: [embedDataInJpegCoefficients] succeeds on at most
    [calculateJpegCoefficientCapacity] bytes, and
    [extractDataFromJpegCoefficients], asked for as many bytes, returns
    them. *)
Theorem extractData_embedData_jpeg (coefficients : Image.JPEGQuantizedCoefficients)
    (data_ : list Z) (useChroma : bool) :
  wfCoefficients coefficients ->
  Forall is_byte data_ ->
  (length data_ <= Jpeg.calculateJpegCoefficientCapacity coefficients useChroma)%nat ->
  exists embedded,
    Jpeg.embedDataInJpegCoefficients coefficients data_ useChroma = Ok embedded /\
    Jpeg.extractDataFromJpegCoefficients embedded (length data_) useChroma = data_.
Proof.
  intros Hwf Hd Hcap.
  rewrite calculateJpegCoefficientCapacity_usable in Hcap by exact Hwf.
  destruct (embed_then_extract (Common.bytesToBits data_) coefficients useChroma Hwf)
    as [Hfit _].
  destruct Hfit as (embedded & Hok & _ & _ & Hext).
  { rewrite length_bytesToBits. lia. }
  exists embedded. unfold Jpeg.embedDataInJpegCoefficients,
    Jpeg.extractDataFromJpegCoefficients. cbv zeta.
  split; [exact Hok|].
  rewrite length_bytesToBits in Hext. rewrite Hext.
  rewrite bits_masked by apply bytesToBits_bits.
  apply bitsToBytes_of_bytesToBits. exact Hd.
Qed.

Lemma extractData_embedData_jpeg_witness :
  exists embedded,
    Jpeg.embedDataInJpegCoefficients denseCoefficients [165; 3] true = Ok embedded /\
    Jpeg.extractDataFromJpegCoefficients embedded 2 true = [165; 3].
Proof.
  apply (extractData_embedData_jpeg denseCoefficients [165; 3] true
           denseCoefficients_wf).
  - repeat constructor; unfold is_byte; lia.
  - vm_compute. lia.
Defined.

(** ** Zero-width text engine: binary payloads and the unified decoder *)

(** The bytes both encoders frame: the compressed data, encrypted when a
    password is given. *)
Definition sealed (P : Text.Primitives) (d : list Z)
    (password : option (list Z)) (rnd : Text.Entropy) : list Z :=
  match Text.given password with
  | Some pw => Text.encrypt P (Text.compress P d) pw rnd
  | None => Text.compress P d
  end.

Lemma sealed_recovered (P : Text.Primitives) (d : list Z)
    (password : option (list Z)) (rnd : Text.Entropy) :
  HostLaws P -> drawn rnd -> Forall is_byte d ->
  Forall is_byte (sealed P d password rnd) /\
  Z.of_nat (length (sealed P d password rnd))
  <= Z.of_nat (length (Text.compress P d)) + 32 /\
  match Text.given password with
  | Some pw => Text.decrypt P (sealed P d password rnd) pw
  | None => Ok (sealed P d password rnd)
  end = Ok (Text.compress P d).
Proof.
  intros HP Hr Hd. unfold sealed.
  assert (Hz : Forall is_byte (Text.compress P d)) by (apply (compress_bytes P HP), Hd).
  destruct (Text.given password) as [pw|].
  - split; [|split].
    + destruct Hr as (_ & _ & Hs & Hc). unfold Text.encrypt.
      apply Forall_app. split; [exact Hs|]. apply Forall_app. split; [exact Hc|].
      apply (encrypt_bytes P HP). exact Hz.
    + destruct Hr as (Hs & Hc & _ & _). unfold Text.encrypt.
      rewrite !length_app, (encrypt_length P HP). lia.
    + apply decrypt_encrypt_blob; [exact HP | exact Hr | exact Hz|].
      apply (compress_nonempty P HP).
  - split; [exact Hz|]. split; [lia | reflexivity].
Qed.

(** What either placement of a framed payload gives. *)
Definition placed (c header : list Z) (distribute : bool) : list Z :=
  if distribute then Text.distributeZWC c (Text.bytesToZWC header)
  else c ++ Text.START_SENTINEL ++ Text.bytesToZWC header ++ Text.END_SENTINEL.

Lemma placed_carries (c header : list Z) (distribute : bool) :
  noZWC c -> Forall is_byte header -> carries (placed c header distribute) c header.
Proof.
  intros Hc Hh. unfold placed.
  destruct distribute; [apply distributed_carries | apply appended_carries];
    assumption.
Qed.

Lemma encodeText_placed (P : Text.Primitives) (c s : list Z)
    (p : option (list Z)) (distribute : bool) (rnd : Text.Entropy) :
  Text.encodeText P c s p distribute rnd
  = placed c (Text.frame Text.PAYLOAD_TYPE_TEXT
                (sealed P (Text.utf8_encode P s) p rnd)) distribute.
Proof. reflexivity. Qed.

Lemma encodeBinary_placed (P : Text.Primitives) (c d : list Z)
    (p : option (list Z)) (distribute : bool) (rnd : Text.Entropy) :
  Text.encodeBinary P c d p distribute rnd
  = placed c (Text.frame Text.PAYLOAD_TYPE_BINARY (sealed P d p rnd)) distribute.
Proof. reflexivity. Qed.

Lemma frame_is_bytes (t : Z) (data_ : list Z) : Forall is_byte (Text.frame t data_).
Proof.
  unfold Text.frame. apply List.Forall_forall. intros x Hx.
  apply in_map_iff in Hx. destruct Hx as (y & <- & _). apply u8_is_byte.
Qed.

(** The header both decoders read from a text that carries a frame. *)
Ltac read_header Hcarries Ht Hd Hn :=
  let i := fresh "i" in
  let Hi := fresh "Hi" in
  let Hf := fresh "Hf" in
  let Hv := fresh "Hv" in
  let Hl := fresh "Hl" in
  let H1 := fresh "H1" in
  let H2 := fresh "H2" in
  destruct Hcarries as (i & Hi & Hf & Hv);
  match type of Hf with
  | _ = flat_map zwcOfByte (Text.frame ?t ?data_) ++ _ =>
      destruct (read_frame t data_ Ht Hd Hn) as (Hl & H1 & H2)
  end;
  rewrite Hi; cbv zeta;
  rewrite extractZWCChars_filter;
  change (length Text.START_SENTINEL) with 3%nat; rewrite Hf;
  rewrite visibleOf_spec, Hv;
  match goal with
  | |- context [(length ?a <? 20)%nat] =>
      replace (length a <? 20)%nat with false
        by (symmetry; apply Nat.ltb_ge; rewrite Hl; lia)
  end;
  rewrite H1; cbn [bind];
  rewrite getUint32_setUint32 by lia; cbn [bind];
  match goal with
  | |- context [aget (?t :: ?r) 0] => change (aget (t :: r) 0) with t
  end.

Ltac read_data Hl H2 :=
  match goal with
  | |- context [Z.of_nat (length ?a) <? ?b] =>
      replace (Z.of_nat (length a) <? b) with false
        by (symmetry; apply Z.ltb_ge; rewrite Hl; lia)
  end;
  rewrite H2; cbn [bind].

Lemma decodeBinary_carries (P : Text.Primitives) (stega c data_ z u : list Z)
    (password : option (list Z)) :
  carries stega c (Text.frame Text.PAYLOAD_TYPE_BINARY data_) ->
  Forall is_byte data_ ->
  Z.of_nat (length data_) < 4294967296 ->
  match Text.given password with
  | Some pw => Text.decrypt P data_ pw
  | None => Ok data_
  end = Ok z ->
  Text.decompress P z = Some u ->
  Text.decodeBinary P stega password
  = Ok {| Text.bVisibleText := Text.trim c; Text.bBinaryData := Some u |}.
Proof.
  intros Hc Hd Hn Hz Hu.
  assert (Ht : is_byte Text.PAYLOAD_TYPE_BINARY)
    by (unfold is_byte, Text.PAYLOAD_TYPE_BINARY; lia).
  unfold Text.decodeBinary. read_header Hc Ht Hd Hn.
  rewrite Z.eqb_refl. cbn [negb]. read_data Hl H2.
  rewrite Hz. cbn [bind]. rewrite Hu. reflexivity.
Qed.

Lemma decode_carries (P : Text.Primitives) (stega c data_ z u : list Z) (t : Z)
    (password : option (list Z)) :
  carries stega c (Text.frame t data_) ->
  is_byte t ->
  Forall is_byte data_ ->
  Z.of_nat (length data_) < 4294967296 ->
  match Text.given password with
  | Some pw => Text.decrypt P data_ pw
  | None => Ok data_
  end = Ok z ->
  Text.decompress P z = Some u ->
  Text.decode P stega password
  = Text.tryDecoding
      (if t =? Text.PAYLOAD_TYPE_TEXT then
         match Text.utf8_decode P u with
         | Some textData =>
             Ok {| Text.aVisibleText := Text.trim c;
                   Text.aPayloadType := Some Text.KText;
                   Text.aTextData := Some textData; Text.aBinaryData := None |}
         | None => Throw InvalidUtf8
         end
       else if t =? Text.PAYLOAD_TYPE_BINARY then
         Ok {| Text.aVisibleText := Text.trim c;
               Text.aPayloadType := Some Text.KBinary;
               Text.aTextData := None; Text.aBinaryData := Some u |}
       else Throw (UnknownPayloadType t)).
Proof.
  intros Hc Ht Hd Hn Hz Hu.
  unfold Text.decode. read_header Hc Ht Hd Hn.
  read_data Hl H2.
  rewrite Hz. cbn [bind]. rewrite Hu. cbn [Text.orThrow bind].
  destruct (t =? Text.PAYLOAD_TYPE_TEXT).
  - destruct (Text.utf8_decode P u); reflexivity.
  - reflexivity.
Qed.

Lemma decodeText_other_type (P : Text.Primitives) (stega c data_ : list Z) (t : Z)
    (password : option (list Z)) :
  carries stega c (Text.frame t data_) ->
  is_byte t -> t <> Text.PAYLOAD_TYPE_TEXT ->
  Forall is_byte data_ ->
  Z.of_nat (length data_) < 4294967296 ->
  Text.decodeText P stega password
  = Throw (DecodingFailed (PayloadTypeMismatch t)).
Proof.
  intros Hc Ht Hne Hd Hn.
  unfold Text.decodeText. read_header Hc Ht Hd Hn.
  replace (t =? Text.PAYLOAD_TYPE_TEXT) with false
    by (symmetry; apply Z.eqb_neq; exact Hne).
  reflexivity.
Qed.

Lemma decodeBinary_other_type (P : Text.Primitives) (stega c data_ : list Z) (t : Z)
    (password : option (list Z)) :
  carries stega c (Text.frame t data_) ->
  is_byte t -> t <> Text.PAYLOAD_TYPE_BINARY ->
  Forall is_byte data_ ->
  Z.of_nat (length data_) < 4294967296 ->
  Text.decodeBinary P stega password
  = Throw (DecodingFailed (PayloadTypeMismatch t)).
Proof.
  intros Hc Ht Hne Hd Hn.
  unfold Text.decodeBinary. read_header Hc Ht Hd Hn.
  replace (t =? Text.PAYLOAD_TYPE_BINARY) with false
    by (symmetry; apply Z.eqb_neq; exact Hne).
  reflexivity.
Qed.

(** X17. the round trip of binary payloads.  For a cover without zero-width
    characters, byte data, an optional password and either placement,
    [decodeBinary (encodeBinary c d p) p] returns the data and the trimmed
    cover. *)
Theorem decodeBinary_encodeBinary (P : Text.Primitives) (c d : list Z)
    (p : option (list Z)) (distribute : bool) (rnd : Text.Entropy) :
  HostLaws P ->
  drawn rnd ->
  noZWC c ->
  Forall is_byte d ->
  Z.of_nat (length (Text.compress P d)) + 32 < 4294967296 ->
  Text.decodeBinary P (Text.encodeBinary P c d p distribute rnd) p
  = Ok {| Text.bVisibleText := Text.trim c; Text.bBinaryData := Some d |}.
Proof.
  intros HP Hr Hc Hd Hn.
  destruct (sealed_recovered P d p rnd HP Hr Hd) as (Hb & Hl & Hz).
  rewrite encodeBinary_placed.
  apply (decodeBinary_carries P _ c (sealed P d p rnd) (Text.compress P d) d p).
  - apply placed_carries; [exact Hc | apply frame_is_bytes].
  - exact Hb.
  - lia.
  - exact Hz.
  - apply (decompress_compress P HP). exact Hd.
Qed.

Lemma decodeBinary_encodeBinary_witness :
  Text.decodeBinary sampleHost
    (Text.encodeBinary sampleHost [32; 72; 105; 33; 32] [1; 2; 255]
       (Some [112; 119]) true sampleEntropy)
    (Some [112; 119])
  = Ok {| Text.bVisibleText := [72; 105; 33]; Text.bBinaryData := Some [1; 2; 255] |}.
Proof.
  exact (decodeBinary_encodeBinary sampleHost [32; 72; 105; 33; 32] [1; 2; 255]
           (Some [112; 119]) true sampleEntropy sampleHost_laws sampleEntropy_drawn
           (noZWC_dec [32; 72; 105; 33; 32] eq_refl)
           ltac:(repeat constructor; unfold is_byte; lia)
           ltac:(vm_compute; reflexivity)).
Defined.

(** X18. the unified decoder tells the two encoders apart when the cover
    holds no zero-width character.  For such a cover, a secret that the
    UTF-8 encoder and decoder of the host return unchanged, byte data, an
    optional password and either placement, with framed payloads shorter
    than [2 ^ 32] bytes: on the text that [encodeText] made [decode] returns
    the secret as text, on the one that [encodeBinary] made it returns the
    data as binary; the other field is null, and the visible text is the
    trimmed cover. *)
Theorem decode_detects (P : Text.Primitives) (c s d : list Z)
    (p : option (list Z)) (distribute : bool) (rnd : Text.Entropy) :
  HostLaws P ->
  drawn rnd ->
  noZWC c ->
  Text.utf8_decode P (Text.utf8_encode P s) = Some s ->
  Forall is_byte d ->
  Z.of_nat (length (Text.compress P (Text.utf8_encode P s))) + 32 < 4294967296 ->
  Z.of_nat (length (Text.compress P d)) + 32 < 4294967296 ->
  Text.decode P (Text.encodeText P c s p distribute rnd) p
  = Ok {| Text.aVisibleText := Text.trim c; Text.aPayloadType := Some Text.KText;
          Text.aTextData := Some s; Text.aBinaryData := None |} /\
  Text.decode P (Text.encodeBinary P c d p distribute rnd) p
  = Ok {| Text.aVisibleText := Text.trim c; Text.aPayloadType := Some Text.KBinary;
          Text.aTextData := None; Text.aBinaryData := Some d |}.
Proof.
  intros HP Hr Hc Hs Hd Hn1 Hn2.
  pose proof (utf8_encode_bytes P HP s) as Hu.
  destruct (sealed_recovered P (Text.utf8_encode P s) p rnd HP Hr Hu)
    as (Hb1 & Hl1 & Hz1).
  destruct (sealed_recovered P d p rnd HP Hr Hd) as (Hb2 & Hl2 & Hz2).
  split.
  - rewrite encodeText_placed.
    rewrite (decode_carries P _ c _ _ (Text.utf8_encode P s)
               Text.PAYLOAD_TYPE_TEXT p
               (placed_carries c _ distribute Hc (frame_is_bytes _ _))
               ltac:(unfold is_byte, Text.PAYLOAD_TYPE_TEXT; lia) Hb1 ltac:(lia) Hz1
               (decompress_compress P HP _ Hu)).
    rewrite Z.eqb_refl, Hs. reflexivity.
  - rewrite encodeBinary_placed.
    rewrite (decode_carries P _ c _ _ d Text.PAYLOAD_TYPE_BINARY p
               (placed_carries c _ distribute Hc (frame_is_bytes _ _))
               ltac:(unfold is_byte, Text.PAYLOAD_TYPE_BINARY; lia) Hb2 ltac:(lia) Hz2
               (decompress_compress P HP _ Hd)).
    reflexivity.
Qed.

Lemma decode_detects_witness :
  Text.decode sampleHost
    (Text.encodeText sampleHost [72; 105] [111; 107] None false sampleEntropy) None
  = Ok {| Text.aVisibleText := [72; 105]; Text.aPayloadType := Some Text.KText;
          Text.aTextData := Some [111; 107]; Text.aBinaryData := None |} /\
  Text.decode sampleHost
    (Text.encodeBinary sampleHost [72; 105] [9; 8] None false sampleEntropy) None
  = Ok {| Text.aVisibleText := [72; 105]; Text.aPayloadType := Some Text.KBinary;
          Text.aTextData := None; Text.aBinaryData := Some [9; 8] |}.
Proof.
  exact (decode_detects sampleHost [72; 105] [111; 107] [9; 8] None false
           sampleEntropy sampleHost_laws sampleEntropy_drawn
           (noZWC_dec [72; 105] eq_refl) eq_refl
           ltac:(repeat constructor; unfold is_byte; lia)
           ltac:(vm_compute; reflexivity) ltac:(vm_compute; reflexivity)).
Defined.

(** X19. the typed decoders refuse the other kind of payload when the
    cover holds no zero-width character.  For such a cover, byte data,
    either placement and framed payloads shorter than [2 ^ 32] bytes:
    [decodeText] on the text that [encodeBinary] made, and [decodeBinary] on
    the one that [encodeText] made, throw the type mismatch that names the
    type found, 2 or 1, whatever password the decoder is given: the test
    comes before any decryption or decompression. *)
Theorem decoders_refuse_other_type (P : Text.Primitives) (c s d : list Z)
    (p q : option (list Z)) (distribute : bool) (rnd : Text.Entropy) :
  HostLaws P ->
  drawn rnd ->
  noZWC c ->
  Forall is_byte d ->
  Z.of_nat (length (Text.compress P (Text.utf8_encode P s))) + 32 < 4294967296 ->
  Z.of_nat (length (Text.compress P d)) + 32 < 4294967296 ->
  Text.decodeText P (Text.encodeBinary P c d p distribute rnd) q
  = Throw (DecodingFailed (PayloadTypeMismatch 2)) /\
  Text.decodeBinary P (Text.encodeText P c s p distribute rnd) q
  = Throw (DecodingFailed (PayloadTypeMismatch 1)).
Proof.
  intros HP Hr Hc Hd Hn1 Hn2.
  pose proof (utf8_encode_bytes P HP s) as Hu.
  destruct (sealed_recovered P (Text.utf8_encode P s) p rnd HP Hr Hu)
    as (Hb1 & Hl1 & _).
  destruct (sealed_recovered P d p rnd HP Hr Hd) as (Hb2 & Hl2 & _).
  split.
  - rewrite encodeBinary_placed.
    apply (decodeText_other_type P _ c (sealed P d p rnd) Text.PAYLOAD_TYPE_BINARY q).
    + apply placed_carries; [exact Hc | apply frame_is_bytes].
    + unfold is_byte, Text.PAYLOAD_TYPE_BINARY. lia.
    + discriminate.
    + exact Hb2.
    + lia.
  - rewrite encodeText_placed.
    apply (decodeBinary_other_type P _ c (sealed P (Text.utf8_encode P s) p rnd)
             Text.PAYLOAD_TYPE_TEXT q).
    + apply placed_carries; [exact Hc | apply frame_is_bytes].
    + unfold is_byte, Text.PAYLOAD_TYPE_TEXT. lia.
    + discriminate.
    + exact Hb1.
    + lia.
Qed.

Lemma decoders_refuse_other_type_witness :
  Text.decodeText sampleHost
    (Text.encodeBinary sampleHost [72; 105] [9; 8] None false sampleEntropy) None
  = Throw (DecodingFailed (PayloadTypeMismatch 2)).
Proof.
  exact (proj1 (decoders_refuse_other_type sampleHost [72; 105] [111; 107] [9; 8]
                  None None false sampleEntropy sampleHost_laws sampleEntropy_drawn
                  (noZWC_dec [72; 105] eq_refl)
                  ltac:(repeat constructor; unfold is_byte; lia)
                  ltac:(vm_compute; reflexivity) ltac:(vm_compute; reflexivity))).
Defined.

(** ** Inspection of a text *)

Lemma counting_found (l : list Z) (k : nat) :
  for_of (fun st : bool * nat => fst st)
    (fun char st =>
       if Text.isZWC char
       then let zwcCount := Datatypes.S (snd st) in ((16 <=? zwcCount)%nat, zwcCount)
       else st) l (true, k) = (true, k).
Proof. destruct l; reflexivity. Qed.

Lemma counting_loop (l : list Z) (n : nat) :
  (n < 16)%nat ->
  fst (for_of (fun st : bool * nat => fst st)
         (fun char st =>
            if Text.isZWC char
            then let zwcCount := Datatypes.S (snd st) in ((16 <=? zwcCount)%nat, zwcCount)
            else st) l (false, n))
  = (16 <=? n + length (List.filter Text.isZWC l))%nat.
Proof.
  revert n. induction l as [|x l IH]; intros n Hn.
  - cbn [for_of fst List.filter length]. symmetry. apply Nat.leb_gt. lia.
  - cbn [for_of fst List.filter]. destruct (Text.isZWC x).
    + cbv zeta. cbn [snd length].
      destruct (16 <=? Datatypes.S n)%nat eqn:E.
      * rewrite counting_found. cbn [fst]. apply Nat.leb_le in E.
        symmetry. apply Nat.leb_le. lia.
      * apply Nat.leb_gt in E. rewrite IH by lia. f_equal. lia.
    + apply IH. exact Hn.
Qed.

Lemma hasHiddenData_spec (text : list Z) :
  Inspect.hasHiddenData text
  = match Text.indexOf text Text.START_SENTINEL with
    | None => false
    | Some i => (16 <=? length (List.filter Text.isZWC (drop (i + 3) text)))%nat
    end.
Proof.
  unfold Inspect.hasHiddenData.
  destruct (Text.indexOf text Text.START_SENTINEL) as [i|]; [|reflexivity].
  cbv zeta. rewrite counting_loop by lia. reflexivity.
Qed.

(** X20. when [hasHiddenData] answers no, no decoder finds a payload: all
    three return, without throwing, a null payload and the text without its
    zero-width characters, trimmed when a START sentinel is there. *)
Theorem hasHiddenData_false (P : Text.Primitives) (text : list Z)
    (password : option (list Z)) :
  Inspect.hasHiddenData text = false ->
  let visible :=
    match Text.indexOf text Text.START_SENTINEL with
    | None => Text.removeZWC text
    | Some _ => Text.trim (Text.removeZWC text)
    end in
  Text.decodeText P text password
  = Ok {| Text.visibleText := visible; Text.secretMessage := None |} /\
  Text.decodeBinary P text password
  = Ok {| Text.bVisibleText := visible; Text.bBinaryData := None |} /\
  Text.decode P text password = Ok (Text.noPayload visible).
Proof.
  intros H. rewrite hasHiddenData_spec in H. cbv zeta.
  unfold Text.decodeText, Text.decodeBinary, Text.decode.
  destruct (Text.indexOf text Text.START_SENTINEL) as [i|];
    [|repeat split; reflexivity].
  cbv zeta. rewrite extractZWCChars_filter, visibleOf_spec.
  change (length Text.START_SENTINEL) with 3%nat.
  apply Nat.leb_gt in H.
  replace (length (List.filter Text.isZWC (drop (i + 3) text)) <? 20)%nat with true
    by (symmetry; apply Nat.ltb_lt; lia).
  repeat split; reflexivity.
Qed.

Lemma hasHiddenData_false_witness :
  Inspect.hasHiddenData [72; 0x200b; 0x200c; 0x200b; 0x200d; 105; 32] = false /\
  Text.decodeText sampleHost [72; 0x200b; 0x200c; 0x200b; 0x200d; 105; 32] None
  = Ok {| Text.visibleText := [72; 105]; Text.secretMessage := None |}.
Proof.
  split; [reflexivity|].
  exact (proj1 (hasHiddenData_false sampleHost
                  [72; 0x200b; 0x200c; 0x200b; 0x200d; 105; 32] None eq_refl)).
Defined.

Lemma removeZWC_noZWC (text : list Z) : noZWC (Text.removeZWC text).
Proof.
  apply List.Forall_forall. intros x Hx. apply List.filter_In in Hx.
  destruct Hx as [_ Hx]. apply negb_true_iff in Hx. exact Hx.
Qed.

Lemma noZWC_no_start (c : list Z) :
  noZWC c -> Text.indexOf c Text.START_SENTINEL = None.
Proof.
  intros Hc. apply indexOf_None. intros (pre & post & E).
  rewrite E in Hc. apply Forall_app in Hc. destruct Hc as [_ Hc].
  apply Forall_app in Hc. destruct Hc as [Hc _].
  inversion Hc as [|? ? H0 _]. discriminate.
Qed.

(** X21. [stripZWC] removes whatever was hidden.  Its result holds no
    zero-width character; [hasHiddenData] answers no on it, and every
    decoder returns it unchanged with a null payload. *)
Theorem stripZWC_clears (P : Text.Primitives) (text : list Z)
    (password : option (list Z)) :
  let stripped := Text.stripZWC text in
  noZWC stripped /\
  Text.stripZWC stripped = stripped /\
  Inspect.hasHiddenData stripped = false /\
  Text.decodeText P stripped password
  = Ok {| Text.visibleText := stripped; Text.secretMessage := None |} /\
  Text.decodeBinary P stripped password
  = Ok {| Text.bVisibleText := stripped; Text.bBinaryData := None |} /\
  Text.decode P stripped password = Ok (Text.noPayload stripped).
Proof.
  cbv zeta. unfold Text.stripZWC.
  pose proof (removeZWC_noZWC text) as Hn.
  pose proof (noZWC_no_start _ Hn) as Hi.
  pose proof (removeZWC_none _ Hn) as Hs.
  split; [exact Hn|]. split; [exact Hs|]. split.
  { rewrite hasHiddenData_spec, Hi. reflexivity. }
  unfold Text.decodeText, Text.decodeBinary, Text.decode. rewrite Hi, Hs.
  repeat split; reflexivity.
Qed.

Lemma length_frame (t : Z) (data_ : list Z) :
  length (Text.frame t data_) = (5 + length data_)%nat.
Proof.
  unfold Text.frame. rewrite length_map, !length_app. reflexivity.
Qed.

(** The zero-width characters of an encoded text: the two sentinels and
    four for every framed byte. *)
Lemma placed_zwc (c header : list Z) (distribute : bool) :
  noZWC c -> Forall is_byte header ->
  List.filter Text.isZWC (placed c header distribute)
  = Text.START_SENTINEL ++ Text.bytesToZWC header ++ Text.END_SENTINEL /\
  Text.removeZWC (placed c header distribute) = c.
Proof.
  intros Hc Hh. destruct sentinels_zwc as [Hs He].
  pose proof (bytesToZWC_zwc header Hh) as Hz. rewrite <- bytesToZWC_flat_map in Hz.
  assert (Happ : List.filter Text.isZWC
                   (c ++ Text.START_SENTINEL ++ Text.bytesToZWC header
                    ++ Text.END_SENTINEL)
                 = Text.START_SENTINEL ++ Text.bytesToZWC header ++ Text.END_SENTINEL
                 /\ Text.removeZWC
                      (c ++ Text.START_SENTINEL ++ Text.bytesToZWC header
                       ++ Text.END_SENTINEL) = c).
  { split.
    - rewrite List.filter_app.
      replace (List.filter Text.isZWC c) with (@nil Z).
      + apply filter_all. repeat (apply Forall_app; split); assumption.
      + symmetry. clear -Hc. induction Hc as [|x c Hx _ IH]; [reflexivity|].
        simpl. rewrite Hx. exact IH.
    - rewrite removeZWC_app, (removeZWC_none c Hc).
      rewrite removeZWC_all; [apply app_nil_r|].
      repeat (apply Forall_app; split); assumption. }
  unfold placed. destruct distribute; [|exact Happ].
  destruct (Text.insertionPoints c) as [|p0 ps] eqn:Ep.
  - unfold Text.distributeZWC. rewrite Ep. cbn [length Nat.eqb]. exact Happ.
  - destruct (distributeZWC_split c (Text.bytesToZWC header) Hc Hz)
      as (result & -> & Hf & Hr); [rewrite Ep; discriminate|].
    split.
    + rewrite !List.filter_app, Hf, (filter_all _ Hs), (filter_all _ He).
      reflexivity.
    + rewrite !removeZWC_app, Hr, (removeZWC_all _ Hs), (removeZWC_all _ He).
      apply app_nil_r.
Qed.

Lemma carries_hidden (stega c header : list Z) :
  carries stega c header -> (4 <= length header)%nat ->
  Inspect.hasHiddenData stega = true.
Proof.
  intros (i & Hi & Hf & _) Hl. rewrite hasHiddenData_spec, Hi, Hf.
  apply Nat.leb_le. rewrite length_app.
  rewrite (length_flat_map4 zwcOfByte length_zwcOfByte).
  change (length Text.END_SENTINEL) with 3%nat. lia.
Qed.

(** X22. what the encoders produce is recognised and can be undone.  On the
    output of [encodeText] and of [encodeBinary], for a cover without
    zero-width characters, [hasHiddenData] answers yes and [stripZWC] gives
    the cover back. *)
Theorem encoded_is_detected (P : Text.Primitives) (c s d : list Z)
    (p : option (list Z)) (distribute : bool) (rnd : Text.Entropy) :
  noZWC c ->
  Inspect.hasHiddenData (Text.encodeText P c s p distribute rnd) = true /\
  Text.stripZWC (Text.encodeText P c s p distribute rnd) = c /\
  Inspect.hasHiddenData (Text.encodeBinary P c d p distribute rnd) = true /\
  Text.stripZWC (Text.encodeBinary P c d p distribute rnd) = c /\
  Inspect.hasHiddenData c = false.
Proof.
  intros Hc. rewrite encodeText_placed, encodeBinary_placed. unfold Text.stripZWC.
  split; [|split; [|split; [|split]]].
  - apply (carries_hidden _ c (Text.frame Text.PAYLOAD_TYPE_TEXT
                                 (sealed P (Text.utf8_encode P s) p rnd))).
    + apply placed_carries; [exact Hc | apply frame_is_bytes].
    + rewrite length_frame. lia.
  - apply placed_zwc; [exact Hc | apply frame_is_bytes].
  - apply (carries_hidden _ c (Text.frame Text.PAYLOAD_TYPE_BINARY (sealed P d p rnd))).
    + apply placed_carries; [exact Hc | apply frame_is_bytes].
    + rewrite length_frame. lia.
  - apply placed_zwc; [exact Hc | apply frame_is_bytes].
  - rewrite hasHiddenData_spec, (noZWC_no_start c Hc). reflexivity.
Qed.

Lemma encoded_is_detected_witness :
  noZWC [72; 105; 32; 33] /\
  Inspect.hasHiddenData
    (Text.encodeText sampleHost [72; 105; 32; 33] [111] None true sampleEntropy)
  = true /\
  Text.stripZWC
    (Text.encodeText sampleHost [72; 105; 32; 33] [111] None true sampleEntropy)
  = [72; 105; 32; 33].
Proof.
  assert (Hc : noZWC [72; 105; 32; 33]) by (apply noZWC_dec; reflexivity).
  split; [exact Hc|].
  destruct (encoded_is_detected sampleHost [72; 105; 32; 33] [111] [] None true
              sampleEntropy Hc) as (H1 & H2 & _).
  split; [exact H1 | exact H2].
Defined.

(** ** The counters of [analyzeZWC] *)

Lemma reverseMap_isZWC (c : Z) :
  match Text.reverseMap c with
  | Some k => Text.isZWC c = true /\ 0 <= k < 6
  | None => Text.isZWC c = false
  end.
Proof.
  unfold Text.reverseMap, Text.isZWC, Text.ZWC_MAP. cbn [existsb].
  rewrite !(Z.eqb_sym c).
  destruct (8203 =? c); [split; [reflexivity | lia]|].
  destruct (8204 =? c); [split; [reflexivity | lia]|].
  destruct (8205 =? c); [split; [reflexivity | lia]|].
  destruct (65279 =? c); [split; [reflexivity | lia]|].
  destruct (8288 =? c); [split; [reflexivity | lia]|].
  destruct (8289 =? c); [split; [reflexivity | lia]|].
  reflexivity.
Qed.

Fixpoint sumNat (l : list nat) : nat :=
  match l with
  | [] => 0%nat
  | n :: r => (n + sumNat r)%nat
  end.

Lemma sumNat_alter (l : list nat) (k : nat) :
  (k < length l)%nat -> sumNat (alter Datatypes.S k l) = Datatypes.S (sumNat l).
Proof.
  revert k. induction l as [|n l IH]; intros k Hk; [simpl in Hk; lia|].
  destruct k as [|k]; cbn; [reflexivity|].
  rewrite IH by (simpl in Hk; lia). lia.
Qed.

Lemma analyze_fold (text : list Z) (bd : list nat) (n : nat) :
  length bd = 6%nat ->
  let r := foldl (fun st char =>
                    match Inspect.breakdownIndex char with
                    | Some k => (alter Datatypes.S k (fst st), Datatypes.S (snd st))
                    | None => st
                    end) (bd, n) text in
  length (fst r) = 6%nat /\
  snd r = (n + length (List.filter Text.isZWC text))%nat /\
  sumNat (fst r) = (sumNat bd + length (List.filter Text.isZWC text))%nat.
Proof.
  revert bd n. induction text as [|c text IH]; intros bd n Hl; cbv zeta.
  - cbn. repeat split; [exact Hl | lia | lia].
  - cbn [foldl List.filter fst snd].
    assert (E : Inspect.breakdownIndex c = option_map Z.to_nat (Text.reverseMap c))
      by reflexivity.
    rewrite E. clear E.
    pose proof (reverseMap_isZWC c) as Hc.
    destruct (Text.reverseMap c) as [k|]; cbn [option_map fst snd].
    + destruct Hc as [-> Hk].
      destruct (IH (alter Datatypes.S (Z.to_nat k) bd) (Datatypes.S n))
        as (H1 & H2 & H3); [rewrite length_alter; exact Hl|].
      cbv zeta in H1, H2, H3. rewrite H2, H3, sumNat_alter by lia.
      cbn [length]. repeat split; [exact H1 | lia | lia].
    + rewrite Hc. apply IH. exact Hl.
Qed.

Lemma filter_partition (text : list Z) :
  (length (List.filter Text.isZWC text) + length (Text.removeZWC text)
   = length text)%nat.
Proof.
  unfold Text.removeZWC. induction text as [|c text IH]; [reflexivity|].
  simpl. destruct (Text.isZWC c); simpl; lia.
Qed.

(** X23. the counters of [analyzeZWC] add up: the zero-width characters it
    counts and the visible length make the length of the text, and the six
    counters of the breakdown make the count.  On a text that [encodeBinary]
    made the visible length is that of the cover, the count is 6 plus 4 for
    every framed byte, and the estimate is the size of the frame: the sealed
    payload and its 5 header bytes. *)
Theorem analyzeZWC_counts (P : Text.Primitives) (text c d : list Z)
    (p : option (list Z)) (distribute : bool) (rnd : Text.Entropy) :
  let st := Inspect.analyzeZWC text in
  (Inspect.zwcCount st + Inspect.visibleLength st = length text)%nat /\
  length (Inspect.breakdown st) = 6%nat /\
  sumNat (Inspect.breakdown st) = Inspect.zwcCount st /\
  (noZWC c -> text = Text.encodeBinary P c d p distribute rnd ->
   Inspect.visibleLength st = length c /\
   Inspect.zwcCount st = (4 * (5 + length (sealed P d p rnd)) + 6)%nat /\
   Inspect.estimatedPayloadBytes st = Z.of_nat (5 + length (sealed P d p rnd))).
Proof.
  cbv zeta. unfold Inspect.analyzeZWC.
  destruct (analyze_fold text (replicate 6 0%nat) 0%nat eq_refl) as (H1 & H2 & H3).
  cbv zeta in H1, H2, H3.
  destruct (foldl _ (replicate 6 0%nat, 0%nat) text) as [bd n].
  cbn [fst snd] in H1, H2, H3.
  cbn [Inspect.zwcCount Inspect.visibleLength Inspect.breakdown
       Inspect.estimatedPayloadBytes].
  unfold Text.stripZWC. pose proof (filter_partition text) as Hp.
  split; [lia|]. split; [exact H1|]. split; [cbn in H3; lia|].
  intros Hc ->. rewrite encodeBinary_placed in H2 |- *.
  destruct (placed_zwc c (Text.frame Text.PAYLOAD_TYPE_BINARY (sealed P d p rnd))
              distribute Hc (frame_is_bytes _ _)) as [Hf Hr].
  rewrite Hf in H2. rewrite Hr.
  rewrite !length_app, bytesToZWC_flat_map,
    (length_flat_map4 zwcOfByte length_zwcOfByte), length_frame in H2.
  change (length Text.START_SENTINEL) with 3%nat in H2.
  change (length Text.END_SENTINEL) with 3%nat in H2.
  split; [reflexivity|]. split; [lia|]. subst n. lia.
Qed.

Lemma analyzeZWC_counts_witness :
  Inspect.visibleLength
    (Inspect.analyzeZWC
       (Text.encodeBinary sampleHost [72; 105] [1; 2; 3] None false sampleEntropy))
  = 2%nat.
Proof.
  destruct (analyzeZWC_counts sampleHost
              (Text.encodeBinary sampleHost [72; 105] [1; 2; 3] None false
                 sampleEntropy)
              [72; 105] [1; 2; 3] None false sampleEntropy) as (_ & _ & _ & H).
  destruct (H ltac:(apply noZWC_dec; reflexivity) eq_refl) as (H1 & _).
  exact H1.
Defined.

(** ** The base-6 codec *)

Lemma digitOf_filter (s : list Z) :
  flat_map digitOf (List.filter Text.isZWC s) = flat_map digitOf s.
Proof.
  induction s as [|c s IH]; [reflexivity|].
  cbn [List.filter]. pose proof (reverseMap_isZWC c) as Hc.
  unfold digitOf at 2. rewrite flat_map_cons.
  destruct (Text.reverseMap c) as [k|] eqn:E.
  - destruct Hc as [-> _]. rewrite flat_map_cons. unfold digitOf at 1.
    rewrite E, IH. reflexivity.
  - rewrite Hc, IH. reflexivity.
Qed.

Lemma length_digits (s : list Z) :
  length (flat_map digitOf s) = length (List.filter Text.isZWC s).
Proof.
  induction s as [|c s IH]; [reflexivity|].
  rewrite flat_map_cons, length_app, IH. cbn [List.filter].
  pose proof (reverseMap_isZWC c) as Hc. unfold digitOf.
  destruct (Text.reverseMap c); [destruct Hc as [-> _] | rewrite Hc]; reflexivity.
Qed.

Lemma zwcToBytes_filter (s : list Z) :
  Text.zwcToBytes (List.filter Text.isZWC s) = Text.zwcToBytes s.
Proof.
  unfold Text.zwcToBytes. rewrite !zwcDigits_flat_map, digitOf_filter. reflexivity.
Qed.

(** X24. the base-6 codec.  [bytesToZWC] writes four zero-width characters a
    byte and [zwcToBytes] reads the bytes back, whatever other characters
    are mixed in; a text whose zero-width characters do not come in fours
    is refused. *)
Theorem zwcToBytes_bytesToZWC_mixed (bytes s : list Z) :
  Forall is_byte bytes ->
  length (Text.bytesToZWC bytes) = (4 * length bytes)%nat /\
  Forall (fun c => Text.isZWC c = true) (Text.bytesToZWC bytes) /\
  Text.zwcToBytes (Text.bytesToZWC bytes) = Ok bytes /\
  (List.filter Text.isZWC s = Text.bytesToZWC bytes ->
   Text.zwcToBytes s = Ok bytes) /\
  ((length (List.filter Text.isZWC s) mod 4 <> 0)%nat ->
   Text.zwcToBytes s = Throw InvalidZwcLength).
Proof.
  intros Hb. rewrite bytesToZWC_flat_map.
  split; [apply (length_flat_map4 zwcOfByte length_zwcOfByte)|].
  split; [apply bytesToZWC_zwc; exact Hb|].
  split; [apply zwcToBytes_bytesToZWC; exact Hb|]. split.
  - intros Hs. rewrite <- zwcToBytes_filter, Hs.
    apply zwcToBytes_bytesToZWC. exact Hb.
  - intros Hm. unfold Text.zwcToBytes. rewrite zwcDigits_flat_map, length_digits.
    replace (length (List.filter Text.isZWC s) mod 4 =? 0)%nat with false
      by (symmetry; apply Nat.eqb_neq; exact Hm).
    reflexivity.
Qed.

Lemma zwcToBytes_bytesToZWC_mixed_witness :
  Forall is_byte [0; 37; 255] /\
  Text.zwcToBytes ([104] ++ Text.bytesToZWC [0; 37] ++ [105; 32]
                   ++ Text.bytesToZWC [255])
  = Ok [0; 37; 255].
Proof.
  assert (Hb : Forall is_byte [0; 37; 255])
    by (repeat constructor; unfold is_byte; lia).
  split; [exact Hb|].
  apply (proj1 (proj2 (proj2 (proj2
           (zwcToBytes_bytesToZWC_mixed [0; 37; 255]
              ([104] ++ Text.bytesToZWC [0; 37] ++ [105; 32]
               ++ Text.bytesToZWC [255]) Hb))))).
  reflexivity.
Defined.

(** ** The password layer *)

(** X25. [decrypt] undoes [encrypt] on every non-empty buffer; the blob is 32
    bytes longer than the data.  A blob shorter than 33 bytes is refused, so
    the encryption of an empty buffer cannot be decrypted. *)
Theorem decrypt_encrypt_layer (P : Text.Primitives) (d pw blob : list Z)
    (rnd : Text.Entropy) :
  HostLaws P ->
  drawn rnd ->
  Forall is_byte d ->
  length (Text.encrypt P d pw rnd) = (32 + length d)%nat /\
  (d <> [] -> Text.decrypt P (Text.encrypt P d pw rnd) pw = Ok d) /\
  (d = [] -> Text.decrypt P (Text.encrypt P d pw rnd) pw
             = Throw EncryptedDataTooShort) /\
  ((length blob < 33)%nat -> Text.decrypt P blob pw = Throw EncryptedDataTooShort).
Proof.
  intros HP Hr Hd.
  assert (Hlen : length (Text.encrypt P d pw rnd) = (32 + length d)%nat).
  { destruct Hr as (Hs & Hc & _). unfold Text.encrypt.
    rewrite !length_app, (encrypt_length P HP). lia. }
  assert (Hshort : forall b, (length b < 33)%nat ->
            Text.decrypt P b pw = Throw EncryptedDataTooShort).
  { intros b Hb. unfold Text.decrypt.
    replace (length b <? 33)%nat with true by (symmetry; apply Nat.ltb_lt; exact Hb).
    reflexivity. }
  split; [exact Hlen|]. split; [|split].
  - intros Hne. apply decrypt_encrypt_blob; assumption.
  - intros ->. apply Hshort. rewrite Hlen. simpl. lia.
  - apply Hshort.
Qed.

Lemma decrypt_encrypt_layer_witness :
  Text.decrypt sampleHost (Text.encrypt sampleHost [1; 2; 3] [112] sampleEntropy) [112]
  = Ok [1; 2; 3].
Proof.
  apply (proj1 (proj2 (decrypt_encrypt_layer sampleHost [1; 2; 3] [112] []
                         sampleEntropy sampleHost_laws sampleEntropy_drawn
                         ltac:(repeat constructor; unfold is_byte; lia)))).
  discriminate.
Defined.

(** ** The size checks of the later [encodeText] *)

(** X26. with the default options a cover shorter than 30 units carries
    nothing: every secret whose encoding is not empty is refused.  With
    [strictCapacity] off and sizes within the maxima nothing is refused, and
    the text is the one the unchecked pipeline builds. *)
Theorem guarded_encodeText_capacity (P : Text.Primitives) (c s : list Z)
    (p : option (list Z)) (distribute : bool) (rnd : Text.Entropy) :
  ((length c < 30)%nat -> Text.utf8_encode P s <> [] ->
   forall stega,
     Text.Guarded.encodeText P c s p distribute None rnd <> Ok stega) /\
  (Z.of_nat (length c) <= Text.MAX_COVER_LENGTH ->
   Z.of_nat (length (Text.utf8_encode P s)) <= Text.MAX_SECRET_LENGTH ->
   forall capacity,
     Text.Guarded.encodeText P c s p distribute
       (Some {| Text.maxPayloadBytes := capacity; Text.maxSecretLength := None;
                Text.maxCoverLength := None; Text.strictCapacity := Some false |})
       rnd
     = Ok (Text.encodeText P c s p distribute rnd)).
Proof.
  split.
  - intros Hc Hs stega. unfold Text.Guarded.encodeText, Text.optionOr.
    destruct (Text.MAX_COVER_LENGTH <? Z.of_nat (length c)); [discriminate|].
    destruct (Text.MAX_SECRET_LENGTH <? Z.of_nat (length (Text.utf8_encode P s)));
      [discriminate|].
    assert (Hcap : Text.calculateTextCapacity c = 0).
    { unfold Text.calculateTextCapacity. lia. }
    rewrite Hcap.
    assert (Hpos : (0 < length (Text.utf8_encode P s))%nat)
      by (destruct (Text.utf8_encode P s); [contradiction | simpl; lia]).
    match goal with
    | |- (if (0 <? ?e) && true then _ else _) <> _ =>
        replace (0 <? e) with true
          by (symmetry; apply Z.ltb_lt; destruct (Text.given p); lia)
    end.
    discriminate.
  - intros Hc Hs capacity. unfold Text.Guarded.encodeText, Text.optionOr.
    cbn [Text.maxSecretLength Text.maxCoverLength Text.strictCapacity
         Text.maxPayloadBytes default].
    replace (Text.MAX_COVER_LENGTH <? Z.of_nat (length c)) with false
      by (symmetry; apply Z.ltb_ge; exact Hc).
    replace (Text.MAX_SECRET_LENGTH <? Z.of_nat (length (Text.utf8_encode P s)))
      with false by (symmetry; apply Z.ltb_ge; exact Hs).
    rewrite !andb_false_r. unfold Text.encodeText.
    destruct distribute; reflexivity.
Qed.

Lemma guarded_encodeText_capacity_witness :
  Text.Guarded.encodeText sampleHost (replicate 29 97) [104] None false None
    sampleEntropy
  <> Ok (Text.encodeText sampleHost (replicate 29 97) [104] None false sampleEntropy).
Proof.
  apply (proj1 (guarded_encodeText_capacity sampleHost (replicate 29 97) [104]
                  None false sampleEntropy)).
  - vm_compute. lia.
  - discriminate.
Defined.
